(** * Cloak: span processing and anonymization pipeline

    A shallow embedding of the span-processing core of Cloak
    (chunker, parallel dispatcher, validator, merger, redactor, replacer and
    the default replacement strategy), followed by the properties of the
    design specification stated and settled on that embedding.

    Conventions of the embedding
    - a Python [str] is a list of characters ([list ascii]); [len], slicing
      [s[a:b]] (with Python's treatment of negative and out-of-range bounds),
      [strip] and concatenation are written out on lists;
    - a Python [int] is a [Z]; list indices produced by the code itself are
      [nat];
    - a Python [float] is a binary64 [float];
    - a [dict] used as a map is a [gmap]; a [set] is a [gset];
    - an entity dictionary is the record [entity];
    - what depends on the interpreter's Unicode tables (character classes,
      case mappings) is the class [CharDb]; the ASCII tables are one instance;
    - the hidden state of the pseudo-random generators is an abstract world
      [W] stepped by [next_random]. *)

From Stdlib Require Import ZArith List String Ascii Lia Floats Sorted.
From stdpp Require Import gmap strings list pretty sorting.

Local Open Scope Z_scope.

(** ** Python strings *)

Abbreviation str := (list ascii).

(** A string literal of the source. *)
Definition py (s : string) : str := list_ascii_of_string s.

(** [len(s)] *)
Definition len (s : str) : Z := Z.of_nat (length s).

(** One bound of a slice, as [PySlice_AdjustIndices] resolves it against a
    sequence of length [n]: a negative bound counts from the end, and the
    result is clamped to [0..n]. *)
Definition slice_bound (n i : Z) : Z :=
  if i <? 0 then Z.max 0 (n + i) else Z.min i n.

(** [s[a:b]] *)
Definition slice (s : str) (a b : Z) : str :=
  let lo := slice_bound (len s) a in
  let hi := slice_bound (len s) b in
  take (Z.to_nat (hi - lo)) (drop (Z.to_nat lo) s).

(** [s[:b]] *)
Definition slice_to (s : str) (b : Z) : str := slice s 0 b.

(** [s[a:]] *)
Definition slice_from (s : str) (a : Z) : str := slice s a (len s).

(** [str(n)] for a non-negative integer. *)
Definition str_of_N (n : N) : str := py (pretty n).
Definition str_of_nat (n : nat) : str := str_of_N (N.of_nat n).

(** [needle in haystack] on strings. *)
Fixpoint is_prefix_of (p s : str) : bool :=
  match p, s with
  | [], _ => true
  | _ :: _, [] => false
  | a :: p', b :: s' => if decide (a = b) then is_prefix_of p' s' else false
  end.

Fixpoint contains (haystack needle : str) : bool :=
  is_prefix_of needle haystack ||
  match haystack with
  | [] => false
  | _ :: h' => contains h' needle
  end.

(** ** Python numbers *)

(** [sum(l)], and [min(l)] and [max(l)] of a non-empty list of integers. *)
Definition py_sum (l : list Z) : Z := foldl Z.add 0 l.

Definition py_min (l : list Z) : Z :=
  match l with
  | [] => 0
  | x :: l' => foldl Z.min x l'
  end.

Definition py_max (l : list Z) : Z :=
  match l with
  | [] => 0
  | x :: l' => foldl Z.max x l'
  end.

(** [int(s)] on a string of ASCII digits, which is what [str] gives of a
    non-negative integer; [None] is the [ValueError] on a string that is not
    a numeral. (The signs, underscores and surrounding whitespace that [int]
    also accepts do not occur in the strings the code converts.) *)
Definition digit_value (c : ascii) : option Z :=
  let n := Z.of_nat (nat_of_ascii c) in
  if (48 <=? n) && (n <=? 57) then Some (n - 48) else None.

Definition int (s : list ascii) : option Z :=
  if bool_decide (s = []) then None
  else foldl (λ acc c, a ← acc; d ← digit_value c; Some (10 * a + d))
             (Some 0) s.

(** [float(z)] for an integer of magnitude below [2^53], which converts
    exactly. *)
Definition float_of_Z (z : Z) : float :=
  if z <? 0 then (- of_uint63 (Uint63.of_Z (- z)))%float
  else of_uint63 (Uint63.of_Z z).

(** [a / b] on two such integers: the quotient of the conversions is the
    correctly rounded quotient. *)
Definition true_div (a b : Z) : float := (float_of_Z a / float_of_Z b)%float.

(** ** The character database

    [isspace] is the whitespace test shared by [str.strip], [str.split] and
    the regular expression classes [\s] and [\S]; the other fields are the
    per-character tests behind [str.isalpha], [str.isdecimal], [str.isdigit],
    [str.isnumeric], [str.isupper], [str.islower], and the string mappings
    [str.upper] and [str.lower]. *)

Class CharDb := {
  isspace : ascii → bool;
  isalpha : ascii → bool;
  isdecimal : ascii → bool;
  isdigit : ascii → bool;
  isnumeric : ascii → bool;
  isupper : ascii → bool;
  islower : ascii → bool;
  upper : str → str;
  lower : str → str
}.

(** The ASCII repertoire. *)
Module AsciiDb.

Definition code (c : ascii) : nat := nat_of_ascii c.

Definition between (lo hi : nat) (c : ascii) : bool :=
  (lo <=? code c)%nat && (code c <=? hi)%nat.

Definition space (c : ascii) : bool :=
  between 9 13 c || between 28 32 c.

Definition digit (c : ascii) : bool := between 48 57 c.
Definition upper_letter (c : ascii) : bool := between 65 90 c.
Definition lower_letter (c : ascii) : bool := between 97 122 c.
Definition letter (c : ascii) : bool := upper_letter c || lower_letter c.

Definition to_upper (c : ascii) : ascii :=
  if lower_letter c then ascii_of_nat (code c - 32) else c.

Definition to_lower (c : ascii) : ascii :=
  if upper_letter c then ascii_of_nat (code c + 32) else c.

#[export] Instance ascii_db : CharDb := {|
  isspace := space;
  isalpha := letter;
  isdecimal := digit;
  isdigit := digit;
  isnumeric := digit;
  isupper := upper_letter;
  islower := lower_letter;
  upper := map to_upper;
  lower := map to_lower
|}.

End AsciiDb.

Section StringMethods.
Context `{CharDb}.

(** [c.isalnum()] *)
Definition isalnum (c : ascii) : bool :=
  isalpha c || isdecimal c || isdigit c || isnumeric c.

(** [s.isdigit()], [s.isalpha()]: every character passes and there is at
    least one. *)
Definition str_isdigit (s : str) : bool :=
  forallb isdigit s && negb (bool_decide (s = [])).

Definition str_isalpha (s : str) : bool :=
  forallb isalpha s && negb (bool_decide (s = [])).

(** [s.lstrip()], [s.rstrip()], [s.strip()] *)
Fixpoint lstrip (s : str) : str :=
  match s with
  | [] => []
  | c :: s' => if isspace c then lstrip s' else s
  end.

Definition rstrip (s : str) : str := reverse (lstrip (reverse s)).

Definition strip (s : str) : str := rstrip (lstrip s).

End StringMethods.

(** ** Entities

    The span dictionaries of the pipeline. [count] is the bookkeeping key the
    merger adds to its running candidate and pops before emitting it; it is
    [None] on a dictionary without the key. *)

Record entity := Entity {
  label : str;
  text : str;
  start : Z;
  end_ : Z;
  score : float;
  count : option Z
}.

(** [sorted(entities, key=lambda x: x['start'])] and [list.sort] with the same
    key: a stable ascending sort. *)
Section StableSort.
Context {A : Type} (key : A → Z).

Fixpoint insert_asc (x : A) (l : list A) : list A :=
  match l with
  | [] => [x]
  | y :: l' => if key x <=? key y then x :: l else y :: insert_asc x l'
  end.

Definition sort_asc (l : list A) : list A := foldr insert_asc [] l.

(** The same with [reverse=True]: descending keys, equal keys in their
    original order. *)
Fixpoint insert_desc (x : A) (l : list A) : list A :=
  match l with
  | [] => [x]
  | y :: l' => if key y <=? key x then x :: l else y :: insert_desc x l'
  end.

Definition sort_desc (l : list A) : list A := foldr insert_desc [] l.

End StableSort.

(** ** extraction/chunker.py *)

Module chunker.
Section Chunker.
Context `{CharDb}.

(** [[m.span() for m in re.finditer(r"\S+", text)]]: the scanner is at index
    [pos]; [open] is the start of the run of non-whitespace it is in. *)
Fixpoint finditer_nonspace (pos : nat) (open : option nat) (s : str)
  : list (nat * nat) :=
  match s with
  | [] =>
      match open with
      | Some b => [(b, pos)]
      | None => []
      end
  | c :: s' =>
      if isspace c then
        match open with
        | Some b => (b, pos) :: finditer_nonspace (S pos) None s'
        | None => finditer_nonspace (S pos) None s'
        end
      else
        finditer_nonspace (S pos) (Some (default pos open)) s'
  end.

Definition word_spans (text : str) : list (nat * nat) :=
  finditer_nonspace 0 None text.

(** [range(0, stop, step)] for a positive [step]. *)
Definition range_step (stop step : nat) : list nat :=
  map (λ k, k * step)%nat (seq 0 ((stop + step - 1) / step)%nat).

(** The body of the loop over [range(0, len(word_spans), chunk_size)]. *)
Definition chunk_at (text : str) (spans : list (nat * nat)) (size i : nat)
  : option (str * Z) :=
  let chunk_spans := take size (drop i spans) in
  match head chunk_spans, last chunk_spans with
  | Some first, Some final =>
      let start_char := Z.of_nat first.1 in
      let end_char := Z.of_nat final.2 in
      Some (slice text start_char end_char, start_char)
  | _, _ => None
  end.

(** The loop leaves at the first empty group. *)
Fixpoint collect_chunks (text : str) (spans : list (nat * nat)) (size : nat)
  (indices : list nat) : list (str * Z) :=
  match indices with
  | [] => []
  | i :: rest =>
      match chunk_at text spans size i with
      | Some c => c :: collect_chunks text spans size rest
      | None => []
      end
  end.

Definition chunk_text (text : str) (chunk_size : Z) : list (str * Z) :=
  if bool_decide (text = []) || bool_decide (strip text = []) then []
  else
    let chunk_size := if chunk_size <=? 0 then 600 else chunk_size in
    let spans := word_spans text in
    if bool_decide (spans = []) then []
    else
      collect_chunks text spans (Z.to_nat chunk_size)
        (range_step (length spans) (Z.to_nat chunk_size)).

(** [validate_chunks] *)
Definition chunk_matches (original_text : str) (c : str * Z) : bool :=
  let '(chunk_str, offset) := c in
  if (offset <? 0) || (len original_text <=? offset) then false
  else
    let expected_end := offset + len chunk_str in
    if len original_text <? expected_end then false
    else bool_decide (slice original_text offset expected_end = chunk_str).

Definition validate_chunks (chunks : list (str * Z)) (original_text : str)
  : bool :=
  if bool_decide (chunks = []) || bool_decide (original_text = []) then false
  else forallb (chunk_matches original_text) chunks.

(** [re.findall(r"\S+", text)] *)
Definition findall_nonspace (text : str) : list str :=
  map (λ m : nat * nat, slice text (Z.of_nat m.1) (Z.of_nat m.2))
      (word_spans text).

(** [estimate_chunk_count] *)
Definition estimate_chunk_count (text : str) (chunk_size : Z) : Z :=
  if bool_decide (text = []) || (chunk_size <=? 0) then 0
  else
    let total_words := Z.of_nat (length (findall_nonspace text)) in
    (total_words + chunk_size - 1) / chunk_size.

(** The dictionary [get_chunk_info] returns. *)
Record chunk_info := {
  total_chunks : Z;
  total_characters : Z;
  average_chunk_size : float;
  min_chunk_size : Z;
  max_chunk_size : Z;
  total_words : Z;
  average_words_per_chunk : float
}.

Definition get_chunk_info (chunks : list (str * Z)) : chunk_info :=
  if bool_decide (chunks = []) then
    {| total_chunks := 0; total_characters := 0; average_chunk_size := 0;
       min_chunk_size := 0; max_chunk_size := 0; total_words := 0;
       average_words_per_chunk := 0 |}
  else
    let sizes := map (λ c : str * Z, len c.1) chunks in
    let words :=
      map (λ c : str * Z, Z.of_nat (length (findall_nonspace c.1))) chunks in
    {| total_chunks := Z.of_nat (length chunks);
       total_characters := py_sum sizes;
       average_chunk_size :=
         true_div (py_sum sizes) (Z.of_nat (length chunks));
       min_chunk_size := py_min sizes;
       max_chunk_size := py_max sizes;
       total_words := py_sum words;
       average_words_per_chunk :=
         true_div (py_sum words) (Z.of_nat (length chunks)) |}.

End Chunker.
End chunker.

(** ** extraction/parallel_processor.py *)

Module parallel_processor.
Section Parallel.
Context `{CharDb}.

(** [extractor.predict(chunk_text, labels=categories)], the labeler: the
    spans it returns, or [None] when it raises. (The model call inside
    [EntityExtractor.predict] is a placeholder in the source, so the labeler
    is taken as given.) *)
Context (predict : str → option (list str) → option (list entity)).

(** [adjusted_ent = ent.copy(); adjusted_ent["start"] += offset;
    adjusted_ent["end"] += offset] *)
Definition adjust (offset : Z) (ent : entity) : entity :=
  {| label := label ent; text := text ent;
     start := start ent + offset; end_ := end_ ent + offset;
     score := score ent; count := count ent |}.

Definition extract_entities_for_chunk (chunk_text : str) (offset : Z)
  (categories : option (list str)) : list entity :=
  match predict chunk_text categories with
  | Some raw_entities => map (adjust offset) raw_entities
  | None => []
  end.

(** [concurrent.futures.as_completed(futures)]: the futures in the order
    [completion] in which the workers finish, given as indices into
    [futures] (in a run, a permutation of them). *)
Definition as_completed {A} (completion : list nat) (futures : list A)
  : list A :=
  omap (λ i, futures !! i) completion.

(** [extract_entities_in_parallel]. [ThreadPoolExecutor(max_workers=...)]
    raises [ValueError] for [max_workers <= 0]; that is inside the outer
    [try], whose handler returns the empty list. With one worker or more,
    their number only bears on [completion]. *)
Definition extract_entities_in_parallel (full_text : str) (chunk_size : Z)
  (max_workers : Z) (categories : option (list str)) (completion : list nat)
  : list entity :=
  if bool_decide (full_text = []) || bool_decide (strip full_text = [])
  then []
  else
    let chunks := chunker.chunk_text full_text chunk_size in
    if bool_decide (chunks = []) then []
    else if max_workers <=? 0 then []
    else
      let futures :=
        map (λ c : str * Z, extract_entities_for_chunk c.1 c.2 categories)
            chunks in
      let all_entities := concat (as_completed completion futures) in
      sort_asc start all_entities.

End Parallel.
End parallel_processor.

(** The class [ParallelEntityProcessor] of the same file. *)

Module ParallelEntityProcessor.
Section Processor.
Context `{CharDb}.
Context (predict : str → option (list str) → option (list entity)).

(** [text.split()]: the maximal runs of characters that are not whitespace. *)
Definition split (text : str) : list str := chunker.findall_nonspace text.

(** [process_text]; [use_parallel] is [None] for the automatic choice. *)
Definition process_text (text : str) (labels : option (list str))
  (chunk_size : Z) (max_workers : Z) (use_parallel : option bool)
  (completion : list nat) : list entity :=
  if bool_decide (text = []) || bool_decide (strip text = []) then []
  else
    let use_parallel :=
      match use_parallel with
      | None =>
          let word_count := Z.of_nat (length (split text)) in
          chunk_size <? word_count
      | Some choice => choice
      end in
    if use_parallel then
      parallel_processor.extract_entities_in_parallel predict text chunk_size
        max_workers labels completion
    else default [] (predict text labels).

End Processor.
End ParallelEntityProcessor.

(** ** utils/entity_validator.py: overlap detection and resolution *)

Module EntityValidator.

Definition _entities_overlap (entity1 entity2 : entity) : bool :=
  negb ((end_ entity1 <=? start entity2) || (end_ entity2 <=? start entity1)).

(** The inner loop of [_detect_overlaps]:
    [for j, entity2 in enumerate(entities[i+1:], i+1)]. *)
Fixpoint overlaps_of (entity1 : entity) (i j : nat) (rest : list entity)
  : list (nat * nat) :=
  match rest with
  | [] => []
  | entity2 :: rest' =>
      if _entities_overlap entity1 entity2
      then (i, j) :: overlaps_of entity1 i (S j) rest'
      else overlaps_of entity1 i (S j) rest'
  end.

(** The outer loop, [for i, entity1 in enumerate(entities)], from index [i]. *)
Fixpoint detect_from (i : nat) (entities : list entity) : list (nat * nat) :=
  match entities with
  | [] => []
  | entity1 :: rest =>
      overlaps_of entity1 i (S i) rest ++ detect_from (S i) rest
  end.

Definition _detect_overlaps (entities : list entity) : list (nat * nat) :=
  detect_from 0 entities.

(** The index a pair contributes to [to_remove] under [strategy]. *)
Definition index_to_remove (strategy : str) (idx1 idx2 : nat)
  (entity1 entity2 : entity) : nat :=
  if decide (strategy = py "highest_confidence") then
    let score1 := score entity1 in
    let score2 := score entity2 in
    if (score1 <? score2)%float then idx1 else idx2
  else if decide (strategy = py "longest") then
    let len1 := end_ entity1 - start entity1 in
    let len2 := end_ entity2 - start entity2 in
    if len1 <? len2 then idx1 else idx2
  else idx2.

(** One iteration of [for idx1, idx2 in overlaps]; [None] is the
    [IndexError] of [entities[idx]] on an index out of range. *)
Definition resolve_pair (strategy : str) (entities : list entity)
  (to_remove : gset nat) (p : nat * nat) : option (gset nat) :=
  let '(idx1, idx2) := p in
  if bool_decide (idx1 ∈ to_remove) || bool_decide (idx2 ∈ to_remove)
  then Some to_remove
  else
    match entities !! idx1, entities !! idx2 with
    | Some entity1, Some entity2 =>
        Some ({[ index_to_remove strategy idx1 idx2 entity1 entity2 ]}
                ∪ to_remove)
    | _, _ => None
    end.

Fixpoint resolve_pairs (strategy : str) (entities : list entity)
  (to_remove : gset nat) (overlaps : list (nat * nat)) : option (gset nat) :=
  match overlaps with
  | [] => Some to_remove
  | p :: rest =>
      match resolve_pair strategy entities to_remove p with
      | Some to_remove' => resolve_pairs strategy entities to_remove' rest
      | None => None
      end
  end.

(** [[entity for i, entity in enumerate(entities) if i not in to_remove]] *)
Fixpoint keep_from (i : nat) (to_remove : gset nat) (entities : list entity)
  : list entity :=
  match entities with
  | [] => []
  | entity :: rest =>
      if bool_decide (i ∈ to_remove) then keep_from (S i) to_remove rest
      else entity :: keep_from (S i) to_remove rest
  end.

Definition resolve_overlaps (entities : list entity) (strategy : str)
  : list entity :=
  if bool_decide (entities = []) then []
  else
    let overlaps := _detect_overlaps entities in
    if bool_decide (overlaps = []) then entities
    else
      match resolve_pairs strategy entities ∅ overlaps with
      | Some to_remove => keep_from 0 to_remove entities
      | None => entities
      end.

(** [self.validation_stats] *)
Record validation_stats := {
  total_entities : Z;
  confidence_filtered : Z;
  position_invalid : Z;
  text_mismatch : Z;
  valid_entities : Z;
  validation_errors : Z
}.

(** The state of an [EntityValidator] instance. *)
Record validator := {
  min_confidence : float;
  strict_validation : bool;
  stats : validation_stats
}.

(** [EntityValidator(min_confidence, strict_validation)] *)
Definition new (min_confidence_ : float) (strict : bool) : validator :=
  {| min_confidence := min_confidence_; strict_validation := strict;
     stats := {| total_entities := 0; confidence_filtered := 0;
                 position_invalid := 0; text_mismatch := 0;
                 valid_entities := 0; validation_errors := 0 |} |}.

(** A dictionary [_clean_entity] returns: the entity with the two keys
    ['validated'] and ['validator_version'] added. *)
Record validated_entity := {
  fields : entity;
  validated : bool;
  validator_version : str
}.

Definition _validate_confidence (e : entity) (min_confidence_ : float)
  : bool :=
  (min_confidence_ <=? score e)%float.

Definition _validate_position (e : entity) (text_ : str) : bool :=
  let text_length := len text_ in
  if (start e <? 0) || (end_ e <? 0) then false
  else if (text_length <=? start e) || (text_length <? end_ e) then false
  else if end_ e <=? start e then false
  else
    let entity_length := end_ e - start e in
    if 200 <? entity_length then false else true.

Section Validation.
Context `{CharDb}.

(** [re.sub(r'\s+', ' ', s)]; [in_run] tells that the character before was
    whitespace. *)
Fixpoint sub_spaces (in_run : bool) (s : str) : str :=
  match s with
  | [] => []
  | c :: s' =>
      if isspace c then
        if in_run then sub_spaces true s' else " "%char :: sub_spaces true s'
      else c :: sub_spaces false s'
  end.

Definition _validate_text_consistency (e : entity) (text_ : str) : bool :=
  let actual_text := slice text_ (start e) (end_ e) in
  let normalized_entity := sub_spaces false (strip (text e)) in
  let normalized_actual := sub_spaces false (strip actual_text) in
  if bool_decide (normalized_entity = normalized_actual) then true
  else if bool_decide (lower normalized_entity = lower normalized_actual)
  then true
  else contains normalized_actual normalized_entity
       || contains normalized_entity normalized_actual.

Definition _clean_entity (strict : bool) (e : entity) (text_ : str)
  : validated_entity :=
  {| fields :=
       {| label := strip (lower (label e));
          text := if strict then strip (slice text_ (start e) (end_ e))
                  else text e;
          start := start e; end_ := end_ e; score := score e;
          count := count e |};
     validated := true;
     validator_version := py "1.0.0" |}.

(** One iteration of the loop of [validate_entities]; the state is the list
    [validated] and the counters. *)
Definition validate_step (strict : bool) (confidence_threshold : float)
  (text_ : str) (state : list validated_entity * validation_stats)
  (e : entity) : list validated_entity * validation_stats :=
  let '(validated_, s) := state in
  if negb (_validate_confidence e confidence_threshold) then
    (validated_,
     {| total_entities := total_entities s;
        confidence_filtered := confidence_filtered s + 1;
        position_invalid := position_invalid s;
        text_mismatch := text_mismatch s;
        valid_entities := valid_entities s;
        validation_errors := validation_errors s |})
  else if strict && negb (_validate_position e text_) then
    (validated_,
     {| total_entities := total_entities s;
        confidence_filtered := confidence_filtered s;
        position_invalid := position_invalid s + 1;
        text_mismatch := text_mismatch s;
        valid_entities := valid_entities s;
        validation_errors := validation_errors s |})
  else if strict && negb (_validate_text_consistency e text_) then
    (validated_,
     {| total_entities := total_entities s;
        confidence_filtered := confidence_filtered s;
        position_invalid := position_invalid s;
        text_mismatch := text_mismatch s + 1;
        valid_entities := valid_entities s;
        validation_errors := validation_errors s |})
  else (validated_ ++ [_clean_entity strict e text_], s).

(** [validate_entities]: the validated list and the instance after the
    call. Nothing in the loop body raises on an entity with typed fields,
    so [validation_errors] is only reset. *)
Definition validate_entities (v : validator) (entities : list entity)
  (text_ : str) (min_confidence_ : option float)
  : list validated_entity * validator :=
  if bool_decide (entities = []) then ([], v)
  else
    let confidence_threshold := default (min_confidence v) min_confidence_ in
    let '(validated_, s) :=
      foldl (validate_step (strict_validation v) confidence_threshold text_)
        ([], {| total_entities := Z.of_nat (length entities);
                confidence_filtered := 0; position_invalid := 0;
                text_mismatch := 0;
                valid_entities := valid_entities (stats v);
                validation_errors := 0 |})
        entities in
    (validated_,
     {| min_confidence := min_confidence v;
        strict_validation := strict_validation v;
        stats := {| total_entities := total_entities s;
                    confidence_filtered := confidence_filtered s;
                    position_invalid := position_invalid s;
                    text_mismatch := text_mismatch s;
                    valid_entities := Z.of_nat (length validated_);
                    validation_errors := validation_errors s |} |}).

End Validation.

End EntityValidator.

(** ** utils/merger.py *)

Module EntityMerger.
Section Merger.
Context `{CharDb}.

(** The conversion of an [int] operand in [float * int] and [float / int]. *)
Definition float_of_int (z : Z) : float := of_uint63 (Uint63.of_Z z).

Definition set_count (e : entity) (c : option Z) : entity :=
  {| label := label e; text := text e; start := start e; end_ := end_ e;
     score := score e; count := c |}.

(** [current["count"]]: the key is always present on the running candidate. *)
Definition count_of (e : entity) : Z := default 0 (count e).

(** The state of the loop is [(merged, current)]. *)
Definition merge_step (max_gap : Z) (text_ : str)
  (state : list entity * entity) (next_entity : entity)
  : list entity * entity :=
  let '(merged, current) := state in
  if bool_decide (label next_entity = label current) &&
     ((start next_entity =? end_ current) ||
      (start next_entity <=? end_ current + max_gap))
  then
    let merged_text := strip (slice text_ (start current) (end_ next_entity)) in
    (merged,
     {| label := label current;
        text := merged_text;
        start := start current;
        end_ := end_ next_entity;
        score := ((score current * float_of_int (count_of current)
                   + score next_entity)
                  / float_of_int (count_of current + 1))%float;
        count := Some (count_of current + 1) |})
  else
    (merged ++ [set_count current None], set_count next_entity (Some 1)).

Definition merge (max_gap : Z) (entities : list entity) (text_ : str)
  : list entity :=
  match sort_asc start entities with
  | [] => []
  | first :: rest =>
      let '(merged, current) :=
        foldl (merge_step max_gap text_) ([], set_count first (Some 1)) rest in
      merged ++ [set_count current None]
  end.

(** [can_merge] *)
Definition can_merge (max_gap : Z) (entity1 entity2 : entity) : bool :=
  bool_decide (label entity1 = label entity2) &&
  ((start entity2 =? end_ entity1) ||
   (start entity2 <=? end_ entity1 + max_gap)).

(** [self.merge_stats] *)
Record merge_stats := {
  total_processed : Z;
  total_merged : Z;
  merges_by_label : gmap str Z
}.

(** The value [__init__] and [reset_statistics] give to [self.merge_stats]. *)
Definition reset_statistics : merge_stats :=
  {| total_processed := 0; total_merged := 0; merges_by_label := ∅ |}.

(** The loop of [merge] over [self.merge_stats['merges_by_label']]. *)
Definition track_label (by_label : gmap str Z) (e : entity) : gmap str Z :=
  match by_label !! label e with
  | Some _ => by_label
  | None => <[label e := 0]> by_label
  end.

(** What a call of [merge] leaves in [self.merge_stats]. *)
Definition merge_stats_after (max_gap : Z) (s : merge_stats)
  (entities : list entity) (text_ : str) : merge_stats :=
  if bool_decide (entities = []) then s
  else
    let original_count := Z.of_nat (length entities) in
    let merged := merge max_gap entities text_ in
    let merges_applied := original_count - Z.of_nat (length merged) in
    {| total_processed := total_processed s + original_count;
       total_merged := total_merged s + merges_applied;
       merges_by_label :=
         foldl track_label (merges_by_label s) (sort_asc start entities) |}.

(** [by_label[label] = by_label.get(label, 0) + 1] over a list. *)
Definition count_by_label (entities : list entity) : gmap str Z :=
  foldl (λ by_label e,
           <[label e := default 0 (by_label !! label e) + 1]> by_label)
        ∅ entities.

(** The dictionary [get_merge_statistics] returns. *)
Record merge_statistics := {
  original_count : Z;
  merged_count : Z;
  entities_merged : Z;
  reduction_percentage : float;
  original_by_label : gmap str Z;
  merged_by_label : gmap str Z;
  global_stats : merge_stats
}.

Definition get_merge_statistics (s : merge_stats)
  (original_entities merged_entities : list entity) : merge_statistics :=
  let merge_reduction :=
    Z.of_nat (length original_entities) - Z.of_nat (length merged_entities) in
  {| original_count := Z.of_nat (length original_entities);
     merged_count := Z.of_nat (length merged_entities);
     entities_merged := merge_reduction;
     reduction_percentage :=
       if bool_decide (original_entities = []) then 0%float
       else (true_div merge_reduction
               (Z.of_nat (length original_entities)) * 100)%float;
     original_by_label := count_by_label original_entities;
     merged_by_label := count_by_label merged_entities;
     global_stats := s |}.

End Merger.
End EntityMerger.

(** ** anonymization/redactor.py *)

Module EntityRedactor.

Record RedactionDetail := {
  rd_label : str;
  original : str;
  placeholder : str;
  rd_start : Z;
  rd_end : Z;
  rd_score : float;
  redaction_id : str
}.

Record redaction_info := {
  entities_processed : nat;
  redactions_applied : nat;
  numbered_redaction : bool;
  consistent_ids_used : bool;
  unique_entities : nat
}.

Record redaction_result := {
  anonymized_text : str;
  replacements : list RedactionDetail;
  info : redaction_info;
  re_identification_map : gmap str str
}.

(** The state of an [EntityRedactor] instance. *)
Record redactor := {
  entity_id_map : gmap (str * str) str;
  used_ids_per_label : gmap str (gset str)
}.

(** [EntityRedactor()] *)
Definition new : redactor :=
  {| entity_id_map := ∅; used_ids_per_label := ∅ |}.

(** [format_str.format(id=redaction_id, label=label, count=redaction_id)] as
    a function of [redaction_id] and [label]; [None] when the template
    raises. *)
Definition template := str → str → option str.

(** The default template, ["#{id}_{label}_REDACTED"]. *)
Definition default_format : template :=
  λ id lbl, Some (py "#" ++ id ++ py "_" ++ lbl ++ py "_REDACTED").

(** The loop [while str(candidate_id) in used_ids: candidate_id += 1]; it
    leaves within [size used_ids + 1] iterations, which is the fuel
    [_generate_unique_id] gives it. *)
Fixpoint next_candidate (used_ids : gset str) (fuel candidate_id : nat) : nat :=
  match fuel with
  | O => candidate_id
  | S fuel' =>
      if bool_decide (str_of_nat candidate_id ∈ used_ids)
      then next_candidate used_ids fuel' (S candidate_id)
      else candidate_id
  end.

Definition _generate_unique_id (lbl : str) (r : redactor) : str * redactor :=
  let used_ids := default ∅ (used_ids_per_label r !! lbl) in
  let candidate_id := next_candidate used_ids (S (size used_ids)) 1 in
  (str_of_nat candidate_id,
   {| entity_id_map := entity_id_map r;
      used_ids_per_label :=
        <[lbl := {[str_of_nat candidate_id]} ∪ used_ids]>
          (used_ids_per_label r) |}).

Section Redactor.
Context `{CharDb}.

Definition build_step (state : gmap (str * str) str * redactor) (e : entity)
  : gmap (str * str) str * redactor :=
  let '(entity_to_id, r) := state in
  let entity_key := (label e, text e) in
  match entity_to_id !! entity_key with
  | Some _ => (entity_to_id, r)
  | None =>
      let '(unique_id, r') := _generate_unique_id (upper (label e)) r in
      (<[entity_key := unique_id]> entity_to_id, r')
  end.

Definition _build_entity_id_map (entities : list entity) (r : redactor)
  : gmap (str * str) str * redactor :=
  foldl build_step (∅, r) entities.

(** The state of the redaction loop. *)
Record redact_state := {
  redacted_text : str;
  redaction_details : list RedactionDetail;
  reid_map : gmap str str;
  self : redactor
}.

(** The tail of the loop body, from [# Apply redaction]. *)
Definition apply_redaction (st : redact_state) (r : redactor) (e : entity)
  (lbl redaction_id_ placeholder_ : str) : redact_state :=
  {| redacted_text :=
       slice_to (redacted_text st) (start e) ++ placeholder_
       ++ slice_from (redacted_text st) (end_ e);
     redaction_details :=
       redaction_details st ++
       [{| rd_label := lbl; original := text e; placeholder := placeholder_;
           rd_start := start e; rd_end := end_ e; rd_score := score e;
           redaction_id := redaction_id_ |}];
     reid_map := <[placeholder_ := text e]> (reid_map st);
     self := r |}.

(** An iteration that raised: [except Exception: continue]. *)
Definition skip_entity (st : redact_state) (r : redactor) : redact_state :=
  {| redacted_text := redacted_text st;
     redaction_details := redaction_details st;
     reid_map := reid_map st;
     self := r |}.

Definition redact_step (numbered : bool) (format_str : template)
  (consistent_ids : bool) (entity_to_id : gmap (str * str) str)
  (st : redact_state) (e : entity) : redact_state :=
  let lbl := upper (label e) in
  if numbered then
    if consistent_ids then
      match entity_to_id !! (label e, text e) with
      | Some redaction_id_ =>
          match format_str redaction_id_ lbl with
          | Some placeholder_ =>
              apply_redaction st (self st) e lbl redaction_id_ placeholder_
          | None => skip_entity st (self st)
          end
      | None => skip_entity st (self st)
      end
    else
      let '(redaction_id_, r) := _generate_unique_id lbl (self st) in
      match format_str redaction_id_ lbl with
      | Some placeholder_ => apply_redaction st r e lbl redaction_id_ placeholder_
      | None => skip_entity st r
      end
  else
    apply_redaction st (self st) e lbl (lbl ++ py "_STATIC")
      (lbl ++ py "_REDACTED").

Definition redact (r : redactor) (text_ : str) (entities : list entity)
  (numbered : bool) (format_str : template) (consistent_ids : bool)
  : redaction_result * redactor :=
  if bool_decide (entities = []) then
    ({| anonymized_text := text_; replacements := [];
        info := {| entities_processed := 0; redactions_applied := 0;
                   numbered_redaction := numbered;
                   consistent_ids_used := consistent_ids;
                   unique_entities := 0 |};
        re_identification_map := ∅ |}, r)
  else
    let sorted_entities := sort_desc start entities in
    let '(entity_to_id, r1) :=
      if numbered && consistent_ids then _build_entity_id_map entities r
      else (∅, r) in
    let st :=
      foldl (redact_step numbered format_str consistent_ids entity_to_id)
        {| redacted_text := text_; redaction_details := [];
           reid_map := ∅; self := r1 |}
        sorted_entities in
    let details := sort_asc rd_start (redaction_details st) in
    ({| anonymized_text := redacted_text st;
        replacements := details;
        info :=
          {| entities_processed := length entities;
             redactions_applied := length details;
             numbered_redaction := numbered;
             consistent_ids_used := consistent_ids;
             unique_entities :=
               size (list_to_set (C := gset (str * str))
                       (map (λ d, (rd_label d, original d)) details)) |};
        re_identification_map := reid_map st |},
     self st).

(** [batch_redact]. The set [all_entity_keys] is enumerated in the order of
    [elements]. [None] is the [ValueError] on lists of different lengths. *)
Definition all_entity_keys (all_entities : list (list entity))
  : gset (str * str) :=
  list_to_set (map (λ e, (label e, text e)) (concat all_entities)).

Definition pregenerate_step (state : gmap (str * str) str * redactor)
  (key : str * str) : gmap (str * str) str * redactor :=
  let '(global_entity_map, r) := state in
  let '(unique_id, r') := _generate_unique_id (upper key.1) r in
  (<[key := unique_id]> global_entity_map, r').

Definition batch_step (numbered : bool) (format_str : template)
  (consistent_ids : bool) (global_entity_map : gmap (str * str) str)
  (state : list redaction_result * redactor) (item : str * list entity)
  : list redaction_result * redactor :=
  let '(results, r) := state in
  let old_map := entity_id_map r in
  let overridden :=
    {| entity_id_map := global_entity_map;
       used_ids_per_label := used_ids_per_label r |} in
  let '(result, r') :=
    redact overridden item.1 item.2 numbered format_str consistent_ids in
  (results ++ [result],
   {| entity_id_map := old_map;
      used_ids_per_label := used_ids_per_label r' |}).

Definition batch_redact (r : redactor) (texts : list str)
  (all_entities : list (list entity)) (numbered : bool)
  (format_str : template) (consistent_ids : bool)
  : option (list redaction_result * redactor) :=
  if bool_decide (length texts = length all_entities) then
    let '(global_entity_map, r1) :=
      foldl pregenerate_step (∅, r) (elements (all_entity_keys all_entities)) in
    Some (foldl (batch_step numbered format_str consistent_ids global_entity_map)
            ([], r1) (zip texts all_entities))
  else None.

(** [clear_history] *)
Definition clear_history (r : redactor) : redactor :=
  {| entity_id_map := ∅; used_ids_per_label := ∅ |}.

(** The dictionary [get_redaction_stats] returns, without the constant
    [default_format] of the instance. *)
Record label_stats := {
  ls_unique_entities : Z;
  max_id_used : Z
}.

Record redaction_stats := {
  total_unique_entities : Z;
  labels_processed : Z;
  label_statistics : gmap str label_stats
}.

(** [max(map(int, used_ids)) if used_ids else 0] *)
Definition max_id (used_ids : gset str) : option Z :=
  if bool_decide (used_ids = ∅) then Some 0
  else py_max <$> mapM int (elements used_ids).

Definition get_redaction_stats (r : redactor) : option redaction_stats :=
  entries ← mapM (λ item : str * gset str,
                    m ← max_id item.2;
                    Some (item.1, {| ls_unique_entities := Z.of_nat (size item.2);
                                     max_id_used := m |}))
                 (map_to_list (used_ids_per_label r));
  Some {| total_unique_entities := Z.of_nat (size (entity_id_map r));
          labels_processed := Z.of_nat (size (used_ids_per_label r));
          label_statistics := list_to_map entries |}.

End Redactor.
End EntityRedactor.

(** ** The [random] module

    [next_random] draws the next raw value from the generator state [W];
    [randbelow n] is a value of [range(n)]. *)

Section Random.
Context {W : Type} (next_random : W → N * W).

Definition randbelow (n : N) (w : W) : N * W :=
  let '(x, w') := next_random w in ((x mod n)%N, w').

(** [random.randint(a, b)] *)
Definition randint (a b : N) (w : W) : N * W :=
  let '(x, w') := randbelow (b - a + 1)%N w in ((a + x)%N, w').

(** [random.choice(seq)] on a non-empty [seq] ([d] is never returned). *)
Definition choice {A} (d : A) (seq : list A) (w : W) : A * W :=
  let '(i, w') := randbelow (N.of_nat (length seq)) w in
  (nth (N.to_nat i) seq d, w').

(** [random.choices(population, k=k)] *)
Fixpoint choices {A} (d : A) (population : list A) (k : nat) (w : W)
  : list A * W :=
  match k with
  | O => ([], w)
  | S k' =>
      let '(x, w1) := choice d population w in
      let '(xs, w2) := choices d population k' w1 in
      (x :: xs, w2)
  end.

(** A loop that rewrites a string character by character. *)
Fixpoint map_random (f : ascii → W → ascii * W) (s : str) (w : W) : str * W :=
  match s with
  | [] => ([], w)
  | c :: s' =>
      let '(c', w1) := f c w in
      let '(r, w2) := map_random f s' w1 in
      (c' :: r, w2)
  end.

End Random.

(** ** anonymization/strategies/default_strategy.py *)

Module DefaultReplacementStrategy.

(** [string.digits], [string.ascii_uppercase], [string.ascii_lowercase] *)
Definition digits : str := py "0123456789".
Definition ascii_uppercase : str := py "ABCDEFGHIJKLMNOPQRSTUVWXYZ".
Definition ascii_lowercase : str := py "abcdefghijklmnopqrstuvwxyz".

(** The keys of [self.replacement_patterns]. *)
Definition pattern_labels : list str :=
  [py "email"; py "phone"; py "ssn"; py "id"; py "number"; py "code";
   py "username"].

Section Default.
Context `{CharDb} {W : Type} (next_random : W → N * W).

Let pick := choice next_random "0"%char.

(** The loop body of the all-letters branch. *)
Definition replace_letter (c : ascii) (w : W) : ascii * W :=
  if isupper c then pick ascii_uppercase w
  else if islower c then pick ascii_lowercase w
  else (c, w).

(** The loop body of the mixed branch. *)
Definition replace_alnum (c : ascii) (w : W) : ascii * W :=
  if isdigit c then pick digits w
  else if isalpha c then
    if isupper c then pick ascii_uppercase w
    else pick ascii_lowercase w
  else (c, w).

(** [f"[{label.upper()}_REDACTED]"] *)
Definition redacted_placeholder (lbl : str) : str :=
  py "[" ++ upper lbl ++ py "_REDACTED]".

Definition _generate_generic_replacement (original_text lbl : str) (w : W)
  : str * W :=
  let text_len := length original_text in
  if str_isdigit original_text then
    choices next_random "0"%char digits text_len w
  else if str_isalpha original_text then
    map_random replace_letter original_text w
  else if existsb isalnum original_text then
    map_random replace_alnum original_text w
  else (redacted_placeholder lbl, w).

Definition _generate_email (w : W) : str * W :=
  let domains := [py "example.com"; py "test.org"; py "sample.net";
                  py "demo.co"] in
  let '(k, w1) := randint next_random 5 10 w in
  let '(username, w2) := choices next_random "0"%char ascii_lowercase (N.to_nat k) w1 in
  let '(domain, w3) := choice next_random [] domains w2 in
  (username ++ py "@" ++ domain, w3).

Definition _generate_phone (w : W) : str * W :=
  let '(area_code, w1) := randint next_random 200 999 w in
  let '(exchange, w2) := randint next_random 200 999 w1 in
  let '(number, w3) := randint next_random 1000 9999 w2 in
  (py "(" ++ str_of_N area_code ++ py ") " ++ str_of_N exchange
   ++ py "-" ++ str_of_N number, w3).

Definition _generate_ssn (w : W) : str * W :=
  let '(a, w1) := randint next_random 100 999 w in
  let '(b, w2) := randint next_random 10 99 w1 in
  let '(c, w3) := randint next_random 1000 9999 w2 in
  (str_of_N a ++ py "-" ++ str_of_N b ++ py "-" ++ str_of_N c, w3).

Definition _generate_id (w : W) : str * W :=
  let '(letters, w1) := choices next_random "0"%char ascii_uppercase 2 w in
  let '(numbers, w2) := choices next_random "0"%char digits 6 w1 in
  (letters ++ numbers, w2).

Definition _generate_number (w : W) : str * W :=
  let '(n, w1) := randint next_random 100000 999999 w in
  (str_of_N n, w1).

Definition _generate_code (w : W) : str * W :=
  choices next_random "0"%char (ascii_uppercase ++ digits) 8 w.

Definition _generate_username (w : W) : str * W :=
  let prefixes := [py "user"; py "demo"; py "test"; py "sample"] in
  let '(prefix, w1) := choice next_random [] prefixes w in
  let '(suffix, w2) := randint next_random 100 9999 w1 in
  (prefix ++ str_of_N suffix, w2).

(** [self.replacement_patterns.get(label)] *)
Definition replacement_patterns (lbl : str) : option (W → str * W) :=
  if decide (lbl = py "email") then Some _generate_email
  else if decide (lbl = py "phone") then Some _generate_phone
  else if decide (lbl = py "ssn") then Some _generate_ssn
  else if decide (lbl = py "id") then Some _generate_id
  else if decide (lbl = py "number") then Some _generate_number
  else if decide (lbl = py "code") then Some _generate_code
  else if decide (lbl = py "username") then Some _generate_username
  else None.

(** [get_replacement]. Nothing in the body of its [try] raises on an entity
    with string fields, so the [except] branch is not represented. *)
Definition get_replacement (e : entity) (w : W) : str * W :=
  let lbl := lower (label e) in
  let original_text := text e in
  match replacement_patterns lbl with
  | Some generate => generate w
  | None => _generate_generic_replacement original_text lbl w
  end.

End Default.
End DefaultReplacementStrategy.

(** ** anonymization/strategies/country_strategy.py *)

Module CountryReplacementStrategy.

Definition _get_default_countries : list str :=
  map py
    [ "United States"; "Canada"; "United Kingdom"; "Germany"; "France";
      "Italy"; "Spain"; "Netherlands"; "Belgium"; "Switzerland";
      "Austria"; "Sweden"; "Norway"; "Denmark"; "Finland";
      "Australia"; "New Zealand"; "Japan"; "South Korea"; "Singapore";
      "Brazil"; "Argentina"; "Mexico"; "Chile"; "Colombia";
      "India"; "China"; "Thailand"; "Vietnam"; "Philippines";
      "South Africa"; "Egypt"; "Morocco"; "Kenya"; "Ghana";
      "Russia"; "Poland"; "Czech Republic"; "Hungary"; "Romania" ]%string.

(** [self.supported_labels] *)
Definition supported_labels : list str :=
  map py [ "country"; "location"; "nationality"; "place" ]%string.

Definition country_indicators : list str :=
  map py
    [ "united states"; "usa"; "uk"; "united kingdom";
      "china"; "india"; "brazil"; "russia"; "japan" ]%string.

Definition nationality_mapping : gmap str str :=
  list_to_map
    [ (py "United States", py "American");
      (py "United Kingdom", py "British");
      (py "Germany", py "German");
      (py "France", py "French");
      (py "Italy", py "Italian");
      (py "Spain", py "Spanish");
      (py "Canada", py "Canadian");
      (py "Australia", py "Australian");
      (py "Japan", py "Japanese");
      (py "China", py "Chinese");
      (py "India", py "Indian");
      (py "Brazil", py "Brazilian") ].

Section Country.
Context `{CharDb} {W : Type} (next_random : W → N * W).

(** [self.countries]: the list of the data file, or the default list. *)
Context (countries : list str).

Definition can_handle (lbl : str) : bool :=
  bool_decide (lower lbl ∈ supported_labels).

Definition _is_country_like (text_ : str) : bool :=
  let text_lower := lower text_ in
  existsb (λ country, bool_decide (lower country = text_lower)) countries
  || existsb (λ indicator, contains text_lower indicator) country_indicators.

Definition _country_to_nationality (country : str) : str :=
  default (country ++ py "n") (nationality_mapping !! country).

(** [get_replacement]; [random.choice] raises on an empty list, which the
    [except] turns into [None]. *)
Definition get_replacement (e : entity) (w : W) : option str * W :=
  let original_text := strip (text e) in
  let lbl := lower (label e) in
  if _is_country_like original_text then
    let available_countries :=
      filter (λ c, lower c ≠ lower original_text) countries in
    if bool_decide (available_countries = []) then (None, w)
    else
      let '(c, w') := choice next_random [] available_countries w in
      (Some c, w')
  else if decide (lbl = py "location") then
    if bool_decide (countries = []) then (None, w)
    else
      let '(c, w') := choice next_random [] countries w in
      (Some c, w')
  else if decide (lbl = py "nationality") then
    if bool_decide (countries = []) then (None, w)
    else
      let '(country, w') := choice next_random [] countries w in
      (Some (_country_to_nationality country), w')
  else (None, w).

End Country.
End CountryReplacementStrategy.

(** ** anonymization/replacer.py *)

Module EntityReplacer.

Record ReplacementDetail := {
  rp_label : str;
  original : str;
  replacement : str;
  rp_start : Z;
  rp_end : Z;
  rp_score : float;
  strategy_used : str
}.

Record replacement_info := {
  entities_processed : nat;
  replacements_applied : nat;
  consistency_enabled : bool;
  unique_replacements : nat
}.

Record replacement_result := {
  anonymized_text : str;
  replacements : list ReplacementDetail;
  info : replacement_info;
  replacement_map : gmap str str
}.

(** What a call of a strategy's [get_replacement] does: it raises, or it
    returns a string or [None]. *)
Inductive outcome :=
  | Raised
  | Returned (value : option str).

(** The interface of a replacement strategy. *)
Record strategy (W : Type) := {
  can_handle : str → bool;
  get_replacement : entity → W → outcome * W
}.
Arguments can_handle {W}.
Arguments get_replacement {W}.

(** The strategy objects [_init_strategies] builds around external
    generators; [faker] is [None] when Faker is not installed. The fourth
    entry, ['default'], is [DefaultReplacementStrategy]. *)
Record strategies (W : Type) := {
  faker : option (strategy W);
  country : strategy W;
  date : strategy W
}.
Arguments faker {W}.
Arguments country {W}.
Arguments date {W}.

Section Replacer.
Context `{CharDb} {W : Type} (next_random : W → N * W).
Context (objects : strategies W).

Definition default_strategy : strategy W :=
  {| can_handle := λ _, true;
     get_replacement := λ e w,
       let '(s, w') :=
         DefaultReplacementStrategy.get_replacement next_random e w in
       (Returned (Some s), w') |}.

(** [self.strategies.get(strategy_name)] *)
Definition strategies_get (strategy_name : str) : option (strategy W) :=
  if decide (strategy_name = py "faker") then faker objects
  else if decide (strategy_name = py "country") then Some (country objects)
  else if decide (strategy_name = py "date") then Some (date objects)
  else if decide (strategy_name = py "default") then Some default_strategy
  else None.

(** [self.strategy_mapping] *)
Definition strategy_mapping : gmap str (list str) :=
  list_to_map
    [ (py "person", [py "faker"; py "default"]);
      (py "location", [py "country"; py "faker"; py "default"]);
      (py "date", [py "date"; py "faker"; py "default"]);
      (py "organization", [py "faker"; py "default"]);
      (py "company", [py "faker"; py "default"]);
      (py "email", [py "faker"; py "default"]);
      (py "phone", [py "faker"; py "default"]);
      (py "address", [py "faker"; py "default"]);
      (py "age", [py "faker"; py "default"]);
      (py "nationality", [py "country"; py "default"]);
      (py "country", [py "country"; py "default"]) ].

(** [self.strategy_mapping.get(label, ['faker', 'default'])] *)
Definition strategies_for (lbl : str) : list str :=
  default [py "faker"; py "default"] (strategy_mapping !! lbl).

(** The state of an [EntityReplacer] instance that the calls change: the
    consistency cache, from [(label, original_text)] to
    [(replacement, strategy_name)]. *)
Abbreviation cache := (gmap (str * str) (str * str)).

(** The loop [for strategy_name in strategies_to_try]: the first usable
    value and the name of the strategy that gave it. *)
Fixpoint try_strategies (e : entity) (lbl : str) (strategies_to_try : list str)
  (w : W) : option (str * str) * W :=
  match strategies_to_try with
  | [] => (None, w)
  | strategy_name :: rest =>
      match strategies_get strategy_name with
      | Some strat =>
          if can_handle strat lbl then
            match get_replacement strat e w with
            | (Returned (Some r), w') =>
                if negb (bool_decide (r = [])) && negb (bool_decide (r = text e))
                then (Some (r, strategy_name), w')
                else try_strategies e lbl rest w'
            | (_, w') => try_strategies e lbl rest w'
            end
          else try_strategies e lbl rest w
      | None => try_strategies e lbl rest w
      end
  end.

(** [_get_replacement]: the replacement and the strategy used, with the
    cache and the generator state after the call. The default strategy does
    not raise, so the last [except] branch is not represented. *)
Definition _get_replacement (e : entity) (consistency : bool)
  (custom_strategy : option str) (c : cache) (w : W)
  : (str * str) * cache * W :=
  let lbl := lower (label e) in
  let original_text := text e in
  let cache_key := (lbl, original_text) in
  match (if consistency then c !! cache_key else None) with
  | Some (cached_replacement, cached_strategy) =>
      ((cached_replacement, cached_strategy ++ py "_cached"), c, w)
  | None =>
      let strategies_to_try :=
        match custom_strategy with
        | Some name => if bool_decide (name = []) then strategies_for lbl
                       else [name]
        | None => strategies_for lbl
        end in
      match try_strategies e lbl strategies_to_try w with
      | (Some (r, strategy_name), w') =>
          ((r, strategy_name),
           if consistency then <[cache_key := (r, strategy_name)]> c else c,
           w')
      | (None, w') =>
          let '(r, w'') :=
            DefaultReplacementStrategy.get_replacement next_random e w' in
          ((r, py "default"),
           if consistency then <[cache_key := (r, py "default")]> c else c,
           w'')
      end
  end.

(** The state of the replacement loop. *)
Record replace_state := {
  replaced_text : str;
  replacement_details : list ReplacementDetail;
  map_so_far : gmap str str;
  replacement_cache : cache;
  world : W
}.

Definition replace_step (consistency : bool) (custom : gmap str str)
  (st : replace_state) (e : entity) : replace_state :=
  let lbl := lower (label e) in
  let original_text := text e in
  let '((r, used), c', w') :=
    _get_replacement e consistency (custom !! lbl)
      (replacement_cache st) (world st) in
  if negb (bool_decide (r = [])) && negb (bool_decide (r = original_text))
  then
    {| replaced_text :=
         slice_to (replaced_text st) (start e) ++ r
         ++ slice_from (replaced_text st) (end_ e);
       replacement_details :=
         replacement_details st ++
         [{| rp_label := lbl; original := original_text; replacement := r;
             rp_start := start e; rp_end := end_ e; rp_score := score e;
             strategy_used := used |}];
       map_so_far := <[original_text := r]> (map_so_far st);
       replacement_cache := c';
       world := w' |}
  else
    {| replaced_text := replaced_text st;
       replacement_details := replacement_details st;
       map_so_far := map_so_far st;
       replacement_cache := c';
       world := w' |}.

(** [replace]: the result, with the cache and the generator state after the
    call. *)
Definition replace (c : cache) (w : W) (text_ : str) (entities : list entity)
  (consistency : bool) (custom_strategies : gmap str str)
  : replacement_result * cache * W :=
  if bool_decide (entities = []) then
    ({| anonymized_text := text_; replacements := [];
        info := {| entities_processed := 0; replacements_applied := 0;
                   consistency_enabled := consistency;
                   unique_replacements := 0 |};
        replacement_map := ∅ |}, c, w)
  else
    let sorted_entities := sort_desc start entities in
    let st :=
      foldl (replace_step consistency custom_strategies)
        {| replaced_text := text_; replacement_details := [];
           map_so_far := ∅; replacement_cache := c; world := w |}
        sorted_entities in
    let details := sort_asc rp_start (replacement_details st) in
    ({| anonymized_text := replaced_text st;
        replacements := details;
        info :=
          {| entities_processed := length entities;
             replacements_applied := length details;
             consistency_enabled := consistency;
             unique_replacements :=
               size (list_to_set (C := gset str) (map replacement details)) |};
        replacement_map := map_so_far st |},
     replacement_cache st, world st).

(** The entry ['country'] of [self.strategies], around the list
    [countries] it loaded. *)
Definition country_strategy (countries : list str) : strategy W :=
  {| can_handle := CountryReplacementStrategy.can_handle;
     get_replacement := λ e w,
       let '(r, w') :=
         CountryReplacementStrategy.get_replacement next_random countries e w in
       (Returned r, w') |}.

(** A value of [user_replacements]: a string or a list of strings. *)
Inductive user_data :=
  | Single (value : str)
  | Several (values : list str).

Definition _select_user_replacement (data : user_data) (w : W) : str * W :=
  match data with
  | Single value => (value, w)
  | Several values =>
      if bool_decide (values = []) then ([], w)
      else choice next_random [] values w
  end.

(** The result of [replace_with_user_data]; the last two keys of
    ['replacement_info'] are absent when the call returns at once. *)
Record user_replacement_info := {
  user_entities_processed : nat;
  user_replacements_applied : nat;
  user_consistency_enabled : option bool;
  user_data_labels : option (list str)
}.

Record user_replacement_result := {
  user_anonymized_text : str;
  user_replacements_made : list ReplacementDetail;
  user_info : user_replacement_info;
  user_replacement_map : option (gmap str str)
}.

(** The state of the loop of [replace_with_user_data]; [consistency_cache]
    is the dictionary local to the call. *)
Record user_state := {
  user_replaced_text : str;
  user_details : list ReplacementDetail;
  user_map_so_far : gmap str str;
  consistency_cache : gmap (str * str) str;
  user_world : W
}.

(** [user_replacements] is a dict in insertion order: an association list
    with distinct keys. *)
Definition user_get (user_replacements : list (str * user_data)) (lbl : str)
  : option user_data :=
  (list_to_map user_replacements : gmap str user_data) !! lbl.

Definition user_step (consistency : bool)
  (user_replacements : list (str * user_data)) (st : user_state) (e : entity)
  : user_state :=
  let lbl := lower (label e) in
  let original_text := text e in
  match user_get user_replacements lbl with
  | None => st
  | Some data =>
      let '(r, cache', w') :=
        if consistency then
          let cache_key := (lbl, original_text) in
          match consistency_cache st !! cache_key with
          | Some r => (r, consistency_cache st, user_world st)
          | None =>
              let '(r, w') := _select_user_replacement data (user_world st) in
              (r, <[cache_key := r]> (consistency_cache st), w')
          end
        else
          let '(r, w') := _select_user_replacement data (user_world st) in
          (r, consistency_cache st, w') in
      if negb (bool_decide (r = [])) then
        {| user_replaced_text :=
             slice_to (user_replaced_text st) (start e) ++ r
             ++ slice_from (user_replaced_text st) (end_ e);
           user_details :=
             user_details st ++
             [{| rp_label := lbl; original := original_text; replacement := r;
                 rp_start := start e; rp_end := end_ e; rp_score := score e;
                 strategy_used := py "user_data" |}];
           user_map_so_far := <[original_text := r]> (user_map_so_far st);
           consistency_cache := cache';
           user_world := w' |}
      else
        {| user_replaced_text := user_replaced_text st;
           user_details := user_details st;
           user_map_so_far := user_map_so_far st;
           consistency_cache := cache';
           user_world := w' |}
  end.

(** [replace_with_user_data]: the result, with the generator state after
    the call. *)
Definition replace_with_user_data (w : W) (text_ : str)
  (entities : list entity) (user_replacements : list (str * user_data))
  (consistency : bool) : user_replacement_result * W :=
  if bool_decide (entities = []) || bool_decide (user_replacements = []) then
    ({| user_anonymized_text := text_; user_replacements_made := [];
        user_info := {| user_entities_processed := 0;
                        user_replacements_applied := 0;
                        user_consistency_enabled := None;
                        user_data_labels := None |};
        user_replacement_map := None |}, w)
  else
    let sorted_entities := sort_desc start entities in
    let st :=
      foldl (user_step consistency user_replacements)
        {| user_replaced_text := text_; user_details := [];
           user_map_so_far := ∅; consistency_cache := ∅; user_world := w |}
        sorted_entities in
    let details := sort_asc rp_start (user_details st) in
    ({| user_anonymized_text := user_replaced_text st;
        user_replacements_made := details;
        user_info :=
          {| user_entities_processed := length entities;
             user_replacements_applied := length details;
             user_consistency_enabled := Some consistency;
             user_data_labels := Some (user_replacements.*1) |};
        user_replacement_map := Some (user_map_so_far st) |},
     user_world st).

End Replacer.
End EntityReplacer.

(** * Vocabulary of the properties *)

(** ** Chunker *)

Section Words.
Context `{CharDb}.

(** A word of [T]: a maximal run of characters that are not whitespace,
    from index [a] up to index [b] (excluded). *)
Definition nonspace_at (T : str) (i : nat) : Prop :=
  ∃ c, T !! i = Some c ∧ isspace c = false.

Definition space_at (T : str) (i : nat) : Prop :=
  ∃ c, T !! i = Some c ∧ isspace c = true.

Definition left_closed (T : str) (a : nat) : Prop :=
  a = O ∨ ∃ a', a = S a' ∧ space_at T a'.

Definition is_word (T : str) (a b : nat) : Prop :=
  (a < b ≤ length T)%nat ∧
  (∀ i, (a ≤ i < b)%nat → nonspace_at T i) ∧
  left_closed T a ∧
  (b = length T ∨ space_at T b).

(** What the scanner of [finditer_nonspace] knows at index [pos]. *)
Definition open_ok (T : str) (pos : nat) (open : option nat) : Prop :=
  match open with
  | Some b => (b < pos)%nat ∧ (∀ i, (b ≤ i < pos)%nat → nonspace_at T i)
              ∧ left_closed T b
  | None => left_closed T pos
  end.

(** Spans in ascending order, each ending before the next starts. *)
Definition increasing (l : list (nat * nat)) : Prop :=
  ∀ i j x y, (i < j)%nat → l !! i = Some x → l !! j = Some y → (x.2 < y.1)%nat.

(** The number of words per chunk that [chunk_text] works with. *)
Definition words_per_chunk (chunk_size : Z) : nat :=
  Z.to_nat (if chunk_size <=? 0 then 600 else chunk_size).

End Words.

(** ** Parallel dispatcher *)

(** [e'] is the span [e] of a chunk, moved by the offset of the chunk. *)
Definition moved_by (offset : Z) (e e' : entity) : Prop :=
  start e' = start e + offset ∧ end_ e' = end_ e + offset ∧
  label e' = label e ∧ text e' = text e ∧ score e' = score e.

(** ** Redactor *)

Section RedactorVocabulary.
Context `{CharDb}.
Import EntityRedactor.

(** The key of an entity in the id maps: [(entity['label'], entity['text'])]. *)
Definition entity_key (e : entity) : str * str := (label e, text e).

(** [self.used_ids_per_label[label]] *)
Definition used_for (r : redactor) (lbl : str) : gset str :=
  default ∅ (used_ids_per_label r !! lbl).



(** The detail recorded for [e] under the id [i] and the placeholder [p]. *)
Definition detail_of (e : entity) (i p : str) : RedactionDetail :=
  {| rd_label := upper (label e); original := text e; placeholder := p;
     rd_start := start e; rd_end := end_ e; rd_score := score e;
     redaction_id := i |}.


(** What an iteration of the numbered, consistent loop records for [e]. *)
Definition recorded (format_str : template) (m : gmap (str * str) str)
  (e : entity) : option RedactionDetail :=
  i ← m !! entity_key e;
  p ← format_str i (upper (label e));
  Some (detail_of e i p).

End RedactorVocabulary.

(** ** Replacer *)

Section ReplacerVocabulary.
Context `{CharDb} {W : Type}.
Import EntityReplacer.

(** A span within the text: [0 <= start < end <= len(text)]. *)
Definition in_bounds (text_ : str) (e : entity) : Prop :=
  0 ≤ start e < end_ e ∧ end_ e ≤ len text_.

(** Spans within the text, no two of which overlap. *)
Definition spans_separate (text_ : str) (entities : list entity) : Prop :=
  Forall (in_bounds text_) entities ∧
  ForallOrdPairs (λ a b, EntityValidator._entities_overlap a b = false)
    entities.

(** The same seen along the list sorted by descending start: each span
    ends no later than [bound], the start of the span before it. *)
Fixpoint descending_chain (bound : Z) (l : list entity) : Prop :=
  match l with
  | [] => True
  | e :: l' =>
      0 ≤ start e < end_ e ∧ end_ e ≤ bound ∧ descending_chain (start e) l'
  end.

(** By how much a recorded replacement lengthens the text. *)
Definition net_growth (d : ReplacementDetail) : Z :=
  len (replacement d) - (rp_end d - rp_start d).

(** The net growth of the replacements recorded at a start below [p]: by
    how much the position [p] of the original text has moved. *)
Definition shift_before (ds : list ReplacementDetail) (p : Z) : Z :=
  foldr (λ d acc, if rp_start d <? p then net_growth d + acc else acc) 0 ds.

(** The net growth of all the replacements of [ds]. *)
Definition total_growth (ds : list ReplacementDetail) : Z :=
  foldr (λ d acc, net_growth d + acc) 0 ds.

(** In a run with consistency on, every recorded detail agrees with the
    cache. *)
Definition details_cached (st : replace_state (W := W)) : Prop :=
  ∀ d, d ∈ replacement_details st →
       ∃ s, replacement_cache st !! (rp_label d, original d)
            = Some (replacement d, s).

(** The recorded details stem from the entities and carry a usable value. *)
Definition details_from (l : list entity) (ds : list ReplacementDetail)
  : Prop :=
  ∀ d, d ∈ ds →
       (∃ e, e ∈ l ∧ rp_label d = lower (label e) ∧ original d = text e ∧
             rp_start d = start e ∧ rp_end d = end_ e ∧ rp_score d = score e) ∧
       replacement d ≠ [] ∧ replacement d ≠ original d.

End ReplacerVocabulary.

(** ** Sorting of blocks *)

Section Blocks.
Context {A : Type} (key : A → Z) (blocks : list (list A)).

(** Blocks whose keys lie in ascending, disjoint ranges. *)
Definition blocks_ascend : Prop :=
  ∀ i j Bi Bj x y, (i < j)%nat → blocks !! i = Some Bi → blocks !! j = Some Bj →
                   x ∈ Bi → y ∈ Bj → key x < key y.

(** The blocks picked by [c], each sorted, in the order of [blocks]. *)
Definition picked (c : list nat) : list (list A) :=
  imap (λ j B, if bool_decide (j ∈ c) then sort_asc key B else []) blocks.

End Blocks.

(** ** Validator *)

Section ValidatorVocabulary.
Context `{CharDb}.
Import EntityValidator.

(** What [validate_step] lets through. *)
Definition accepted (strict : bool) (threshold : float) (T : str) (e : entity)
  : bool :=
  _validate_confidence e threshold &&
  (negb strict || (_validate_position e T && _validate_text_consistency e T)).

(** The entities that the counters of [s] account for. *)
Definition rejected (s : validation_stats) : Z :=
  confidence_filtered s + position_invalid s + text_mismatch s.

(** Pairs of positions of [entities], the first below the second. *)
Definition ordered_pairs (entities : list entity) (l : list (nat * nat))
  : Prop :=
  ∀ p q, (p, q) ∈ l → (p < q < length entities)%nat.

(** Left to right, a span is kept when it overlaps none of those kept
    before it. *)
Fixpoint keep_first (kept : list entity) (l : list entity) : list entity :=
  match l with
  | [] => []
  | e :: l' =>
      if existsb (λ k, _entities_overlap k e) kept then keep_first kept l'
      else e :: keep_first (kept ++ [e]) l'
  end.

(** A strategy name that makes [resolve_overlaps] drop the second span of
    every pair. *)
Definition drops_second (strategy : str) : Prop :=
  strategy ≠ py "highest_confidence" ∧ strategy ≠ py "longest".

End ValidatorVocabulary.

(** ** Merger *)

Section MergerVocabulary.
Context `{CharDb}.
Import EntityMerger.

(** The loop of [merge] from the running candidate [current] over the
    entities [rest] still to come: what it emits from there on. *)
Fixpoint merge_from (max_gap : Z) (T : str) (current : entity)
  (rest : list entity) : list entity :=
  match rest with
  | [] => [set_count current None]
  | next_entity :: rest' =>
      if can_merge max_gap current next_entity then
        merge_from max_gap T
          (merge_step max_gap T ([], current) next_entity).2 rest'
      else
        set_count current None
        :: merge_from max_gap T (set_count next_entity (Some 1)) rest'
  end.

(** Two entities one after the other in the output: the second starts no
    earlier than the first, and [can_merge] refuses the pair. *)
Definition settled (max_gap : Z) (a b : entity) : Prop :=
  start a ≤ start b ∧ can_merge max_gap a b = false.

(** Spans within the text, in ascending order, each ending no later than
    the next starts. *)
Definition ascending_chain (T : str) (l : list entity) : Prop :=
  Forall (in_bounds T) l ∧ StronglySorted (λ a b, end_ a ≤ start b) l.

(** The text of an entity is the stripped slice of its span. *)
Definition text_of_span (T : str) (e : entity) : Prop :=
  text e = strip (slice T (start e) (end_ e)).

(** How many entities of a list carry the label [l]. *)
Definition label_count (l : str) (entities : list entity) : nat :=
  length (filter (λ e, label e = l) entities).

(** The statistics of an instance after a series of [merge] calls. *)
Definition merge_stats_of (max_gap : Z) (calls : list (list entity * str))
  : merge_stats :=
  foldl (λ s c, merge_stats_after max_gap s c.1 c.2) reset_statistics calls.

End MergerVocabulary.

(** ** Edits of a text *)

(** [T] from position [pos] on, with the spans of [edits], which come in
    ascending order, each replaced by its string. *)
Fixpoint splice (T : str) (pos : Z) (edits : list (Z * Z * str)) : str :=
  match edits with
  | [] => slice_from T pos
  | (s, e, p) :: rest => slice T pos s ++ p ++ splice T e rest
  end.

(** Edits in ascending order from [lo] on, within [T], none overlapping
    the one before. *)
Fixpoint edits_from (T : str) (lo : Z) (edits : list (Z * Z * str)) : Prop :=
  match edits with
  | [] => True
  | (s, e, p) :: rest => lo ≤ s ∧ s ≤ e ∧ e ≤ len T ∧ edits_from T e rest
  end.

(** [text[:start] + p + text[end:]] *)
Definition apply_edit (X : str) (s e : Z) (p : str) : str :=
  slice_to X s ++ p ++ slice_from X e.

(** ** States of a redactor *)

Section RedactorStates.
Context `{CharDb}.
Import EntityRedactor.

(** The edit a redaction detail reports. *)
Definition redaction_edit (d : RedactionDetail) : Z * Z * str :=
  (rd_start d, rd_end d, placeholder d).

(** The ids in use under each label are the numerals of [1..n], for some
    [n]. *)
Definition contiguous (r : redactor) : Prop :=
  ∀ lbl, ∃ n : nat, ∀ s,
    s ∈ used_for r lbl ↔ ∃ m, (1 ≤ m ≤ n)%nat ∧ s = str_of_nat m.

(** The states an instance goes through: a new instance, and what the
    public methods leave. *)
Inductive reachable : redactor → Prop :=
  | reachable_new : reachable new
  | reachable_redact r text_ entities numbered format_str consistent_ids :
      reachable r →
      reachable (redact r text_ entities numbered format_str consistent_ids).2
  | reachable_batch_redact r texts all_entities numbered format_str
      consistent_ids results r' :
      reachable r →
      batch_redact r texts all_entities numbered format_str consistent_ids
      = Some (results, r') →
      reachable r'
  | reachable_clear_history r : reachable r → reachable (clear_history r).

(** The re-identification map holds what the details hold. *)
Definition reid_tracks (st : redact_state) : Prop :=
  (∀ p t, reid_map st !! p = Some t →
          ∃ d, d ∈ redaction_details st ∧ placeholder d = p ∧ original d = t) ∧
  (∀ d, d ∈ redaction_details st → is_Some (reid_map st !! placeholder d)).

(** The ids of the id map are numerals in use, and no two pairs of one
    upper-cased label share one. *)
Definition ids_distinct (m : gmap (str * str) str) (r : redactor) : Prop :=
  (∀ k s, m !! k = Some s →
          (∃ n, s = str_of_nat n) ∧ s ∈ used_for r (upper k.1)) ∧
  (∀ k1 k2 s, upper k1.1 = upper k2.1 →
     m !! k1 = Some s → m !! k2 = Some s → k1 = k2).

(** The loop without consistent ids: every detail carries an id in use
    under its label, behind the default format, and no two details share a
    placeholder. *)
Definition fresh_details (st : redact_state) : Prop :=
  (∀ d, d ∈ redaction_details st →
        ∃ n, redaction_id d = str_of_nat n ∧
             str_of_nat n ∈ used_for (self st) (rd_label d) ∧
             default_format (str_of_nat n) (rd_label d)
             = Some (placeholder d)) ∧
  (∀ d1 d2, d1 ∈ redaction_details st → d2 ∈ redaction_details st →
            placeholder d1 = placeholder d2 → original d1 = original d2).

(** What a detail says of the entity it stems from. *)
Definition detail_source (d : RedactionDetail) : str * str * Z * Z * float :=
  (rd_label d, original d, rd_start d, rd_end d, rd_score d).

Definition entity_source (e : entity) : str * str * Z * Z * float :=
  (upper (label e), text e, start e, end_ e, score e).

End RedactorStates.

(** ** Replacement with the data of the user *)

Section UserDataVocabulary.
Context `{CharDb} {W : Type}.
Import EntityReplacer.

(** The edit a replacement detail reports. *)
Definition replacement_edit (d : ReplacementDetail) : Z * Z * str :=
  (rp_start d, rp_end d, replacement d).

(** What [_select_user_replacement] can return for a value of
    [user_replacements]. *)
Definition selectable (data : user_data) (r : str) : Prop :=
  match data with
  | Single value => r = value
  | Several values => (values = [] ∧ r = []) ∨ r ∈ values
  end.

(** The loop invariant of [replace_with_user_data]: where every recorded
    detail and every cached value come from. *)
Definition user_inv (consistency : bool)
  (user_replacements : list (str * user_data)) (l : list entity)
  (st : user_state (W := W)) : Prop :=
  (∀ d, d ∈ user_details st →
        strategy_used d = py "user_data" ∧ replacement d ≠ [] ∧
        (consistency = true →
         consistency_cache st !! (rp_label d, original d)
         = Some (replacement d)) ∧
        ∃ e data, e ∈ l ∧ rp_label d = lower (label e) ∧
                  original d = text e ∧ rp_start d = start e ∧
                  rp_end d = end_ e ∧ rp_score d = score e ∧
                  user_get user_replacements (lower (label e)) = Some data ∧
                  selectable data (replacement d)) ∧
  (∀ lbl t r, consistency_cache st !! (lbl, t) = Some r →
              ∃ data, user_get user_replacements lbl = Some data ∧
                      selectable data r) ∧
  (∀ e data, e ∈ l →
             user_get user_replacements (lower (label e)) = Some data →
             (∀ r, selectable data r → r ≠ []) →
             ∃ d, d ∈ user_details st ∧ rp_start d = start e ∧
                  rp_end d = end_ e ∧ original d = text e ∧
                  rp_label d = lower (label e)).

End UserDataVocabulary.

(** * Instances for the examples *)

(** A generator that replays a list of raw draws, then zeros. *)
Definition replay (draws : list N) : N * list N :=
  match draws with
  | [] => (0%N, [])
  | x :: rest => (x, rest)
  end.

Section Instances.
Import AsciiDb EntityReplacer.

(** A labeler that reports the first character of each chunk. *)
Definition first_character (chunk : str) (categories : option (list str))
  : option (list entity) :=
  match chunk with
  | [] => Some []
  | _ :: _ =>
      Some [ {| label := py "initial"; text := slice chunk 0 1;
                start := 0; end_ := 1; score := 1%float; count := None |} ]
  end.

Definition tied_first : entity :=
  {| label := py "person"; text := py "John S"; start := 0; end_ := 6;
     score := 0.5%float; count := None |}.

Definition tied_second : entity :=
  {| label := py "person"; text := py "n Smith"; start := 3; end_ := 10;
     score := 0.5%float; count := None |}.

Definition third_span : entity :=
  {| label := py "org"; text := py "th Ltd"; start := 8; end_ := 14;
     score := 0.75%float; count := None |}.

Definition span (lbl txt : string) (s e : Z) : entity :=
  {| label := py lbl; text := py txt; start := s; end_ := e;
     score := 0.75%float; count := None |}.

Definition serial : entity :=
  {| label := py "Serial"; text := py "Ab-12 z"; start := 0; end_ := 7;
     score := 0.75%float; count := None |}.

Definition mail : entity :=
  {| label := py "Email"; text := py "a@b"; start := 0; end_ := 3;
     score := 0.75%float; count := None |}.

Definition dashes : entity :=
  {| label := py "phone"; text := py "--"; start := 0; end_ := 2;
     score := 0.75%float; count := None |}.

(** A replacer without Faker, around the country and date strategies
    [country_] and [date_]. *)
Definition without_faker (country_ date_ : strategy (list N))
  : strategies (list N) :=
  {| faker := None; country := country_; date := date_ |}.

(** The same with the default strategy in their place, for closed instances
    (the labels below reach neither). *)
Definition fallback_only : strategies (list N) :=
  without_faker (default_strategy replay) (default_strategy replay).

Definition phone_abc : entity :=
  {| label := py "phone"; text := py "abc"; start := 0; end_ := 3;
     score := 0.75%float; count := None |}.

Definition word_cd (s e : Z) : entity :=
  {| label := py "word"; text := py "cd"; start := s; end_ := e;
     score := 0.75%float; count := None |}.

End Instances.

(** ** Instances for the further properties *)

Section MoreInstances.
Import AsciiDb.

(** A validator with the threshold [0.25] and strict validation. *)
Definition strict_validator : EntityValidator.validator :=
  EntityValidator.new 0.25 true.

(** Three reports on the text ["Ann met Bob"]: one that passes, with a
    label in capitals; one below the threshold; one that runs past the end
    of the text. *)
Definition reports : list entity :=
  [ span "Person" "Ann" 0 3;
    {| label := py "person"; text := py "Bob"; start := 8; end_ := 11;
       score := 0.125%float; count := None |};
    span "person" "Bob" 8 12 ].

Definition ann_validated : EntityValidator.validated_entity :=
  {| EntityValidator.fields := span "person" "Ann" 0 3;
     EntityValidator.validated := true;
     EntityValidator.validator_version := py "1.0.0" |}.

(** User data with one string for the label [phone]. *)
Definition phone_555 : list (str * EntityReplacer.user_data) :=
  [(py "phone", EntityReplacer.Single (py "555"))].

(** Scenario A of the specification. *)
Definition scenario_a_text : str :=
  py "John Smith met John Smith again in Paris.".

Definition scenario_a_entities : list entity :=
  [ span "person" "John Smith" 0 10; span "person" "John Smith" 15 25;
    span "location" "Paris" 35 40 ].

End MoreInstances.

(** * Properties *)

(** ** Slices *)

Lemma slice_bound_in_range (n i : Z) : 0 ≤ i ≤ n → slice_bound n i = i.
Proof. intros Hi. unfold slice_bound. destruct (Z.ltb_spec i 0); lia. Qed.

Lemma slice_nat (s : str) (a b : nat) :
  (a ≤ b ≤ length s)%nat →
  slice s (Z.of_nat a) (Z.of_nat b) = take (b - a) (drop a s).
Proof.
  intros Hab. unfold slice, len.
  rewrite !slice_bound_in_range by lia.
  f_equal; [lia | f_equal; lia].
Qed.

Lemma length_slice_nat (s : str) (a b : nat) :
  (a ≤ b ≤ length s)%nat →
  length (slice s (Z.of_nat a) (Z.of_nat b)) = (b - a)%nat.
Proof.
  intros Hab. rewrite slice_nat by done.
  rewrite length_take, length_drop. lia.
Qed.

Lemma slice_Z (s : str) (a b : Z) :
  0 ≤ a ≤ b → b ≤ len s →
  slice s a b = take (Z.to_nat (b - a)) (drop (Z.to_nat a) s).
Proof.
  intros Ha Hb. unfold slice. by rewrite !slice_bound_in_range by lia.
Qed.

Lemma slice_to_Z (s : str) (b : Z) :
  0 ≤ b ≤ len s → slice_to s b = take (Z.to_nat b) s.
Proof.
  intros Hb. unfold slice_to. rewrite slice_Z by lia.
  rewrite drop_0. f_equal. lia.
Qed.

Lemma slice_from_Z (s : str) (a : Z) :
  0 ≤ a ≤ len s → slice_from s a = drop (Z.to_nat a) s.
Proof.
  intros Ha. unfold slice_from. rewrite slice_Z by lia.
  apply take_ge. rewrite length_drop. unfold len. lia.
Qed.

(** ** Stable sorts *)

Section StableSortFacts.
Context {A : Type} (key : A → Z).

Lemma insert_asc_Permutation (x : A) (l : list A) :
  insert_asc key x l ≡ₚ x :: l.
Proof.
  induction l as [|y l IH]; simpl; [done|].
  destruct (key x <=? key y); [done|].
  rewrite IH. apply Permutation_swap.
Qed.

Lemma sort_asc_Permutation (l : list A) : sort_asc key l ≡ₚ l.
Proof.
  induction l as [|x l IH]; simpl; [done|].
  rewrite insert_asc_Permutation. by f_equiv.
Qed.

Lemma insert_desc_Permutation (x : A) (l : list A) :
  insert_desc key x l ≡ₚ x :: l.
Proof.
  induction l as [|y l IH]; simpl; [done|].
  destruct (key y <=? key x); [done|].
  rewrite IH. apply Permutation_swap.
Qed.

Lemma sort_desc_Permutation (l : list A) : sort_desc key l ≡ₚ l.
Proof.
  induction l as [|x l IH]; simpl; [done|].
  rewrite insert_desc_Permutation. by f_equiv.
Qed.

Lemma elem_of_sort_asc (x : A) (l : list A) : x ∈ sort_asc key l ↔ x ∈ l.
Proof. by rewrite sort_asc_Permutation. Qed.

Lemma elem_of_sort_desc (x : A) (l : list A) : x ∈ sort_desc key l ↔ x ∈ l.
Proof. by rewrite sort_desc_Permutation. Qed.

Lemma length_sort_asc (l : list A) : length (sort_asc key l) = length l.
Proof. by rewrite sort_asc_Permutation. Qed.

Lemma length_sort_desc (l : list A) : length (sort_desc key l) = length l.
Proof. by rewrite sort_desc_Permutation. Qed.

End StableSortFacts.

(** ** Chunker *)

Section ChunkerFacts.
Context `{CharDb}.
Import chunker.

Lemma finditer_nonspace_spec (s pre : str) (open : option nat) :
  open_ok (pre ++ s) (length pre) open →
  (∀ a b, (a, b) ∈ finditer_nonspace (length pre) open s →
          is_word (pre ++ s) a b ∧ (default (length pre) open ≤ a)%nat) ∧
  (∀ i, (length pre ≤ i < length (pre ++ s))%nat → nonspace_at (pre ++ s) i →
        ∃ a b, (a, b) ∈ finditer_nonspace (length pre) open s ∧ (a ≤ i < b)%nat) ∧
  (∀ b0, open = Some b0 →
        ∃ e, (b0, e) ∈ finditer_nonspace (length pre) open s
             ∧ (length pre ≤ e)%nat).
Proof.
  revert pre open. induction s as [|c s IH]; intros pre open Hopen.
  - rewrite app_nil_r in *. split.
    + intros a b Hin. destruct open as [b0|]; simpl in Hin.
      * apply list_elem_of_singleton in Hin. injection Hin as -> ->.
        destruct Hopen as (Hlt & Hrun & Hleft).
        split; [|simpl; lia]. repeat split; try lia; auto.
      * by apply elem_of_nil in Hin.
    + split; [intros i Hi; lia|].
      intros b0 ->. exists (length pre). simpl. split; [|lia].
      by apply list_elem_of_singleton.
  - assert (Heq : pre ++ c :: s = (pre ++ [c]) ++ s) by (by rewrite <- app_assoc).
    assert (Hlen : length (pre ++ [c]) = S (length pre))
      by (rewrite length_app; simpl; lia).
    assert (Hc : (pre ++ c :: s) !! length pre = Some c).
    { rewrite lookup_app_r by lia. by rewrite Nat.sub_diag. }
    simpl. destruct (isspace c) eqn:Hsp.
    + (* whitespace: a run, if any, closes here *)
      assert (Hnext : open_ok ((pre ++ [c]) ++ s) (length (pre ++ [c])) None).
      { simpl. right. exists (length pre). split; [lia|].
        exists c. by rewrite <- Heq. }
      destruct (IH (pre ++ [c]) None Hnext) as (IH1 & IH2 & _).
      rewrite Hlen in IH1, IH2. rewrite <- Heq in IH1, IH2.
      assert (Hcover : ∀ i, (length pre ≤ i < length (pre ++ c :: s))%nat →
          nonspace_at (pre ++ c :: s) i →
          ∃ a b, (a, b) ∈ finditer_nonspace (S (length pre)) None s
                 ∧ (a ≤ i < b)%nat).
      { intros i Hi Hns.
        destruct (decide (i = length pre)) as [->|Hne].
        - destruct Hns as (c' & Hc' & Hns). congruence.
        - apply IH2; [lia | done]. }
      destruct open as [b0|]; simpl.
      * destruct Hopen as (Hlt & Hrun & Hleft). split.
        -- intros a b Hin. apply elem_of_cons in Hin as [Hin|Hin].
           ++ injection Hin as -> ->. split; [|lia].
              repeat split; try lia; auto.
              { rewrite length_app. simpl. lia. }
              right. by exists c.
           ++ destruct (IH1 a b Hin) as [Hw Hle]. simpl in Hle. split; [done|lia].
        -- split.
           ++ intros i Hi Hns.
              destruct (Hcover i Hi Hns) as (a & b & Hin & Hab).
              exists a, b. split; [by apply elem_of_cons; right | done].
           ++ intros b1 [= <-]. exists (length pre).
              split; [by apply elem_of_cons; left | lia].
      * split.
        -- intros a b Hin. destruct (IH1 a b Hin) as [Hw Hle].
           simpl in Hle. split; [done|lia].
        -- split; [done|]. intros b1 [=].
    + (* not whitespace: the run opens or goes on *)
      assert (Hnext : open_ok ((pre ++ [c]) ++ s) (length (pre ++ [c]))
                        (Some (default (length pre) open))).
      { rewrite <- Heq, Hlen. destruct open as [b0|]; simpl.
        - destruct Hopen as (Hlt & Hrun & Hleft). split; [lia|]. split; [|done].
          intros i Hi. destruct (decide (i = length pre)) as [->|Hne].
          + by exists c.
          + apply Hrun. lia.
        - split; [lia|]. split; [|done].
          intros i Hi. assert (i = length pre) as -> by lia. by exists c. }
      destruct (IH (pre ++ [c]) _ Hnext) as (IH1 & IH2 & IH3).
      rewrite Hlen in IH1, IH2, IH3. rewrite <- Heq in IH1, IH2.
      simpl in IH1.
      destruct (IH3 _ eq_refl) as (e & Hin & Hle).
      assert (Hlo : (default (length pre) open ≤ length pre)%nat).
      { destruct open as [b0|]; simpl; [|lia]. destruct Hopen; lia. }
      split; [|split].
      * intros a b Hin'. destruct (IH1 a b Hin') as [Hw Hle']. by split.
      * intros i Hi Hns.
        destruct (decide (i = length pre)) as [->|Hne].
        -- exists (default (length pre) open), e. split; [done | lia].
        -- apply IH2; [lia | done].
      * intros b0 ->. exists e. simpl in Hin. split; [done | lia].
Qed.

Lemma word_spans_sound (T : str) (a b : nat) :
  (a, b) ∈ word_spans T → is_word T a b.
Proof.
  intros Hin. destruct (finditer_nonspace_spec T [] None) as (H1 & _).
  { simpl. by left. }
  by destruct (H1 a b Hin).
Qed.

Lemma word_spans_cover (T : str) (i : nat) :
  nonspace_at T i → ∃ a b, (a, b) ∈ word_spans T ∧ (a ≤ i < b)%nat.
Proof.
  intros Hns. destruct (finditer_nonspace_spec T [] None) as (_ & H2 & _).
  { simpl. by left. }
  apply H2; [|done]. destruct Hns as (c & Hc & _).
  apply lookup_lt_Some in Hc. simpl in *. lia.
Qed.

Lemma nonspace_not_space (T : str) (i : nat) :
  nonspace_at T i → space_at T i → False.
Proof. intros (c & Hc & Hn) (c' & Hc' & Hs). congruence. Qed.

(** Two words that share a position are the same word. *)
Lemma is_word_unique (T : str) (a b a' b' i : nat) :
  is_word T a b → is_word T a' b' →
  (a ≤ i < b)%nat → (a' ≤ i < b')%nat → a = a' ∧ b = b'.
Proof.
  intros (Hab & Hrun & Hleft & Hright) (Hab' & Hrun' & Hleft' & Hright') Hi Hi'.
  split.
  - destruct (Nat.lt_trichotomy a a') as [Hlt|[->|Hlt]]; [|done|].
    + destruct Hleft' as [->|(p & -> & Hsp)]; [lia|].
      exfalso. apply (nonspace_not_space T p); [apply Hrun; lia | done].
    + destruct Hleft as [->|(p & -> & Hsp)]; [lia|].
      exfalso. apply (nonspace_not_space T p); [apply Hrun'; lia | done].
  - destruct (Nat.lt_trichotomy b b') as [Hlt|[->|Hlt]]; [|done|].
    + destruct Hright as [->|Hsp]; [lia|].
      exfalso. apply (nonspace_not_space T b); [apply Hrun'; lia | done].
    + destruct Hright' as [->|Hsp]; [lia|].
      exfalso. apply (nonspace_not_space T b'); [apply Hrun; lia | done].
Qed.

(** The matches of [\S+] are exactly the words of the text. *)
Lemma word_spans_words (T : str) (a b : nat) :
  (a, b) ∈ word_spans T ↔ is_word T a b.
Proof.
  split; [apply word_spans_sound|]. intros Hw.
  assert (Ha : nonspace_at T a) by (destruct Hw as (? & Hrun & _); apply Hrun; lia).
  destruct (word_spans_cover T a Ha) as (a' & b' & Hin & Hab).
  destruct (is_word_unique T a b a' b' a Hw (word_spans_sound _ _ _ Hin))
    as [-> ->]; [destruct Hw; lia | done | done].
Qed.

Lemma finditer_nonspace_increasing (s : str) (pos : nat) (open : option nat) :
  (∀ b0, open = Some b0 → (b0 < pos)%nat) →
  (∀ x, x ∈ finditer_nonspace pos open s → (default pos open ≤ x.1)%nat) ∧
  increasing (finditer_nonspace pos open s).
Proof.
  revert pos open. induction s as [|c s IH]; intros pos open Hopen; simpl.
  - split.
    + intros x Hin. destruct open as [b0|]; simpl; [|by apply elem_of_nil in Hin].
      apply list_elem_of_singleton in Hin. by subst.
    + intros i j x y Hij Hx Hy. destruct open.
      * destruct i, j; simpl in *; try done; lia.
      * done.
  - destruct (isspace c).
    + destruct (IH (S pos) None) as [Hlow Hinc]; [done|]. simpl in Hlow.
      destruct open as [b0|]; simpl.
      * specialize (Hopen b0 eq_refl). split.
        -- intros x [->|Hin]%elem_of_cons; [done|]. apply Hlow in Hin. lia.
        -- intros i j x y Hij Hx Hy. destruct j as [|j]; [lia|].
           simpl in Hy. destruct i as [|i]; simpl in Hx.
           ++ injection Hx as <-. simpl.
              apply list_elem_of_lookup_2, Hlow in Hy. lia.
           ++ apply (Hinc i j); [lia | done | done].
      * split; [|done]. intros x Hin. apply Hlow in Hin. lia.
    + destruct (IH (S pos) (Some (default pos open))) as [Hlow Hinc].
      { intros b0 [= <-]. destruct open as [b1|]; simpl; [|lia].
        specialize (Hopen b1 eq_refl). lia. }
      done.
Qed.

Lemma word_spans_increasing (T : str) : increasing (word_spans T).
Proof. by apply finditer_nonspace_increasing. Qed.

Lemma word_spans_lookup_lt (T : str) (i j : nat) x y :
  word_spans T !! i = Some x → word_spans T !! j = Some y → (i < j)%nat →
  (x.2 < y.1)%nat.
Proof. intros Hx Hy Hij. by apply (word_spans_increasing T i j). Qed.

Lemma word_spans_lookup_le (T : str) (i j : nat) x y :
  word_spans T !! i = Some x → word_spans T !! j = Some y → (i ≤ j)%nat →
  (x.1 ≤ y.1 ∧ x.2 ≤ y.2 ∧ x.1 < y.2 ≤ length T)%nat.
Proof.
  intros Hx Hy Hij.
  assert (Hwx : is_word T x.1 x.2).
  { apply word_spans_sound. destruct x. by eapply list_elem_of_lookup_2. }
  assert (Hwy : is_word T y.1 y.2).
  { apply word_spans_sound. destruct y. by eapply list_elem_of_lookup_2. }
  destruct Hwx as (Hx1 & _), Hwy as (Hy1 & _).
  destruct (decide (i = j)) as [->|Hne].
  - assert (x = y) as -> by congruence. lia.
  - pose proof (word_spans_increasing T i j x y ltac:(lia) Hx Hy). lia.
Qed.

(** The groups of the loop. *)
Lemma range_step_lookup (stop step k i : nat) :
  (1 ≤ step)%nat → range_step stop step !! k = Some i →
  i = (k * step)%nat ∧ (i < stop)%nat.
Proof.
  intros Hstep Hk. unfold range_step in Hk.
  rewrite list_lookup_fmap in Hk.
  destruct (seq 0 ((stop + step - 1) / step) !! k) as [k'|] eqn:Hseq;
    simpl in Hk; [|done].
  injection Hk as <-. apply lookup_seq in Hseq as [-> Hlt]. simpl.
  split; [done|].
  assert (Hdiv : (step * ((stop + step - 1) / step) ≤ stop + step - 1)%nat)
    by (apply Nat.Div0.mul_div_le).
  nia.
Qed.

Lemma range_step_covers (stop step p : nat) :
  (1 ≤ step)%nat → (p < stop)%nat →
  range_step stop step !! (p / step)%nat = Some ((p / step) * step)%nat.
Proof.
  intros Hstep Hp. unfold range_step. rewrite list_lookup_fmap.
  rewrite lookup_seq_lt; [done|].
  apply Nat.Div0.div_lt_upper_bound.
  pose proof (Nat.div_mod (stop + step - 1) step ltac:(lia)) as Hdm.
  pose proof (Nat.mod_upper_bound (stop + step - 1) step ltac:(lia)).
  nia.
Qed.

Lemma chunk_at_lookup (T : str) (l : list (nat * nat)) (n i : nat) x :
  (1 ≤ n)%nat → l !! i = Some x →
  ∃ y j, l !! j = Some y ∧ (i ≤ j < i + n)%nat ∧
         (∀ p, (i ≤ p < i + n)%nat → (p < length l)%nat → (p ≤ j)%nat) ∧
         chunk_at T l n i
         = Some (slice T (Z.of_nat x.1) (Z.of_nat y.2), Z.of_nat x.1).
Proof.
  intros Hn Hx. pose proof (lookup_lt_Some _ _ _ Hx) as Hi.
  set (g := take n (drop i l)).
  assert (Hlen : length g = (n `min` (length l - i))%nat)
    by (unfold g; by rewrite length_take, length_drop).
  assert (Hhead : head g = Some x).
  { unfold g. rewrite head_lookup, lookup_take.
    case_decide; [|lia]. rewrite lookup_drop. by rewrite Nat.add_0_r. }
  set (j := (i + pred (length g))%nat).
  assert (Hj : (j < length l)%nat) by (unfold j; lia).
  destruct (lookup_lt_is_Some_2 l j Hj) as [y Hy].
  assert (Hlast : last g = Some y).
  { rewrite last_lookup. unfold g at 2. rewrite lookup_take.
    case_decide; [|lia]. by rewrite lookup_drop. }
  exists y, j. split; [done|]. split; [unfold j; lia|].
  split; [intros p Hp Hpl; unfold j; lia|].
  unfold chunk_at. fold g. by rewrite Hhead, Hlast.
Qed.

Lemma collect_chunks_lookup (T : str) (l : list (nat * nat)) (n : nat)
  (idx : list nat) (k : nat) :
  (1 ≤ n)%nat → (∀ i, i ∈ idx → (i < length l)%nat) →
  collect_chunks T l n idx !! k = idx !! k ≫= chunk_at T l n.
Proof.
  intros Hn. revert k. induction idx as [|i idx IH]; intros k Hidx; [done|].
  simpl. destruct (lookup_lt_is_Some_2 l i) as [x Hx].
  { apply Hidx. by left. }
  destruct (chunk_at_lookup T l n i x Hn Hx) as (y & j & _ & _ & _ & Hc).
  rewrite Hc. destruct k as [|k]; simpl.
  - by rewrite Hc.
  - apply IH. intros i' Hi'. apply Hidx. by right.
Qed.

Lemma lstrip_nil (s : str) :
  lstrip s = [] → ∀ c, c ∈ s → isspace c = true.
Proof.
  induction s as [|c s IH]; simpl; [by intros _ c ?%elem_of_nil|].
  destruct (isspace c) eqn:Hc; [|done].
  intros Hs c' [->|Hin]%elem_of_cons; auto.
Qed.

Lemma lstrip_head (s : str) c r : lstrip s = c :: r → isspace c = false.
Proof.
  induction s as [|c' s IH]; simpl; [done|].
  destruct (isspace c') eqn:Hc; [done|]. by intros [= <- _].
Qed.

Lemma strip_nil (s : str) : strip s = [] → ∀ c, c ∈ s → isspace c = true.
Proof.
  unfold strip, rstrip. intros Hs.
  apply (f_equal reverse) in Hs. rewrite reverse_involutive in Hs.
  change (reverse []) with (@nil ascii) in Hs.
  pose proof (lstrip_nil _ Hs) as Hall.
  destruct (lstrip s) as [|c r] eqn:Hl; [by apply lstrip_nil|].
  apply lstrip_head in Hl. rewrite (Hall c) in Hl; [done|].
  apply elem_of_reverse. by left.
Qed.

Lemma all_space_no_words (T : str) :
  (∀ c, c ∈ T → isspace c = true) ↔ word_spans T = [].
Proof.
  split.
  - intros Hall. destruct (word_spans T) as [|[a b] l] eqn:Hw; [done|].
    assert (Hin : (a, b) ∈ word_spans T) by (rewrite Hw; by left).
    apply word_spans_sound in Hin as (Hab & Hrun & _).
    destruct (Hrun a) as (c & Hc & Hns); [lia|].
    apply list_elem_of_lookup_2, Hall in Hc. congruence.
  - intros Hw c Hc. destruct (isspace c) eqn:Hsp; [done|].
    apply list_elem_of_lookup_1 in Hc as [i Hi].
    destruct (word_spans_cover T i) as (a & b & Hin & _); [by exists c|].
    rewrite Hw in Hin. by apply elem_of_nil in Hin.
Qed.

Lemma words_per_chunk_pos (chunk_size : Z) : (1 ≤ words_per_chunk chunk_size)%nat.
Proof. unfold words_per_chunk. destruct (Z.leb_spec chunk_size 0); lia. Qed.

Lemma chunk_text_unfold (T : str) (chunk_size : Z) :
  chunk_text T chunk_size
  = collect_chunks T (word_spans T) (words_per_chunk chunk_size)
      (range_step (length (word_spans T)) (words_per_chunk chunk_size)).
Proof.
  unfold chunk_text. fold (words_per_chunk chunk_size).
  assert (Hnil : word_spans T = [] →
    collect_chunks T (word_spans T) (words_per_chunk chunk_size)
      (range_step (length (word_spans T)) (words_per_chunk chunk_size)) = []).
  { intros ->. simpl. unfold range_step.
    pose proof (words_per_chunk_pos chunk_size).
    simpl. rewrite Nat.div_small by lia. done. }
  case_bool_decide as HT; simpl.
  { subst T. by rewrite Hnil. }
  case_bool_decide as Hs; simpl.
  { rewrite Hnil; [done|]. by apply all_space_no_words, strip_nil. }
  case_bool_decide as Hw; [by rewrite Hnil | done].
Qed.

Lemma chunk_text_lookup (T : str) (chunk_size : Z) (k : nat) c off :
  chunk_text T chunk_size !! k = Some (c, off) →
  ∃ x y j,
    word_spans T !! (k * words_per_chunk chunk_size)%nat = Some x ∧
    word_spans T !! j = Some y ∧
    (k * words_per_chunk chunk_size ≤ j < S k * words_per_chunk chunk_size)%nat ∧
    c = slice T (Z.of_nat x.1) (Z.of_nat y.2) ∧ off = Z.of_nat x.1.
Proof.
  pose proof (words_per_chunk_pos chunk_size) as Hn.
  rewrite chunk_text_unfold, collect_chunks_lookup; [|done|].
  2:{ intros i [k' Hi]%list_elem_of_lookup_1.
      by apply range_step_lookup in Hi as [_ ?]. }
  destruct (range_step _ _ !! k) as [i|] eqn:Hi; simpl; [|done].
  apply range_step_lookup in Hi as [-> Hlt]; [|done].
  destruct (lookup_lt_is_Some_2 _ _ Hlt) as [x Hx].
  destruct (chunk_at_lookup T _ _ _ x Hn Hx) as (y & j & Hy & Hj & _ & ->).
  intros [= <- <-]. exists x, y, j. repeat split; try done; lia.
Qed.

Lemma chunk_text_covers (T : str) (chunk_size : Z) (p : nat) z :
  word_spans T !! p = Some z →
  ∃ x y j,
    word_spans T !! ((p / words_per_chunk chunk_size)
                     * words_per_chunk chunk_size)%nat = Some x ∧
    word_spans T !! j = Some y ∧ (p ≤ j)%nat ∧
    chunk_text T chunk_size !! (p / words_per_chunk chunk_size)%nat
    = Some (slice T (Z.of_nat x.1) (Z.of_nat y.2), Z.of_nat x.1).
Proof.
  intros Hz. pose proof (words_per_chunk_pos chunk_size) as Hn.
  pose proof (lookup_lt_Some _ _ _ Hz) as Hp.
  set (n := words_per_chunk chunk_size) in *.
  assert (Hi : ((p / n) * n ≤ p < (p / n) * n + n)%nat).
  { pose proof (Nat.div_mod p n ltac:(lia)).
    pose proof (Nat.mod_upper_bound p n ltac:(lia)). nia. }
  destruct (lookup_lt_is_Some_2 (word_spans T) ((p / n) * n)%nat) as [x Hx];
    [lia|].
  destruct (chunk_at_lookup T _ _ _ x Hn Hx) as (y & j & Hy & Hj & Hmax & Hc).
  exists x, y, j. split; [done|]. split; [done|].
  split; [apply Hmax; lia|].
  rewrite chunk_text_unfold, collect_chunks_lookup; [|done|].
  2:{ intros i [k' Hi']%list_elem_of_lookup_1.
      by apply range_step_lookup in Hi' as [_ ?]. }
  fold n. rewrite range_step_covers by done. done.
Qed.

Lemma chunk_text_elem (T : str) (chunk_size : Z) c off :
  (c, off) ∈ chunk_text T chunk_size →
  ∃ a b : nat, (a < b ≤ length T)%nat ∧ off = Z.of_nat a ∧
               c = take (b - a) (drop a T).
Proof.
  intros [k Hk]%list_elem_of_lookup_1.
  apply chunk_text_lookup in Hk as (x & y & j & Hx & Hy & Hj & -> & ->).
  pose proof (word_spans_lookup_le T _ _ x y Hx Hy ltac:(lia)) as Hle.
  exists x.1, y.2. split; [lia|]. split; [done|].
  apply slice_nat. lia.
Qed.

Lemma chunk_matches_chunk (T : str) (chunk_size : Z) c off :
  (c, off) ∈ chunk_text T chunk_size →
  0 ≤ off < len T ∧ off + len c ≤ len T ∧ slice T off (off + len c) = c.
Proof.
  intros (a & b & Hab & -> & ->)%chunk_text_elem.
  assert (Hlen : length (take (b - a) (drop a T)) = (b - a)%nat)
    by (rewrite length_take, length_drop; lia).
  unfold len. rewrite Hlen. split; [lia|]. split; [lia|].
  replace (Z.of_nat a + Z.of_nat (b - a)) with (Z.of_nat b) by lia.
  apply slice_nat. lia.
Qed.

(** C4 (as amended). For every text and chunk size (positive or not: a
    non-positive size is read as 600), every pair [(chunk_str, offset)] that
    [chunk_text] returns satisfies
    [text[offset : offset + len(chunk_str)] == chunk_str]; [validate_chunks]
    accepts the result exactly when it is not empty, and it is empty exactly
    when the text has no character other than whitespace; each chunk ends
    before the next one starts, so offsets ascend; and every word of the text
    (a maximal run of characters that are not whitespace) lies within one
    chunk. *)
Theorem chunk_text_round_trip (text_ : str) (chunk_size : Z) :
  let chunks := chunk_text text_ chunk_size in
  (∀ c off, (c, off) ∈ chunks → slice text_ off (off + len c) = c) ∧
  validate_chunks chunks text_ = negb (bool_decide (chunks = [])) ∧
  (chunks = [] ↔ ∀ c, c ∈ text_ → isspace c = true) ∧
  (∀ k c1 o1 c2 o2,
     chunks !! k = Some (c1, o1) → chunks !! S k = Some (c2, o2) →
     o1 + len c1 < o2) ∧
  (∀ a b, is_word text_ a b →
     ∃ c off, (c, off) ∈ chunks ∧ off ≤ Z.of_nat a ∧ Z.of_nat b ≤ off + len c).
Proof.
  intros chunks.
  assert (Hwords : ∀ p z, word_spans text_ !! p = Some z →
            ∃ c off, (c, off) ∈ chunks ∧ off ≤ Z.of_nat z.1
                     ∧ Z.of_nat z.2 ≤ off + len c).
  { intros p z Hz.
    destruct (chunk_text_covers text_ chunk_size p z Hz)
      as (x & y & j & Hx & Hy & Hj & Hc).
    pose proof (words_per_chunk_pos chunk_size) as Hn.
    assert (Hi : ((p / words_per_chunk chunk_size)
                  * words_per_chunk chunk_size ≤ p)%nat).
    { rewrite Nat.mul_comm. apply Nat.Div0.mul_div_le. }
    pose proof (word_spans_lookup_le _ _ _ x z Hx Hz Hi) as Hxz.
    pose proof (word_spans_lookup_le _ _ _ z y Hz Hy Hj) as Hzy.
    pose proof (word_spans_lookup_le _ _ _ x y Hx Hy ltac:(lia)) as Hxy.
    eexists _, _. split; [by eapply list_elem_of_lookup_2|].
    unfold len. rewrite length_slice_nat by lia. lia. }
  split; [|split; [|split; [|split]]].
  - intros c off Hin. by apply chunk_matches_chunk in Hin as (_ & _ & ?).
  - unfold validate_chunks. case_bool_decide as Hc; [done|]. simpl.
    case_bool_decide as HT.
    { exfalso. apply Hc. subst text_. done. }
    simpl. apply forallb_forall. intros [c off] Hin%list_elem_of_In.
    apply chunk_matches_chunk in Hin as (Hoff & Hend & Heq).
    unfold chunk_matches.
    destruct (Z.ltb_spec off 0); [lia|].
    destruct (Z.leb_spec (len text_) off); [lia|]. simpl.
    destruct (Z.ltb_spec (len text_) (off + len c)); [lia|].
    by apply bool_decide_eq_true_2.
  - rewrite all_space_no_words. split.
    + intros Hc. destruct (word_spans text_) as [|z l] eqn:Hw; [done|].
      destruct (Hwords O z) as (c & off & Hin & _);
        [first [done | by rewrite Hw]|].
      fold chunks in Hc. rewrite Hc in Hin. by apply elem_of_nil in Hin.
    + intros Hw. unfold chunks. rewrite chunk_text_unfold, Hw. simpl.
      unfold range_step. simpl.
      pose proof (words_per_chunk_pos chunk_size).
      by rewrite Nat.div_small by lia.
  - intros k c1 o1 c2 o2 H1 H2.
    apply chunk_text_lookup in H1 as (x1 & y1 & j1 & Hx1 & Hy1 & Hj1 & -> & ->).
    apply chunk_text_lookup in H2 as (x2 & y2 & j2 & Hx2 & Hy2 & Hj2 & -> & ->).
    pose proof (word_spans_lookup_le _ _ _ x1 y1 Hx1 Hy1 ltac:(lia)).
    pose proof (word_spans_lookup_lt text_ _ _ y1 x2 Hy1 Hx2 ltac:(lia)).
    unfold len. rewrite length_slice_nat by lia. lia.
  - intros a b Hw. apply word_spans_words in Hw.
    apply list_elem_of_lookup_1 in Hw as [p Hp].
    apply (Hwords p (a, b) Hp).
Qed.
End ChunkerFacts.

Section ChunkerExamples.
Import AsciiDb.

(** C4, counterexample: the claim as stated fails on a text without words.
    [chunk_text] returns the empty list, which [validate_chunks] rejects. *)
Lemma validate_chunks_rejects_blank :
  chunker.chunk_text (py "   ") 5 = [] ∧
  chunker.validate_chunks (chunker.chunk_text (py "   ") 5) (py "   ") = false ∧
  chunker.validate_chunks (chunker.chunk_text (py "") 5) (py "") = false.
Proof. by vm_compute. Qed.

(** A text of four words in chunks of two. *)
Example chunk_text_four_words :
  chunker.chunk_text (py "  ab cd   ef g ") 2
  = [(py "ab cd", 2); (py "ef g", 10)].
Proof. by vm_compute. Qed.

(** C4, an instance: the word [ef] of the text above lies in its second
    chunk. *)
Lemma chunk_text_round_trip_witness :
  is_word (py "  ab cd   ef g ") 10 12 ∧
  ∃ c off, (c, off) ∈ chunker.chunk_text (py "  ab cd   ef g ") 2 ∧
           off ≤ 10 ∧ 12 ≤ off + len c.
Proof.
  assert (Hword : is_word (py "  ab cd   ef g ") 10 12).
  { apply word_spans_words. vm_compute.
    do 2 apply list_elem_of_further. apply list_elem_of_here. }
  split; [exact Hword|].
  exact (proj2 (proj2 (proj2 (proj2
           (chunk_text_round_trip (py "  ab cd   ef g ") 2))))
           10%nat 12%nat Hword).
Defined.

End ChunkerExamples.

(** ** Parallel dispatcher *)

Section ParallelFacts.
Context `{CharDb}.
Context (predict : str → option (list str) → option (list entity)).
Import parallel_processor.

Lemma elem_of_as_completed {A} (completion : list nat) (futures : list A) x :
  x ∈ as_completed completion futures → x ∈ futures.
Proof.
  unfold as_completed. intros (i & _ & Hi)%list_elem_of_omap.
  by eapply list_elem_of_lookup_2.
Qed.

Lemma elem_of_concat {A} (x : A) (ls : list (list A)) :
  x ∈ concat ls ↔ ∃ l, l ∈ ls ∧ x ∈ l.
Proof.
  induction ls as [|l ls IH]; simpl.
  - split; [by intros ?%elem_of_nil | by intros (l & ?%elem_of_nil & _)].
  - rewrite elem_of_app, IH. split.
    + intros [Hx|(l' & Hl' & Hx)]; [exists l | exists l']; split; auto;
        [by left | by right].
    + intros (l' & [->|Hl']%elem_of_cons & Hx); [by left | right; eauto].
Qed.

(** A span inside a chunk, moved by the chunk's offset, cuts the same
    characters out of the full text. *)
Lemma slice_of_chunk (T : str) (a b : nat) (s e : Z) :
  (a ≤ b ≤ length T)%nat →
  0 ≤ s < e → e ≤ len (take (b - a) (drop a T)) →
  slice T (s + Z.of_nat a) (e + Z.of_nat a)
  = slice (take (b - a) (drop a T)) s e.
Proof.
  intros Hab Hse He.
  assert (Hlen : length (take (b - a) (drop a T)) = (b - a)%nat)
    by (rewrite length_take, length_drop; lia).
  unfold len in He. rewrite Hlen in He.
  replace s with (Z.of_nat (Z.to_nat s)) by lia.
  replace e with (Z.of_nat (Z.to_nat e)) by lia.
  rewrite <- !Nat2Z.inj_add.
  rewrite !slice_nat by lia.
  rewrite skipn_firstn_comm, take_take, drop_drop.
  f_equal; [lia | f_equal; lia].
Qed.

(** A call without workers: the executor cannot be created, and the call
    returns the empty list. *)
Lemma extract_in_parallel_no_workers (full_text : str)
  (chunk_size max_workers : Z) (categories : option (list str))
  (completion : list nat) :
  max_workers ≤ 0 →
  extract_entities_in_parallel predict full_text chunk_size max_workers
    categories completion = [].
Proof.
  intros Hw. unfold extract_entities_in_parallel.
  destruct (_ || _); [done|]. case_bool_decide; [done|].
  by rewrite (proj2 (Z.leb_le _ _) Hw).
Qed.

(** What the dispatcher returns comes from the labeler: each span is a span
    of some chunk, moved by the offset of that chunk. *)
Lemma extract_in_parallel_sound (full_text : str) (chunk_size max_workers : Z)
  (categories : option (list str)) (completion : list nat) (e' : entity) :
  e' ∈ extract_entities_in_parallel predict full_text chunk_size max_workers
         categories completion →
  ∃ c off ents e,
    (c, off) ∈ chunker.chunk_text full_text chunk_size ∧
    predict c categories = Some ents ∧ e ∈ ents ∧ moved_by off e e'.
Proof.
  unfold extract_entities_in_parallel.
  destruct (_ || _); [by intros ?%elem_of_nil|].
  case_bool_decide; [by intros ?%elem_of_nil|].
  destruct (max_workers <=? 0); [by intros ?%elem_of_nil|].
  rewrite elem_of_sort_asc.
  intros (future & Hfuture & He)%elem_of_concat.
  apply elem_of_as_completed in Hfuture.
  apply list_elem_of_fmap in Hfuture as ([c off] & -> & Hc).
  simpl in He. unfold extract_entities_for_chunk in He.
  destruct (predict c categories) as [raw|] eqn:Hraw;
    [|by apply elem_of_nil in He].
  apply list_elem_of_fmap in He as (e0 & -> & He0).
  exists c, off, raw, e0. by repeat split.
Qed.

(** With a worker, every span of the labeler comes out, moved by the offset
    of its chunk, once the worker of its chunk has finished. *)
Lemma extract_in_parallel_complete (full_text : str)
  (chunk_size max_workers : Z) (categories : option (list str))
  (completion : list nat) (c : str) (off : Z) (ents : list entity)
  (e : entity) :
  1 ≤ max_workers →
  (∀ i, (i < length (chunker.chunk_text full_text chunk_size))%nat →
        i ∈ completion) →
  (c, off) ∈ chunker.chunk_text full_text chunk_size →
  predict c categories = Some ents → e ∈ ents →
  ∃ e', e' ∈ extract_entities_in_parallel predict full_text chunk_size
               max_workers categories completion ∧
        moved_by off e e'.
Proof.
  intros Hw Hall Hc Hents He. exists (adjust off e).
  split; [|by repeat split].
  unfold extract_entities_in_parallel.
  assert (Hblank : bool_decide (full_text = [])
                   || bool_decide (strip full_text = []) = true →
                   chunker.chunk_text full_text chunk_size = []).
  { intros Hb. unfold chunker.chunk_text. by rewrite Hb. }
  destruct (_ || _).
  { rewrite Hblank in Hc by done. by apply elem_of_nil in Hc. }
  case_bool_decide as Hnil.
  { rewrite Hnil in Hc. by apply elem_of_nil in Hc. }
  destruct (Z.leb_spec max_workers 0); [lia|].
  rewrite elem_of_sort_asc. apply elem_of_concat.
  exists (extract_entities_for_chunk predict c off categories). split.
  - apply list_elem_of_lookup in Hc as [k Hk].
    unfold as_completed. apply list_elem_of_omap. exists k. split.
    + apply Hall. by apply lookup_lt_Some in Hk.
    + change (map ?f ?l) with (f <$> l).
      by rewrite list_lookup_fmap, Hk.
  - unfold extract_entities_for_chunk. rewrite Hents.
    change (map ?f ?l) with (f <$> l). apply list_elem_of_fmap. by exists e.
Qed.

(** C5. If the labeler returns, for each chunk, only spans with
    [0 <= start < end <= len(chunk)] whose [text] is [chunk[start:end]], then
    every span that [extract_entities_in_parallel] returns, in whatever order
    the workers complete, satisfies [full_text[start:end] == text] with its
    start and end moved by the chunk's offset: it is a span that the labeler
    returned for a chunk, with the offset of that chunk added to its start
    and its end; and with one worker or more, every span of the labeler
    comes out so, once the worker of its chunk has finished. *)
Theorem parallel_offsets_faithful (full_text : str)
  (chunk_size max_workers : Z) (categories : option (list str))
  (completion : list nat) :
  (∀ chunk ents e, predict chunk categories = Some ents → e ∈ ents →
     0 ≤ start e < end_ e ∧ end_ e ≤ len chunk ∧
     text e = slice chunk (start e) (end_ e)) →
  let chunks := chunker.chunk_text full_text chunk_size in
  let out :=
    extract_entities_in_parallel predict full_text chunk_size max_workers
      categories completion in
  (∀ e, e ∈ out → slice full_text (start e) (end_ e) = text e) ∧
  (∀ e', e' ∈ out →
     ∃ c off ents e, (c, off) ∈ chunks ∧ predict c categories = Some ents ∧
                     e ∈ ents ∧ moved_by off e e') ∧
  (1 ≤ max_workers →
   (∀ i, (i < length chunks)%nat → i ∈ completion) →
   ∀ c off ents e, (c, off) ∈ chunks → predict c categories = Some ents →
                   e ∈ ents → ∃ e', e' ∈ out ∧ moved_by off e e').
Proof.
  intros Hlabeler chunks out. split; [|split].
  - intros e' He'.
    destruct (extract_in_parallel_sound _ _ _ _ _ _ He')
      as (c & off & ents & e & Hc & Hents & He & Hs & Hend & _ & Ht & _).
    destruct (Hlabeler c ents e Hents He) as (Hse & Hlen & Htext).
    apply chunk_text_elem in Hc as (a & b & Hab & -> & ->).
    rewrite Hs, Hend, Ht, Htext. apply slice_of_chunk; [lia | done | done].
  - intros e'. apply extract_in_parallel_sound.
  - intros Hw Hall c off ents e.
    by apply extract_in_parallel_complete.
Qed.

End ParallelFacts.

Section ParallelExamples.
Import AsciiDb parallel_processor.

(** C5, an instance: three chunks whose workers finish out of order. The
    labeler reports the first character of the chunk ["cd"], which starts at
    offset 4, at [0:1]; it comes out at [4:5]. *)
Lemma parallel_offsets_witness :
  let out :=
    extract_entities_in_parallel first_character (py "ab  cd ef") 1 4 None
      [2; 0; 1]%nat in
  (∀ chunk ents e, first_character chunk None = Some ents → e ∈ ents →
     0 ≤ start e < end_ e ∧ end_ e ≤ len chunk ∧
     text e = slice chunk (start e) (end_ e)) ∧
  map (λ e, (text e, start e, end_ e)) out
  = [(py "a", 0, 1); (py "c", 4, 5); (py "e", 7, 8)] ∧
  Forall (λ e, slice (py "ab  cd ef") (start e) (end_ e) = text e) out ∧
  ∃ e', e' ∈ out ∧ start e' = 0 + 4 ∧ end_ e' = 1 + 4 ∧ text e' = py "c".
Proof.
  intros out.
  assert (Hlabeler : ∀ chunk ents e,
    first_character chunk None = Some ents → e ∈ ents →
    0 ≤ start e < end_ e ∧ end_ e ≤ len chunk ∧
    text e = slice chunk (start e) (end_ e)).
  { intros [|c chunk] ents e [= <-] He; [by apply elem_of_nil in He|].
    apply list_elem_of_singleton in He as ->. simpl.
    unfold len. simpl. split; [lia|]. split; [lia | done]. }
  destruct (parallel_offsets_faithful first_character (py "ab  cd ef") 1 4
              None [2; 0; 1]%nat Hlabeler) as (Hslice & _ & Hall).
  split; [exact Hlabeler|]. split; [by vm_compute|].
  split; [apply Forall_forall; exact Hslice|].
  destruct (Hall ltac:(lia)
              ltac:(intros [|[|[|i]]] Hi;
                      [by vm_compute; repeat constructor ..
                      |vm_compute in Hi; lia])
              (py "cd") 4
              [ {| label := py "initial"; text := py "c"; start := 0;
                   end_ := 1; score := 1%float; count := None |} ]
              {| label := py "initial"; text := py "c"; start := 0;
                 end_ := 1; score := 1%float; count := None |})
    as (e' & He' & Hs & He & _ & Ht & _).
  - vm_compute. apply list_elem_of_further, list_elem_of_here.
  - done.
  - apply list_elem_of_here.
  - exists e'. split; [exact He'|]. split; [exact Hs|]. split; [exact He|].
    exact Ht.
Defined.

Example parallel_three_chunks :
  map (λ e, (text e, start e, end_ e))
    (extract_entities_in_parallel first_character (py "ab  cd ef") 1 4 None
       [2; 0; 1]%nat)
  = [(py "a", 0, 1); (py "c", 4, 5); (py "e", 7, 8)].
Proof. by vm_compute. Qed.

(** Without a worker nothing comes out. *)
Example parallel_no_worker :
  extract_entities_in_parallel first_character (py "ab  cd ef") 1 0 None
    [2; 0; 1]%nat = [].
Proof. by vm_compute. Qed.

End ParallelExamples.

(** ** Comparisons of floats *)

Section FloatFacts.
Lemma SFcompare_antisym (x y : spec_float) :
  SFcompare y x = option_map CompOpp (SFcompare x y).
Proof.
  assert (Hpos : ∀ p q, PosDef.Pos.compare_cont Eq q p
                        = CompOpp (PosDef.Pos.compare_cont Eq p q)).
  { intros p q. apply (Pos.compare_antisym p q). }
  destruct x as [sx|sx| |sx mx ex], y as [sy|sy| |sy my ey]; simpl;
    try done; try (by destruct sx); try (by destruct sy);
    try (by destruct sx, sy).
  f_equal. destruct sx, sy; try done.
  - rewrite (Z.compare_antisym ex ey).
    destruct (ex ?= ey) eqn:He; simpl; try done.
    by rewrite (Hpos mx my).
  - rewrite (Z.compare_antisym ex ey).
    destruct (ex ?= ey) eqn:He; simpl; try done.
Qed.

Lemma float_ltb_asym (a b : float) :
  (a <? b)%float = true → (b <? a)%float = false.
Proof.
  rewrite !ltb_spec. unfold SFltb.
  rewrite (SFcompare_antisym (Prim2SF a) (Prim2SF b)).
  by destruct (SFcompare (Prim2SF a) (Prim2SF b)) as [[]|].
Qed.

Lemma float_eqb_not_ltb (a b : float) :
  (a =? b)%float = true → (a <? b)%float = false.
Proof.
  rewrite FloatAxioms.eqb_spec, ltb_spec. unfold SFeqb, SFltb.
  by destruct (SFcompare (Prim2SF a) (Prim2SF b)) as [[]|].
Qed.
End FloatFacts.

(** ** Validator: overlap resolution *)

Section ValidatorFacts.
Import EntityValidator.

Lemma elem_of_overlaps_of (entity1 : entity) (i j : nat) (rest : list entity) p q :
  (p, q) ∈ overlaps_of entity1 i j rest ↔
  p = i ∧ ∃ q' entity2, q = (j + q')%nat ∧ rest !! q' = Some entity2 ∧
                        _entities_overlap entity1 entity2 = true.
Proof.
  revert j. induction rest as [|e rest IH]; intros j; simpl.
  - split; [by intros ?%elem_of_nil | by intros (_ & ? & ? & _ & ? & _)].
  - assert (Hrest : (p, q) ∈ overlaps_of entity1 i (S j) rest ↔
      p = i ∧ ∃ q' entity2, q = (j + S q')%nat ∧ rest !! q' = Some entity2 ∧
                            _entities_overlap entity1 entity2 = true).
    { rewrite IH. split; intros (-> & q' & e2 & -> & ? & ?);
        (split; [done|]; exists q', e2; split; [lia | done]). }
    destruct (_entities_overlap entity1 e) eqn:Ho.
    + rewrite elem_of_cons, Hrest. split.
      * intros [[= -> ->]|(-> & q' & e2 & -> & ? & ?)].
        -- split; [done|]. exists O, e. split; [lia | done].
        -- split; [done|]. by exists (S q'), e2.
      * intros (-> & [|q'] & e2 & -> & Hl & Hov); simpl in Hl.
        -- left. f_equal. lia.
        -- right. split; [done|]. by exists q', e2.
    + rewrite Hrest. split.
      * intros (-> & q' & e2 & -> & ? & ?). split; [done|]. by exists (S q'), e2.
      * intros (-> & [|q'] & e2 & -> & Hl & Hov); simpl in Hl.
        -- congruence.
        -- split; [done|]. by exists q', e2.
Qed.

Lemma elem_of_detect_from (i : nat) (entities : list entity) p q :
  (p, q) ∈ detect_from i entities ↔
  ∃ p' q' entity1 entity2,
    p = (i + p')%nat ∧ q = (i + q')%nat ∧ (p' < q')%nat ∧
    entities !! p' = Some entity1 ∧ entities !! q' = Some entity2 ∧
    _entities_overlap entity1 entity2 = true.
Proof.
  revert i. induction entities as [|e entities IH]; intros i; simpl.
  - split; [by intros ?%elem_of_nil | by intros (? & ? & ? & ? & _ & _ & _ & ? & _)].
  - rewrite elem_of_app, elem_of_overlaps_of, IH. split.
    + intros [(-> & q' & e2 & -> & Hl & Hov)
             |(p' & q' & e1 & e2 & -> & -> & Hlt & H1 & H2 & Hov)].
      * exists O, (S q'), e, e2. repeat split; try done; lia.
      * exists (S p'), (S q'), e1, e2. repeat split; try done; lia.
    + intros ([|p'] & q' & e1 & e2 & -> & -> & Hlt & H1 & H2 & Hov).
      * left. destruct q' as [|q']; [lia|]. simpl in *.
        injection H1 as <-. split; [lia|]. exists q', e2.
        split; [lia | done].
      * right. destruct q' as [|q']; [lia|]. simpl in *.
        exists p', q', e1, e2. repeat split; try done; lia.
Qed.

(** [_detect_overlaps] lists exactly the pairs of positions, first below
    second, whose spans overlap. *)
Lemma elem_of_detect_overlaps (entities : list entity) p q :
  (p, q) ∈ _detect_overlaps entities ↔
  ∃ entity1 entity2,
    (p < q)%nat ∧ entities !! p = Some entity1 ∧ entities !! q = Some entity2 ∧
    _entities_overlap entity1 entity2 = true.
Proof.
  unfold _detect_overlaps. rewrite elem_of_detect_from. split.
  - intros (p' & q' & e1 & e2 & -> & -> & ? & ? & ? & ?). by exists e1, e2.
  - intros (e1 & e2 & ? & ? & ? & ?). by exists p, q, e1, e2.
Qed.

Lemma index_to_remove_cases (strategy : str) idx1 idx2 e1 e2 :
  index_to_remove strategy idx1 idx2 e1 e2 = idx1 ∨
  index_to_remove strategy idx1 idx2 e1 e2 = idx2.
Proof.
  unfold index_to_remove.
  destruct (decide _); [destruct (_ <? _)%float; auto|].
  destruct (decide _); [destruct (_ <? _); auto|]. auto.
Qed.

Lemma resolve_pair_spec (strategy : str) (entities : list entity) R p q R' :
  resolve_pair strategy entities R (p, q) = Some R' →
  R ⊆ R' ∧ (p ∈ R' ∨ q ∈ R').
Proof.
  unfold resolve_pair.
  case_bool_decide as Hp; simpl; [intros [= <-]; auto|].
  case_bool_decide as Hq; simpl; [intros [= <-]; auto|].
  destruct (entities !! p) as [e1|]; [|done].
  destruct (entities !! q) as [e2|]; [|done].
  intros [= <-]. split; [apply union_subseteq_r|].
  destruct (index_to_remove_cases strategy p q e1 e2) as [-> | ->];
    [left | right]; apply elem_of_union_l; by apply elem_of_singleton.
Qed.

Lemma resolve_pairs_spec (strategy : str) (entities : list entity) overlaps R R' :
  resolve_pairs strategy entities R overlaps = Some R' →
  R ⊆ R' ∧ ∀ p q, (p, q) ∈ overlaps → p ∈ R' ∨ q ∈ R'.
Proof.
  revert R. induction overlaps as [|[p q] overlaps IH]; intros R;
    cbn [resolve_pairs].
  - intros [= <-]. split; [done|]. by intros p q ?%elem_of_nil.
  - destruct (resolve_pair strategy entities R (p, q)) as [R1|] eqn:H1; [|done].
    intros H2. apply resolve_pair_spec in H1 as [Hsub Hpq].
    apply IH in H2 as [Hsub' Hall]. split; [by etrans|].
    intros p' q' [[= -> ->]|Hin]%elem_of_cons; [|by apply Hall].
    destruct Hpq as [Hp|Hq]; [left | right]; by apply Hsub'.
Qed.

Lemma resolve_pairs_total (strategy : str) (entities : list entity) overlaps R :
  (∀ p q, (p, q) ∈ overlaps →
     is_Some (entities !! p) ∧ is_Some (entities !! q)) →
  is_Some (resolve_pairs strategy entities R overlaps).
Proof.
  revert R. induction overlaps as [|[p q] overlaps IH]; intros R Hin;
    cbn [resolve_pairs].
  - by eexists.
  - destruct (Hin p q) as [[e1 H1] [e2 H2]]; [by left|].
    assert (Hs : is_Some (resolve_pair strategy entities R (p, q))).
    { unfold resolve_pair. rewrite H1, H2. destruct (_ || _); by eexists. }
    destruct Hs as [R1 ->]. apply IH. intros p' q' Hin'. apply Hin. by right.
Qed.

Lemma resolve_pairs_app (strategy : str) (entities : list entity) R l1 l2 :
  resolve_pairs strategy entities R (l1 ++ l2)
  = resolve_pairs strategy entities R l1
    ≫= λ R1, resolve_pairs strategy entities R1 l2.
Proof.
  revert R. induction l1 as [|x l1 IH]; intros R; cbn [resolve_pairs app];
    [done|].
  destruct (resolve_pair strategy entities R x); simpl; [apply IH | done].
Qed.

Lemma keep_from_lookup (i : nat) (R : gset nat) (entities : list entity) k x :
  keep_from i R entities !! k = Some x →
  ∃ p, entities !! p = Some x ∧ ((i + p)%nat ∉ R) ∧
       keep_from (i + S p) R (drop (S p) entities) = drop (S k) (keep_from i R entities).
Proof.
  revert i k. induction entities as [|e entities IH]; intros i k; simpl; [done|].
  case_bool_decide as Hi.
  - intros Hk. apply IH in Hk as (p & Hp & HR & Hrest). exists (S p).
    split; [done|]. split; [by replace (i + S p)%nat with (S i + p)%nat by lia|].
    simpl. by replace (i + S (S p))%nat with (S i + S p)%nat by lia.
  - destruct k as [|k]; simpl.
    + intros [= <-]. exists O. rewrite Nat.add_0_r. split; [done|]. split; [done|].
      simpl. rewrite drop_0. by replace (i + 1)%nat with (S i) by lia.
    + intros Hk. apply IH in Hk as (p & Hp & HR & Hrest). exists (S p).
      split; [done|]. split; [by replace (i + S p)%nat with (S i + p)%nat by lia|].
      simpl. by replace (i + S (S p))%nat with (S i + S p)%nat by lia.
Qed.

Lemma keep_from_lookup_pair (R : gset nat) (entities : list entity) k1 k2 x y :
  (k1 < k2)%nat →
  keep_from 0 R entities !! k1 = Some x →
  keep_from 0 R entities !! k2 = Some y →
  ∃ p1 p2, (p1 < p2)%nat ∧ entities !! p1 = Some x ∧ entities !! p2 = Some y ∧
           (p1 ∉ R) ∧ (p2 ∉ R).
Proof.
  intros Hk H1 H2.
  apply keep_from_lookup in H1 as (p1 & Hp1 & HR1 & Hrest).
  assert (H2' : drop (S k1) (keep_from 0 R entities) !! (k2 - S k1)%nat = Some y).
  { rewrite lookup_drop. by replace (S k1 + (k2 - S k1))%nat with k2 by lia. }
  rewrite <- Hrest in H2'. apply keep_from_lookup in H2' as (p2 & Hp2 & HR2 & _).
  rewrite lookup_drop in Hp2.
  exists p1, (S p1 + p2)%nat. simpl in *.
  split; [lia|]. split; [done|]. split; [done|]. split; done.
Qed.

Lemma resolve_overlaps_unfold (entities : list entity) (strategy : str) :
  ∃ R, resolve_pairs strategy entities ∅ (_detect_overlaps entities) = Some R ∧
       resolve_overlaps entities strategy = keep_from 0 R entities.
Proof.
  destruct (resolve_pairs_total strategy entities (_detect_overlaps entities) ∅)
    as [R HR].
  { intros p q (e1 & e2 & _ & H1 & H2 & _)%elem_of_detect_overlaps.
    split; by eexists. }
  exists R. split; [done|]. unfold resolve_overlaps.
  case_bool_decide as Hnil.
  { subst entities. done. }
  case_bool_decide as Hov; [|by rewrite HR].
  rewrite Hov in HR. injection HR as <-.
  clear. generalize O. induction entities as [|e l IH]; intros i; simpl; [done|].
  case_bool_decide as Hi; [by apply not_elem_of_empty in Hi|].
  by rewrite <- IH.
Qed.

(** C3. After [resolve_overlaps], under every strategy name, two spans at
    different positions of the output never overlap: one of them ends no
    later than the other starts. *)
Theorem resolve_overlaps_no_overlap (entities : list entity) (strategy : str)
  (k1 k2 : nat) (span1 span2 : entity) :
  k1 ≠ k2 →
  resolve_overlaps entities strategy !! k1 = Some span1 →
  resolve_overlaps entities strategy !! k2 = Some span2 →
  end_ span1 ≤ start span2 ∨ end_ span2 ≤ start span1.
Proof.
  assert (Hordered : ∀ k1 k2 span1 span2, (k1 < k2)%nat →
    resolve_overlaps entities strategy !! k1 = Some span1 →
    resolve_overlaps entities strategy !! k2 = Some span2 →
    _entities_overlap span1 span2 = false).
  { clear. intros k1 k2 span1 span2 Hk H1 H2.
    destruct (resolve_overlaps_unfold entities strategy) as (R & HR & Heq).
    rewrite Heq in H1, H2.
    destruct (keep_from_lookup_pair R entities k1 k2 span1 span2 Hk H1 H2)
      as (p1 & p2 & Hp & Hl1 & Hl2 & Hn1 & Hn2).
    destruct (_entities_overlap span1 span2) eqn:Hov; [|done].
    apply resolve_pairs_spec in HR as [_ Hall].
    destruct (Hall p1 p2); [|done|done].
    apply elem_of_detect_overlaps. by exists span1, span2. }
  intros Hne H1 H2.
  destruct (Nat.lt_total k1 k2) as [Hlt|[->|Hlt]]; [|done|].
  - pose proof (Hordered _ _ _ _ Hlt H1 H2) as Hov.
    unfold _entities_overlap in Hov.
    apply negb_false_iff, orb_true_iff in Hov as [?%Z.leb_le|?%Z.leb_le]; auto.
  - pose proof (Hordered _ _ _ _ Hlt H2 H1) as Hov.
    unfold _entities_overlap in Hov.
    apply negb_false_iff, orb_true_iff in Hov as [?%Z.leb_le|?%Z.leb_le]; auto.
Qed.

(** C7 (as amended). Under [highest_confidence], when the loop reaches a
    detected pair neither member of which is already marked, it marks the
    first span if its score is below the second's and the second span
    otherwise: the lower-scoring span of the pair is dropped, and on equal
    scores the second span is dropped and the first is kept. The mark stays
    until the end of the loop, and the output is the input without the
    marked positions. *)
Theorem highest_confidence_tie_break (entities : list entity)
  (before after : list (nat * nat)) (idx1 idx2 : nat) (marked : gset nat)
  (entity1 entity2 : entity) :
  _detect_overlaps entities = before ++ (idx1, idx2) :: after →
  resolve_pairs (py "highest_confidence") entities ∅ before = Some marked →
  idx1 ∉ marked → idx2 ∉ marked →
  entities !! idx1 = Some entity1 → entities !! idx2 = Some entity2 →
  let dropped :=
    if (score entity1 <? score entity2)%float then idx1 else idx2 in
  resolve_pairs (py "highest_confidence") entities ∅ (before ++ [(idx1, idx2)])
  = Some ({[dropped]} ∪ marked) ∧
  (∃ to_remove,
     resolve_pairs (py "highest_confidence") entities ∅
       (_detect_overlaps entities) = Some to_remove ∧
     dropped ∈ to_remove ∧
     resolve_overlaps entities (py "highest_confidence")
     = keep_from 0 to_remove entities) ∧
  ((score entity1 <? score entity2)%float = true → dropped = idx1) ∧
  ((score entity2 <? score entity1)%float = true → dropped = idx2) ∧
  ((score entity1 =? score entity2)%float = true → dropped = idx2).
Proof.
  intros Hsplit Hbefore Hn1 Hn2 H1 H2 dropped.
  assert (Hstep : resolve_pair (py "highest_confidence") entities marked
                    (idx1, idx2) = Some ({[dropped]} ∪ marked)).
  { unfold resolve_pair. rewrite !bool_decide_eq_false_2 by done. simpl.
    rewrite H1, H2. unfold index_to_remove.
    by rewrite decide_True by done. }
  split; [|split; [|split; [|split]]].
  - rewrite resolve_pairs_app, Hbefore. cbn [mbind option_bind resolve_pairs].
    by rewrite Hstep.
  - destruct (resolve_overlaps_unfold entities (py "highest_confidence"))
      as (R & HR & Heq).
    exists R. split; [done|]. split; [|done].
    rewrite Hsplit in HR. rewrite resolve_pairs_app, Hbefore in HR.
    cbn [mbind option_bind resolve_pairs] in HR. rewrite Hstep in HR.
    apply resolve_pairs_spec in HR as [Hsub _].
    apply Hsub, elem_of_union_l. by apply elem_of_singleton.
  - unfold dropped. by intros ->.
  - unfold dropped. intros Hlt. by rewrite (float_ltb_asym _ _ Hlt).
  - unfold dropped. intros Heq. by rewrite (float_eqb_not_ltb _ _ Heq).
Qed.

End ValidatorFacts.

Section ValidatorExamples.
Import EntityValidator.

(** C7, counterexample: on equal scores the second span of the pair is the
    one dropped, not the one kept. *)
Lemma highest_confidence_tie_keeps_first :
  _detect_overlaps [tied_first; tied_second] = [(0, 1)%nat] ∧
  (score tied_first =? score tied_second)%float = true ∧
  resolve_overlaps [tied_first; tied_second] (py "highest_confidence")
  = [tied_first].
Proof. by vm_compute. Qed.

(** C7, an instance: the tied pair above. *)
Lemma highest_confidence_tie_break_witness :
  (_detect_overlaps [tied_first; tied_second] = [] ++ [(0, 1)%nat]) ∧
  resolve_pairs (py "highest_confidence") [tied_first; tied_second] ∅ []
  = Some ∅ ∧
  (∃ to_remove,
     resolve_pairs (py "highest_confidence") [tied_first; tied_second] ∅
       (_detect_overlaps [tied_first; tied_second]) = Some to_remove ∧
     1%nat ∈ to_remove ∧
     resolve_overlaps [tied_first; tied_second] (py "highest_confidence")
     = keep_from 0 to_remove [tied_first; tied_second]).
Proof.
  split; [by vm_compute|]. split; [done|].
  exact (proj1 (proj2
    (highest_confidence_tie_break [tied_first; tied_second] [] []
       0%nat 1%nat ∅ tied_first tied_second eq_refl eq_refl
       (not_elem_of_empty _) (not_elem_of_empty _) eq_refl eq_refl))).
Defined.

(** C3, an instance: three spans, each overlapping the next. *)
Lemma resolve_overlaps_no_overlap_witness :
  resolve_overlaps [tied_first; tied_second; third_span] (py "first")
  = [tied_first; third_span] ∧
  (end_ tied_first ≤ start third_span ∨ end_ third_span ≤ start tied_first).
Proof.
  split; [by vm_compute|].
  apply (resolve_overlaps_no_overlap [tied_first; tied_second; third_span]
           (py "first") 0%nat 1%nat);
    [lia | by vm_compute | by vm_compute].
Defined.

End ValidatorExamples.

(** ** Merger *)

Section MergerFacts.
Context `{CharDb}.
Import EntityMerger.

(** C9. Given exactly the two spans [{label "person", start 0, end 4,
    score s1}] and [{label "person", start 5, end 10, score s2}], in either
    order and whatever their other keys hold, [merge] with [max_gap] 1
    returns the single span that starts at 0, ends at 10, has the text
    [text[0:10].strip()] and the score [(s1 * 1 + s2) / 2], and has no
    [count] key. (The length of the source text plays no part.) *)
Theorem merge_adjacent_pair (text_ : str) (s1 s2 : float) (t1 t2 : str)
  (c1 c2 : option Z) :
  let span1 := {| label := py "person"; text := t1; start := 0; end_ := 4;
                  score := s1; count := c1 |} in
  let span2 := {| label := py "person"; text := t2; start := 5; end_ := 10;
                  score := s2; count := c2 |} in
  let merged := {| label := py "person"; text := strip (slice text_ 0 10);
                   start := 0; end_ := 10;
                   score := ((s1 * 1 + s2) / 2)%float; count := None |} in
  merge 1 [span1; span2] text_ = [merged] ∧
  merge 1 [span2; span1] text_ = [merged].
Proof. split; reflexivity. Qed.

End MergerFacts.

Section MergerExamples.
Import AsciiDb EntityMerger.

Example merge_john_smith :
  merge 1
    [ {| label := py "person"; text := py "Smith"; start := 5; end_ := 10;
         score := 0.25%float; count := None |};
      {| label := py "person"; text := py "John"; start := 0; end_ := 4;
         score := 0.75%float; count := None |} ]
    (py "John Smith met John")
  = [ {| label := py "person"; text := py "John Smith"; start := 0;
         end_ := 10; score := 0.5%float; count := None |} ].
Proof. by vm_compute. Qed.

End MergerExamples.

(** ** Redactor *)

Section RedactorFacts.
Context `{CharDb}.
Import EntityRedactor.

Lemma py_inj : Inj (=) (=) py.
Proof.
  intros s1 s2 Hs. unfold py in Hs.
  rewrite <- (string_of_list_ascii_of_string s1),
          <- (string_of_list_ascii_of_string s2). by rewrite Hs.
Qed.

Lemma str_of_nat_inj : Inj (=) (=) str_of_nat.
Proof.
  intros n1 n2 Hn. unfold str_of_nat, str_of_N in Hn.
  apply py_inj in Hn. apply (inj pretty) in Hn. lia.
Qed.

Lemma next_candidate_scan (used_ids : gset str) (fuel c : nat) :
  let n := next_candidate used_ids fuel c in
  (c ≤ n)%nat ∧ (∀ m, (c ≤ m < n)%nat → str_of_nat m ∈ used_ids) ∧
  (str_of_nat n ∉ used_ids ∨ n = (c + fuel)%nat).
Proof.
  revert c. induction fuel as [|fuel IH]; intros c; simpl.
  - split; [lia|]. split; [intros m Hm; lia | right; lia].
  - case_bool_decide as Hc.
    + destruct (IH (S c)) as (Hle & Hall & Hend). split; [lia|]. split.
      * intros m Hm. destruct (decide (m = c)) as [->|Hne]; [done|].
        apply Hall. lia.
      * destruct Hend as [? | ->]; [by left | right; lia].
    + split; [lia|]. split; [intros m Hm; lia | by left].
Qed.

Lemma used_ids_pigeonhole (used_ids : gset str) :
  (∀ m, (1 ≤ m < size used_ids + 2)%nat → str_of_nat m ∈ used_ids) → False.
Proof.
  intros Hall.
  set (l := str_of_nat <$> seq 1 (S (size used_ids))).
  assert (Hnd : NoDup l).
  { apply NoDup_fmap_2; [apply str_of_nat_inj | apply NoDup_seq]. }
  assert (Hsub : list_to_set (C := gset str) l ⊆ used_ids).
  { intros s Hs. apply elem_of_list_to_set in Hs.
    apply list_elem_of_fmap in Hs as (m & -> & Hm).
    apply elem_of_seq in Hm. apply Hall. lia. }
  apply subseteq_size in Hsub.
  rewrite size_list_to_set in Hsub by done.
  unfold l in Hsub. rewrite length_fmap, length_seq in Hsub. lia.
Qed.

(** The loop of [_generate_unique_id] ends on the smallest positive integer
    whose decimal string is not in [used_ids]. *)
Lemma next_candidate_spec (used_ids : gset str) :
  let n := next_candidate used_ids (S (size used_ids)) 1 in
  (1 ≤ n)%nat ∧ (str_of_nat n ∉ used_ids) ∧
  (∀ m, (1 ≤ m < n)%nat → str_of_nat m ∈ used_ids).
Proof.
  intros n. destruct (next_candidate_scan used_ids (S (size used_ids)) 1)
    as (Hle & Hall & Hend). fold n in Hle, Hall, Hend.
  split; [done|]. split; [|done].
  destruct Hend as [?|Hn]; [done|]. exfalso.
  apply (used_ids_pigeonhole used_ids). intros m Hm. apply Hall. lia.
Qed.

Lemma _generate_unique_id_spec (lbl : str) (r : redactor) :
  ∃ n, (_generate_unique_id lbl r).1 = str_of_nat n ∧ (1 ≤ n)%nat ∧
       (str_of_nat n ∉ used_for r lbl) ∧
       (∀ m, (1 ≤ m < n)%nat → str_of_nat m ∈ used_for r lbl) ∧
       used_for (_generate_unique_id lbl r).2 lbl
       = {[str_of_nat n]} ∪ used_for r lbl ∧
       (∀ lbl', lbl' ≠ lbl →
          used_for (_generate_unique_id lbl r).2 lbl' = used_for r lbl').
Proof.
  unfold _generate_unique_id, used_for. simpl.
  set (used_ids := default ∅ (used_ids_per_label r !! lbl)).
  destruct (next_candidate_spec used_ids) as (H1 & H2 & H3).
  eexists. split; [done|]. split; [done|]. split; [done|]. split; [done|].
  split.
  - by rewrite lookup_insert_eq.
  - intros lbl' Hne. by rewrite lookup_insert_ne.
Qed.


Lemma build_step_known m r (e : entity) s :
  m !! entity_key e = Some s → build_step (m, r) e = (m, r).
Proof. unfold build_step, entity_key. by intros ->. Qed.

Lemma build_step_fresh m r (e : entity) :
  m !! entity_key e = None →
  build_step (m, r) e
  = (<[entity_key e := (_generate_unique_id (upper (label e)) r).1]> m,
     (_generate_unique_id (upper (label e)) r).2).
Proof.
  unfold build_step, entity_key. intros ->.
  by destruct (_generate_unique_id (upper (label e)) r).
Qed.



Lemma build_steps_subseteq (l : list entity) m r :
  m ⊆ (foldl build_step (m, r) l).1.
Proof.
  revert m r. induction l as [|e l IH]; intros m r; cbn [foldl]; [done|].
  destruct (m !! entity_key e) as [s|] eqn:Hk.
  - rewrite (build_step_known m r e s Hk). apply IH.
  - rewrite (build_step_fresh m r e Hk). etrans; [|apply IH].
    by apply insert_subseteq.
Qed.

Lemma redact_steps_details (format_str : template) (m : gmap (str * str) str)
  (l : list entity) (st : redact_state) :
  redaction_details (foldl (redact_step true format_str true m) st l)
  = redaction_details st ++ omap (recorded format_str m) l.
Proof.
  revert st. induction l as [|e l IH]; intros st; cbn [foldl omap list_omap].
  - by rewrite app_nil_r.
  - rewrite IH. unfold redact_step, recorded. fold (entity_key e).
    destruct (m !! entity_key e) as [i|]; cbn [mbind option_bind]; [|done].
    destruct (format_str i (upper (label e))) as [p|];
      cbn [mbind option_bind]; [|done].
    cbn [apply_redaction redaction_details]. by rewrite <- app_assoc.
Qed.


End RedactorFacts.

Section RedactorExamples.
Import AsciiDb EntityRedactor.

(** Scenario A of the specification. *)
Example redact_scenario_a :
  let result :=
    (redact new (py "John Smith met John Smith again in Paris.")
       [span "person" "John Smith" 0 10; span "person" "John Smith" 15 25;
        span "location" "Paris" 35 40]
       true default_format true).1 in
  anonymized_text result
  = py "#1_PERSON_REDACTED met #1_PERSON_REDACTED again in #1_LOCATION_REDACTED."
  ∧ map redaction_id (replacements result) = [py "1"; py "1"; py "1"].
Proof. by vm_compute. Qed.


(** Ids are kept per upper-cased label: pairs whose labels differ in case
    only share one sequence of ids. *)
Example redact_mixed_case_labels :
  map (λ d, (rd_label d, original d, redaction_id d))
    (replacements
       (redact new (py "Ann Bob Cid")
          [span "person" "Ann" 0 3; span "Person" "Bob" 4 7;
           span "person" "Cid" 8 11]
          true default_format true).1)
  = [(py "PERSON", py "Ann", py "1"); (py "PERSON", py "Bob", py "2");
     (py "PERSON", py "Cid", py "3")].
Proof. by vm_compute. Qed.

(** C1, the failing input: the same entity in two texts of a batch. The
    numbering of [batch_redact] gives the pair the id 1, which [redact] never
    reads; each call of [redact] builds its own id map and draws the next
    unused id, 2 for the first text and 3 for the second. *)
Lemma batch_redact_renumbers :
  let john := span "person" "John" 0 4 in
  (λ r, (map (λ x, (anonymized_text x, map redaction_id (replacements x))) r.1,
         used_ids_per_label r.2 !! py "PERSON"))
    <$> batch_redact new [py "John"; py "John"] [[john]; [john]]
          true default_format true
  = Some ([(py "#2_PERSON_REDACTED", [py "2"]);
           (py "#3_PERSON_REDACTED", [py "3"])],
          Some {[py "1"; py "2"; py "3"]}).
Proof. by vm_compute. Qed.

End RedactorExamples.

(** ** The [random] module and the default strategy *)

Lemma pretty_N_go_ne_empty (x : N) (s : string) :
  s ≠ EmptyString → pretty_N_go x s ≠ EmptyString.
Proof.
  revert s. induction (N.lt_wf_0 x) as [x _ IH]; intros s Hs.
  assert (x = 0 ∨ 0 < x)%N as [->|Hx] by lia.
  - by rewrite pretty_N_go_0.
  - rewrite pretty_N_go_step by done. apply IH; [|done].
    by apply N.div_lt.
Qed.

Lemma str_of_N_nonempty (n : N) : str_of_N n ≠ [].
Proof.
  unfold str_of_N, pretty, pretty_N.
  destruct (decide (n = 0)%N) as [->|Hn]; [done|].
  assert (Hgo : pretty_N_go n "" ≠ EmptyString).
  { rewrite pretty_N_go_step by lia. by apply pretty_N_go_ne_empty. }
  destruct (pretty_N_go n "") eqn:Hp; [done|]. done.
Qed.

Section RandomFacts.
Context {W : Type} (next_random : W → N * W).

Lemma randbelow_lt (n : N) (w : W) :
  (0 < n)%N → ((randbelow next_random n w).1 < n)%N.
Proof.
  intros Hn. unfold randbelow. destruct (next_random w) as [x w']. simpl.
  apply N.mod_lt. lia.
Qed.

Lemma choice_elem {A} (d : A) (seq : list A) (w : W) :
  seq ≠ [] → (choice next_random d seq w).1 ∈ seq.
Proof.
  intros Hseq. unfold choice.
  pose proof (randbelow_lt (N.of_nat (length seq)) w) as Hlt.
  destruct (randbelow next_random (N.of_nat (length seq)) w) as [i w'].
  simpl in *. apply list_elem_of_In, nth_In.
  destruct seq; [done|]. simpl in *. lia.
Qed.

Lemma choices_spec {A} (d : A) (population : list A) (k : nat) (w : W) :
  length (choices next_random d population k w).1 = k ∧
  (population ≠ [] →
   ∀ x, x ∈ (choices next_random d population k w).1 → x ∈ population).
Proof.
  revert w. induction k as [|k IH]; intros w; simpl.
  - split; [done|]. by intros _ x ?%elem_of_nil.
  - pose proof (choice_elem d population w) as Hc.
    destruct (choice next_random d population w) as [x w1].
    destruct (IH w1) as [Hlen Hin].
    destruct (choices next_random d population k w1) as [xs w2].
    simpl in *. split; [by rewrite Hlen|].
    intros Hne y [->|Hy]%elem_of_cons; auto.
Qed.

Lemma map_random_spec (f : ascii → W → ascii * W) (s : str) (w : W) :
  length (map_random f s w).1 = length s ∧
  ∀ i c c', s !! i = Some c → (map_random f s w).1 !! i = Some c' →
            ∃ w', c' = (f c w').1.
Proof.
  revert w. induction s as [|c0 s IH]; intros w; simpl.
  - split; [done|]. by intros i c c' ?.
  - destruct (f c0 w) as [c1 w1] eqn:Hf.
    destruct (IH w1) as [Hlen Hat].
    destruct (map_random f s w1) as [r w2]. simpl in *.
    split; [by rewrite Hlen|].
    intros [|i] c c'; simpl.
    + intros [= <-] [= <-]. exists w. by rewrite Hf.
    + apply Hat.
Qed.
End RandomFacts.

Section DefaultFacts.
Context `{CharDb} {W : Type} (next_random : W → N * W).
Import DefaultReplacementStrategy.

Lemma replace_letter_spec (c : ascii) (w : W) :
  let c' := (replace_letter next_random c w).1 in
  (isupper c = true → c' ∈ ascii_uppercase) ∧
  (isupper c = false → islower c = true → c' ∈ ascii_lowercase) ∧
  (isupper c = false → islower c = false → c' = c).
Proof.
  unfold replace_letter.
  destruct (isupper c); [|destruct (islower c)]; simpl;
    (split; [|split]); try done; intros; by apply choice_elem.
Qed.

Lemma replace_alnum_spec (c : ascii) (w : W) :
  let c' := (replace_alnum next_random c w).1 in
  (isdigit c = true → c' ∈ digits) ∧
  (isdigit c = false → isalpha c = true → isupper c = true →
   c' ∈ ascii_uppercase) ∧
  (isdigit c = false → isalpha c = true → isupper c = false →
   c' ∈ ascii_lowercase) ∧
  (isdigit c = false → isalpha c = false → c' = c).
Proof.
  unfold replace_alnum.
  destruct (isdigit c); [|destruct (isalpha c); [destruct (isupper c)|]];
    simpl; (split; [|split; [|split]]); try done; intros;
    by apply choice_elem.
Qed.

Lemma replacement_patterns_None (lbl : str) :
  lbl ∉ pattern_labels → replacement_patterns next_random lbl = None.
Proof.
  intros Hl. unfold replacement_patterns.
  repeat (case_decide;
          [exfalso; apply Hl; subst lbl; unfold pattern_labels;
           repeat first [by apply list_elem_of_here | apply list_elem_of_further]|]).
  done.
Qed.

Lemma app_nonempty_r {A} (l1 l2 : list A) : l2 ≠ [] → l1 ++ l2 ≠ [].
Proof. intros H2 [_ ->]%app_eq_nil. done. Qed.

Lemma replacement_patterns_nonempty (lbl : str) generate (w : W) :
  replacement_patterns next_random lbl = Some generate →
  (generate w).1 ≠ [].
Proof.
  unfold replacement_patterns.
  repeat case_decide; intros [= <-].
  - unfold _generate_email.
    destruct (randint _ _ _ _) as [k w1].
    destruct (choices _ _ _ _ _) as [username w2].
    destruct (choice _ _ _ _) as [domain w3]. simpl.
    by apply app_nonempty_r.
  - unfold _generate_phone.
    destruct (randint _ _ _ _) as [a w1].
    destruct (randint _ _ _ w1) as [b w2].
    destruct (randint _ _ _ w2) as [c w3]. done.
  - unfold _generate_ssn.
    destruct (randint _ _ _ _) as [a w1].
    destruct (randint _ _ _ w1) as [b w2].
    destruct (randint _ _ _ w2) as [c w3]. simpl.
    by apply app_nonempty_r.
  - unfold _generate_id.
    pose proof (choices_spec next_random "0"%char ascii_uppercase 2 w) as [Hl _].
    destruct (choices _ _ ascii_uppercase _ _) as [letters w1].
    destruct (choices _ _ _ _ _) as [numbers w2]. simpl in *.
    destruct letters; [done|]. done.
  - unfold _generate_number.
    destruct (randint _ _ _ _) as [n w1]. simpl. apply str_of_N_nonempty.
  - unfold _generate_code.
    pose proof (choices_spec next_random "0"%char (ascii_uppercase ++ digits)
                  8 w) as [Hl _].
    destruct (choices _ _ _ _ _) as [code w1]. simpl in *.
    destruct code; [done|]. done.
  - unfold _generate_username.
    destruct (choice _ _ _ _) as [prefix w1].
    destruct (randint _ _ _ _) as [suffix w2]. simpl.
    apply app_nonempty_r, str_of_N_nonempty.
Qed.

(** C8 (as amended). [get_replacement] of the default strategy returns a
    non-empty string for every entity. For a label that, lower-cased, is
    none of the seven labels with a generator of their own ([email],
    [phone], [ssn], [id], [number], [code], [username]): when the text has
    an alphanumeric character, the result has the length of the text, a
    digit is replaced by one of [0..9], an upper-case letter by one of
    [A..Z], a lower-case letter by one of [a..z], and a character that is
    neither a digit nor a letter is left as it is; when the text has no
    alphanumeric character, the result is the label upper-cased between
    [[] and [_REDACTED]]. The character tests are those of the character
    database, in which no digit is a letter. *)
Theorem default_replacement_structure (e : entity) (w : W) :
  (∀ c, isdigit c = true → isalpha c = false) →
  let r := (get_replacement next_random e w).1 in
  r ≠ [] ∧
  (lower (label e) ∉ pattern_labels →
   (existsb isalnum (text e) = true →
    length r = length (text e) ∧
    ∀ i c c', text e !! i = Some c → r !! i = Some c' →
      (isdigit c = true → c' ∈ digits) ∧
      (isalpha c = true → isupper c = true → c' ∈ ascii_uppercase) ∧
      (isalpha c = true → isupper c = false → islower c = true →
       c' ∈ ascii_lowercase) ∧
      (isdigit c = false → isalpha c = false → c' = c)) ∧
   (existsb isalnum (text e) = false →
    r = redacted_placeholder (lower (label e)))).
Proof.
  intros Hdisj r.
  assert (Hgeneric : ∀ lbl,
    let g := (_generate_generic_replacement next_random (text e) lbl w).1 in
    g ≠ [] ∧
    (existsb isalnum (text e) = true →
     length g = length (text e) ∧
     ∀ i c c', text e !! i = Some c → g !! i = Some c' →
       (isdigit c = true → c' ∈ digits) ∧
       (isalpha c = true → isupper c = true → c' ∈ ascii_uppercase) ∧
       (isalpha c = true → isupper c = false → islower c = true →
        c' ∈ ascii_lowercase) ∧
       (isdigit c = false → isalpha c = false → c' = c)) ∧
    (existsb isalnum (text e) = false → g = redacted_placeholder lbl)).
  { intros lbl g. unfold _generate_generic_replacement in g.
    destruct (str_isdigit (text e)) eqn:Hd.
    - (* digits only *)
      apply andb_true_iff in Hd as [Hall Hne].
      apply negb_true_iff, bool_decide_eq_false in Hne.
      pose proof (choices_spec next_random "0"%char digits
                    (length (text e)) w) as [Hlen Hin].
      fold g in Hlen, Hin.
      assert (Hdig : ∀ i c, text e !! i = Some c → isdigit c = true).
      { intros i c Hc. rewrite forallb_forall in Hall.
        by apply Hall, list_elem_of_In, (list_elem_of_lookup_2 _ i). }
      split; [|split].
      + intros Hg. rewrite Hg in Hlen. by destruct (text e).
      + intros _. split; [done|]. intros i c c' Hc Hc'.
        pose proof (Hdig i c Hc) as Hcd.
        split; [|split; [|split]].
        * intros _. apply Hin; [done|]. by eapply list_elem_of_lookup_2.
        * rewrite (Hdisj c Hcd). done.
        * rewrite (Hdisj c Hcd). done.
        * congruence.
      + intros Hno. exfalso. destruct (text e) as [|c t] eqn:Ht; [done|].
        simpl in Hno, Hall. apply andb_true_iff in Hall as [Hc _].
        apply orb_false_iff in Hno as [Hno _]. unfold isalnum in Hno.
        rewrite Hc in Hno. by rewrite !orb_true_r in Hno.
    - destruct (str_isalpha (text e)) eqn:Ha.
      + (* letters only *)
        apply andb_true_iff in Ha as [Hall Hne].
        apply negb_true_iff, bool_decide_eq_false in Hne.
        pose proof (map_random_spec (replace_letter next_random) (text e) w)
          as [Hlen Hat]. fold g in Hlen, Hat.
        assert (Halp : ∀ i c, text e !! i = Some c → isalpha c = true).
        { intros i c Hc. rewrite forallb_forall in Hall.
          by apply Hall, list_elem_of_In, (list_elem_of_lookup_2 _ i). }
        split; [|split].
        * intros Hg. rewrite Hg in Hlen. by destruct (text e).
        * intros _. split; [done|]. intros i c c' Hc Hc'.
          pose proof (Halp i c Hc) as Hca.
          destruct (Hat i c c' Hc Hc') as [w' ->].
          destruct (replace_letter_spec c w') as (Hu & Hl & _).
          split; [|split; [|split]].
          -- intros Hcd. rewrite (Hdisj c Hcd) in Hca. done.
          -- intros _. apply Hu.
          -- intros _. apply Hl.
          -- congruence.
        * intros Hno. exfalso. destruct (text e) as [|c t] eqn:Ht; [done|].
          simpl in Hno, Hall. apply andb_true_iff in Hall as [Hc _].
          apply orb_false_iff in Hno as [Hno _]. unfold isalnum in Hno.
          by rewrite Hc in Hno.
      + destruct (existsb isalnum (text e)) eqn:Hm.
        * (* mixed *)
          pose proof (map_random_spec (replace_alnum next_random) (text e) w)
            as [Hlen Hat]. fold g in Hlen, Hat.
          split; [|split; [|done]].
          -- intros Hg. rewrite Hg in Hlen. destruct (text e); done.
          -- intros _. split; [done|]. intros i c c' Hc Hc'.
             destruct (Hat i c c' Hc Hc') as [w' ->].
             destruct (replace_alnum_spec c w') as (Hdg & Hu & Hl & Ho).
             split; [done|]. split; [|split; [|done]].
             ++ intros Hca. apply Hu; [|done].
                destruct (isdigit c) eqn:Hcd; [|done].
                rewrite (Hdisj c Hcd) in Hca. done.
             ++ intros Hca Hcu _. apply Hl; [|done|done].
                destruct (isdigit c) eqn:Hcd; [|done].
                rewrite (Hdisj c Hcd) in Hca. done.
        * split; [done|]. split; [done|]. done. }
  split.
  - unfold r, get_replacement.
    destruct (replacement_patterns next_random (lower (label e)))
      as [generate|] eqn:Hp.
    + by apply (replacement_patterns_nonempty _ _ _ Hp).
    + apply Hgeneric.
  - intros Hl. unfold r, get_replacement.
    rewrite (replacement_patterns_None _ Hl). apply Hgeneric.
Qed.
End DefaultFacts.

(** ** Replacer *)

Section ReplacerPositions.
Import EntityReplacer.

Lemma shift_before_Permutation ds1 ds2 p :
  ds1 ≡ₚ ds2 → shift_before ds1 p = shift_before ds2 p.
Proof.
  induction 1 as [|d l1 l2 _ IH|d1 d2 l|l1 l2 l3 _ IH1 _ IH2]; simpl.
  - done.
  - fold (shift_before l1 p). fold (shift_before l2 p). by rewrite IH.
  - destruct (rp_start d1 <? p), (rp_start d2 <? p); lia.
  - congruence.
Qed.

Lemma descending_chain_elem bound l e :
  descending_chain bound l → e ∈ l → 0 ≤ start e < end_ e ∧ end_ e ≤ bound.
Proof.
  revert bound. induction l as [|x l IH]; intros bound Hc He.
  - by apply elem_of_nil in He.
  - destruct Hc as (Hx & Hb & Hrest).
    apply elem_of_cons in He as [->|He]; [done|].
    destruct (IH _ Hrest He). lia.
Qed.

(** From pairwise separation to the chain the loop walks down. *)
Lemma insert_desc_sorted (x : entity) (l : list entity) :
  StronglySorted (λ a b, start b ≤ start a) l →
  StronglySorted (λ a b, start b ≤ start a) (insert_desc start x l).
Proof.
  induction 1 as [|y l Hl IH Hy]; simpl.
  - repeat constructor.
  - destruct (Z.leb_spec (start y) (start x)) as [Hle|Hgt].
    + constructor; [by constructor|]. constructor; [done|].
      eapply Forall_impl; [exact Hy|]. simpl. intros; lia.
    + constructor; [done|]. rewrite insert_desc_Permutation.
      constructor; [lia | done].
Qed.

Lemma sort_desc_sorted (l : list entity) :
  StronglySorted (λ a b, start b ≤ start a) (sort_desc start l).
Proof.
  induction l as [|x l IH]; simpl; [constructor|]. by apply insert_desc_sorted.
Qed.

Lemma insert_desc_pairs (R : entity → entity → Prop) (x : entity) l :
  (∀ a b, R a b → R b a) →
  Forall (R x) l → ForallOrdPairs R l →
  ForallOrdPairs R (insert_desc start x l).
Proof.
  intros Hsym Hx Hl. induction Hl as [|y l Hy Hl IH]; simpl.
  - constructor; [done | constructor].
  - destruct (start y <=? start x).
    + constructor; [done|]. by constructor.
    + apply Forall_cons in Hx as [Hxy Hx]. constructor; [|by apply IH].
      rewrite insert_desc_Permutation. constructor; [by apply Hsym | done].
Qed.

Lemma sort_desc_pairs (R : entity → entity → Prop) l :
  (∀ a b, R a b → R b a) →
  ForallOrdPairs R l → ForallOrdPairs R (sort_desc start l).
Proof.
  intros Hsym. induction 1 as [|x l Hx Hl IH]; simpl; [constructor|].
  apply insert_desc_pairs; [done| |done].
  by rewrite sort_desc_Permutation.
Qed.

Lemma _entities_overlap_sym (a b : entity) :
  EntityValidator._entities_overlap a b = false →
  EntityValidator._entities_overlap b a = false.
Proof. unfold EntityValidator._entities_overlap. by rewrite orb_comm. Qed.

Lemma separate_descending_chain (text_ : str) (entities : list entity) :
  spans_separate text_ entities →
  descending_chain (len text_) (sort_desc start entities).
Proof.
  intros [Hb Hp].
  assert (Hb' : Forall (in_bounds text_) (sort_desc start entities))
    by (by rewrite sort_desc_Permutation).
  pose proof (sort_desc_pairs _ _ _entities_overlap_sym Hp) as Hp'.
  pose proof (sort_desc_sorted entities) as Hs.
  revert Hb' Hp' Hs. generalize (sort_desc start entities) as l.
  assert (Hgen : ∀ l bound,
    Forall (λ e, 0 ≤ start e < end_ e ∧ end_ e ≤ bound) l →
    ForallOrdPairs (λ a b, EntityValidator._entities_overlap a b = false) l →
    StronglySorted (λ a b, start b ≤ start a) l →
    descending_chain bound l).
  { induction l as [|x l IH]; intros bound Hf Hpairs Hsorted; [done|].
    apply Forall_cons in Hf as [Hx Hf].
    inversion Hpairs as [|? ? Hxl Hl]; subst.
    apply StronglySorted_inv in Hsorted as [Hsl Hxs].
    simpl. split; [tauto|]. split; [tauto|]. apply IH; [|done|done].
    rewrite Forall_forall in *. intros y Hy.
    specialize (Hf y Hy). specialize (Hxl y Hy). specialize (Hxs y Hy).
    simpl in *. split; [tauto|].
    unfold EntityValidator._entities_overlap in Hxl.
    apply negb_false_iff, orb_true_iff in Hxl as [?%Z.leb_le|?%Z.leb_le]; lia. }
  intros l. apply Hgen.
Qed.
End ReplacerPositions.

Section ReplacerFacts.
Context `{CharDb} {W : Type} (next_random : W → N * W).
Context (objects : EntityReplacer.strategies W).
Import EntityReplacer.

Lemma _get_replacement_cached (e : entity) (custom_strategy : option str)
  (c : gmap (str * str) (str * str)) (w : W) :
  let res := _get_replacement next_random objects e true custom_strategy c w in
  c ⊆ res.1.2 ∧
  ∃ s, res.1.2 !! (lower (label e), text e) = Some (res.1.1.1, s).
Proof.
  unfold _get_replacement.
  destruct (c !! (lower (label e), text e)) as [[v s]|] eqn:Hc.
  - simpl. split; [done|]. by exists s.
  - set (names := match custom_strategy with
                  | Some name => _ | None => _ end).
    destruct (try_strategies next_random objects e (lower (label e)) names w)
      as [[[r name]|] w'].
    + simpl. split; [by apply insert_subseteq|].
      exists name. by rewrite lookup_insert_eq.
    + destruct (DefaultReplacementStrategy.get_replacement next_random e w')
        as [r w''].
      simpl. split; [by apply insert_subseteq|].
      exists (py "default"). by rewrite lookup_insert_eq.
Qed.

(** What one iteration of the loop of [replace] does to the text and to the
    details: it applies a usable replacement [r] and records it, or it
    leaves both as they are. *)
Lemma replace_step_cases (consistency : bool) (custom : gmap str str)
  (st : replace_state (W := W)) (e : entity) :
  let st' := replace_step next_random objects consistency custom st e in
  let res := _get_replacement next_random objects e consistency
               (custom !! lower (label e)) (replacement_cache st) (world st) in
  replacement_cache st' = res.1.2 ∧
  ((res.1.1.1 ≠ [] ∧ res.1.1.1 ≠ text e ∧
    replaced_text st'
    = slice_to (replaced_text st) (start e) ++ res.1.1.1
      ++ slice_from (replaced_text st) (end_ e) ∧
    replacement_details st'
    = replacement_details st ++
      [{| rp_label := lower (label e); original := text e;
          replacement := res.1.1.1; rp_start := start e; rp_end := end_ e;
          rp_score := score e; strategy_used := res.1.1.2 |}] ∧
    map_so_far st' = <[text e := res.1.1.1]> (map_so_far st))
   ∨
   ((res.1.1.1 = [] ∨ res.1.1.1 = text e) ∧
    replaced_text st' = replaced_text st ∧
    replacement_details st' = replacement_details st ∧
    map_so_far st' = map_so_far st)).
Proof.
  unfold replace_step.
  destruct (_get_replacement next_random objects e consistency
              (custom !! lower (label e)) (replacement_cache st) (world st))
    as [[[r used] c'] w'].
  cbn [fst snd].
  case_bool_decide as Hempty; cbn [negb andb].
  - split; [done|]. right. split; [by left | done].
  - case_bool_decide as Hsame; cbn [negb andb].
    + split; [done|]. right. split; [by right | done].
    + split; [done|]. by left.
Qed.

Lemma replace_steps_cached (custom : gmap str str) (l : list entity)
  (st : replace_state (W := W)) :
  details_cached st →
  details_cached (foldl (replace_step next_random objects true custom) st l).
Proof.
  revert st. induction l as [|e l IH]; intros st Hst; cbn [foldl]; [done|].
  apply IH.
  destruct (replace_step_cases true custom st e) as [Hc Hcases].
  destruct (_get_replacement_cached e (custom !! lower (label e))
              (replacement_cache st) (world st)) as [Hsub [s Hs]].
  intros d Hd. rewrite Hc.
  destruct Hcases as [(_ & _ & _ & Hds & _)|(_ & _ & Hds & _)];
    rewrite Hds in Hd.
  - apply elem_of_app in Hd as [Hd|Hd].
    + destruct (Hst d Hd) as [s' Hs']. exists s'.
      by apply (lookup_weaken _ _ _ _ Hs').
    + apply list_elem_of_singleton in Hd as ->. by exists s.
  - destruct (Hst d Hd) as [s' Hs']. exists s'.
    by apply (lookup_weaken _ _ _ _ Hs').
Qed.

Lemma replace_steps_from (consistency : bool) (custom : gmap str str)
  (l : list entity) (st : replace_state (W := W)) (l0 : list entity) :
  details_from l0 (replacement_details st) →
  details_from (l0 ++ l)
    (replacement_details
       (foldl (replace_step next_random objects consistency custom) st l)).
Proof.
  revert st l0. induction l as [|e l IH]; intros st l0 Hst; cbn [foldl].
  - by rewrite app_nil_r.
  - replace (l0 ++ e :: l) with ((l0 ++ [e]) ++ l) by (by rewrite <- app_assoc).
    apply IH.
    destruct (replace_step_cases consistency custom st e) as [_ Hcases].
    intros d Hd.
    destruct Hcases as [(Hne & Hdiff & _ & Hds & _)|(_ & _ & Hds & _)];
      rewrite Hds in Hd.
    + apply elem_of_app in Hd as [Hd|Hd].
      * destruct (Hst d Hd) as ((e' & He' & Hrest) & Hok).
        split; [|done]. exists e'. split; [|done]. apply elem_of_app. by left.
      * apply list_elem_of_singleton in Hd as ->. split; [|done].
        exists e. split; [|done]. apply elem_of_app. right. by left.
    + destruct (Hst d Hd) as ((e' & He' & Hrest) & Hok).
      split; [|done]. exists e'. split; [|done]. apply elem_of_app. by left.
Qed.

Lemma length_replace_steps (consistency : bool) (custom : gmap str str)
  (l : list entity) (st : replace_state (W := W)) :
  (length (replacement_details
             (foldl (replace_step next_random objects consistency custom) st l))
   ≤ length (replacement_details st) + length l)%nat.
Proof.
  revert st. induction l as [|e l IH]; intros st; cbn [foldl length]; [lia|].
  etrans; [apply IH|].
  destruct (replace_step_cases consistency custom st e) as [_ Hcases].
  destruct Hcases as [(_ & _ & _ & Hds & _)|(_ & _ & Hds & _)]; rewrite Hds.
  - rewrite length_app. simpl. lia.
  - lia.
Qed.

Lemma replace_replacements (c : gmap (str * str) (str * str)) (w : W)
  (text_ : str) (entities : list entity) (consistency : bool)
  (custom : gmap str str) :
  entities ≠ [] →
  let st := foldl (replace_step next_random objects consistency custom)
              {| replaced_text := text_; replacement_details := [];
                 map_so_far := ∅; replacement_cache := c; world := w |}
              (sort_desc start entities) in
  (replace next_random objects c w text_ entities consistency custom).1.1
  = {| anonymized_text := replaced_text st;
       replacements := sort_asc rp_start (replacement_details st);
       info :=
         {| entities_processed := length entities;
            replacements_applied :=
              length (sort_asc rp_start (replacement_details st));
            consistency_enabled := consistency;
            unique_replacements :=
              size (list_to_set (C := gset str)
                      (map replacement
                         (sort_asc rp_start (replacement_details st)))) |};
       replacement_map := map_so_far st |}.
Proof.
  intros Hne st. unfold replace. by rewrite bool_decide_eq_false_2.
Qed.

(** C6. In one call of [replace] with consistency enabled, whatever the
    cache holds before the call, every recorded detail stems from an entity
    of the call, with its label lower-cased and its text as [original], and
    two recorded details with the same (lower-cased label, text) pair hold
    the same replacement value. *)
Theorem replacement_consistent (c : gmap (str * str) (str * str)) (w : W)
  (text_ : str) (entities : list entity) (custom : gmap str str)
  (d1 d2 : ReplacementDetail) :
  let result :=
    (replace next_random objects c w text_ entities true custom).1.1 in
  d1 ∈ replacements result → d2 ∈ replacements result →
  rp_label d1 = rp_label d2 → original d1 = original d2 →
  replacement d1 = replacement d2 ∧
  ∃ e1 e2, e1 ∈ entities ∧ e2 ∈ entities ∧
           lower (label e1) = lower (label e2) ∧ text e1 = text e2 ∧
           rp_start d1 = start e1 ∧ rp_start d2 = start e2.
Proof.
  intros result. unfold result.
  destruct (decide (entities = [])) as [->|Hne].
  { by intros ?%elem_of_nil. }
  rewrite replace_replacements by done. cbn [replacements].
  rewrite !elem_of_sort_asc. intros H1 H2 Hl Ho.
  set (st0 := {| replaced_text := text_; replacement_details := [];
                 map_so_far := ∅; replacement_cache := c; world := w |}).
  split.
  - assert (Hinv : details_cached
      (foldl (replace_step next_random objects true custom) st0
         (sort_desc start entities))).
    { apply replace_steps_cached. by intros d ?%elem_of_nil. }
    destruct (Hinv d1 H1) as [s1 Hs1]. destruct (Hinv d2 H2) as [s2 Hs2].
    rewrite Hl, Ho in Hs1. congruence.
  - assert (Hfrom : details_from ([] ++ sort_desc start entities)
      (replacement_details
         (foldl (replace_step next_random objects true custom) st0
            (sort_desc start entities)))).
    { apply replace_steps_from. by intros d ?%elem_of_nil. }
    destruct (Hfrom d1 H1) as ((e1 & He1 & Hl1 & Ho1 & Hs1 & _) & _).
    destruct (Hfrom d2 H2) as ((e2 & He2 & Hl2 & Ho2 & Hs2 & _) & _).
    simpl in He1, He2. apply elem_of_sort_desc in He1, He2.
    exists e1, e2. repeat split; try done; congruence.
Qed.
End ReplacerFacts.

Section ReplacerChain.
Context `{CharDb} {W : Type} (next_random : W → N * W).
Context (objects : EntityReplacer.strategies W).
Import EntityReplacer.

Lemma shift_before_all ds p :
  (∀ d, d ∈ ds → rp_start d < p) → shift_before ds p = total_growth ds.
Proof.
  induction ds as [|d ds IH]; intros Hall; simpl; [done|].
  fold (shift_before ds p). fold (total_growth ds). rewrite IH.
  - destruct (Z.ltb_spec (rp_start d) p) as [|Hge]; [done|].
    specialize (Hall d ltac:(by left)). lia.
  - intros d' Hd'. apply Hall. by right.
Qed.

Lemma len_app (s1 s2 : str) : len (s1 ++ s2) = len s1 + len s2.
Proof. unfold len. rewrite length_app. lia. Qed.

Lemma len_nonneg (s : str) : 0 ≤ len s.
Proof. unfold len. lia. Qed.

Lemma len_take (s : str) (n : Z) :
  0 ≤ n ≤ len s → len (take (Z.to_nat n) s) = n.
Proof. unfold len. intros Hn. rewrite length_take. lia. Qed.

Lemma drop_split (s : str) (a b : Z) :
  0 ≤ a ≤ b → b ≤ len s →
  drop (Z.to_nat a) s
  = take (Z.to_nat (b - a)) (drop (Z.to_nat a) s) ++ drop (Z.to_nat b) s.
Proof.
  intros Ha Hb.
  rewrite <- (take_drop (Z.to_nat (b - a)) (drop (Z.to_nat a) s)) at 1.
  f_equal. rewrite drop_drop. f_equal. lia.
Qed.

(** The text after one iteration, for a span within the text. *)
Lemma replace_step_text (consistency : bool) (custom : gmap str str)
  (st : replace_state (W := W)) (x : entity) :
  0 ≤ start x < end_ x → end_ x ≤ len (replaced_text st) →
  let st' := replace_step next_random objects consistency custom st x in
  (∃ d, replacement_details st' = replacement_details st ++ [d] ∧
        rp_start d = start x ∧ rp_end d = end_ x ∧
        replaced_text st'
        = take (Z.to_nat (start x)) (replaced_text st) ++ replacement d
          ++ drop (Z.to_nat (end_ x)) (replaced_text st)) ∨
  (replacement_details st' = replacement_details st ∧
   replaced_text st' = replaced_text st).
Proof.
  intros Hx Hend st'.
  destruct (replace_step_cases next_random objects consistency custom st x)
    as [_ [(_ & _ & Ht & Hd & _)|(_ & Ht & Hd & _)]].
  - left. eexists. split; [exact Hd|]. split; [done|]. split; [done|].
    unfold st'. rewrite Ht. cbn [replacement].
    rewrite slice_to_Z, slice_from_Z by lia. done.
  - right. by split.
Qed.

Lemma replace_steps_suffix (consistency : bool) (custom : gmap str str)
  (l : list entity) (st : replace_state (W := W)) (bound : Z) :
  descending_chain bound l → 0 ≤ bound ≤ len (replaced_text st) →
  let st' := foldl (replace_step next_random objects consistency custom) st l in
  ∃ new P,
    replacement_details st' = replacement_details st ++ new ∧
    (∀ d, d ∈ new → rp_start d < bound) ∧
    replaced_text st' = P ++ drop (Z.to_nat bound) (replaced_text st) ∧
    len P = bound + total_growth new.
Proof.
  revert st bound. induction l as [|x l IH]; intros st bound Hchain Hb;
    cbn [foldl].
  - exists [], (take (Z.to_nat bound) (replaced_text st)).
    rewrite app_nil_r, take_drop, len_take by done.
    split; [done|]. split; [by intros d ?%elem_of_nil|]. split; [done|].
    simpl. lia.
  - destruct Hchain as (Hx & Hxb & Hchain).
    assert (Hend : end_ x ≤ len (replaced_text st)) by lia.
    destruct (replace_step_text consistency custom st x Hx Hend)
      as [(d & Hd & Hds & Hde & HT)|(Hd & HT)];
      set (T := replaced_text st) in *.
    + set (st1 := replace_step next_random objects consistency custom st x)
        in *.
      assert (Hlen1 : 0 ≤ start x ≤ len (replaced_text st1)).
      { rewrite HT, !len_app, len_take by (fold T; lia).
        pose proof (len_nonneg (replacement d)).
        pose proof (len_nonneg (drop (Z.to_nat (end_ x)) T)). lia. }
      destruct (IH st1 (start x) Hchain Hlen1) as (new & P & Hnew & Hlt & HP & HlP).
      exists (d :: new),
        (P ++ replacement d
         ++ take (Z.to_nat (bound - end_ x)) (drop (Z.to_nat (end_ x)) T)).
      split; [by rewrite Hnew, Hd, <- app_assoc|].
      split.
      { intros d' [->|Hd']%elem_of_cons; [lia|]. specialize (Hlt d' Hd'). lia. }
      split.
      * rewrite HP, HT.
        rewrite drop_app_length'
          by (rewrite length_take; fold T; unfold len in *; lia).
        rewrite (drop_split T (end_ x) bound) at 1 by lia.
        by rewrite <- !app_assoc.
      * rewrite !len_app, HlP. cbn [total_growth foldr].
        fold (total_growth new). unfold net_growth. rewrite Hds, Hde.
        unfold len at 2. rewrite length_take, length_drop.
        fold T. unfold len in *. lia.
    + set (st1 := replace_step next_random objects consistency custom st x)
        in *.
      assert (Hlen1 : 0 ≤ start x ≤ len (replaced_text st1))
        by (rewrite HT; fold T; lia).
      destruct (IH st1 (start x) Hchain Hlen1) as (new & P & Hnew & Hlt & HP & HlP).
      exists new,
        (P ++ take (Z.to_nat (bound - start x)) (drop (Z.to_nat (start x)) T)).
      split; [by rewrite Hnew, Hd|].
      split.
      { intros d' Hd'. specialize (Hlt d' Hd'). lia. }
      split.
      * rewrite HP, HT. fold T.
        rewrite (drop_split T (start x) bound) at 1 by lia.
        by rewrite <- !app_assoc.
      * rewrite !len_app, HlP.
        unfold len in *. rewrite length_take, length_drop. lia.
Qed.

Lemma take_take_le {A} (l : list A) (n m : nat) :
  (n ≤ m)%nat → take n (take m l) = take n l.
Proof. intros Hnm. rewrite take_take. f_equal. lia. Qed.

(** Two texts that agree up to [bound] have the same slices below it. *)
Lemma slice_agree (T1 T2 : str) (bound a b : Z) :
  take (Z.to_nat bound) T1 = take (Z.to_nat bound) T2 →
  0 ≤ a ≤ b → b ≤ bound →
  take (Z.to_nat (b - a)) (drop (Z.to_nat a) T1)
  = take (Z.to_nat (b - a)) (drop (Z.to_nat a) T2).
Proof.
  intros Hagree Ha Hb.
  rewrite !take_drop_commute.
  replace (Z.to_nat a + Z.to_nat (b - a))%nat with (Z.to_nat b) by lia.
  rewrite <- (take_take_le T1 (Z.to_nat b) (Z.to_nat bound)) by lia.
  rewrite <- (take_take_le T2 (Z.to_nat b) (Z.to_nat bound)) by lia.
  by rewrite Hagree.
Qed.

Lemma replace_steps_keep (consistency : bool) (custom : gmap str str)
  (text_ : str) (l : list entity) (st : replace_state (W := W)) (bound : Z)
  (e : entity) :
  descending_chain bound l → 0 ≤ bound ≤ len (replaced_text st) →
  take (Z.to_nat bound) (replaced_text st) = take (Z.to_nat bound) text_ →
  e ∈ l →
  let st' := foldl (replace_step next_random objects consistency custom) st l in
  ∃ new,
    replacement_details st' = replacement_details st ++ new ∧
    ((∀ d, d ∈ new → rp_start d ≠ start e) →
     slice (replaced_text st') (start e + shift_before new (start e))
       (end_ e + shift_before new (start e))
     = slice text_ (start e) (end_ e)).
Proof.
  revert st bound. induction l as [|x l IH]; intros st bound Hchain Hb Hagree He;
    cbn [foldl]; [by apply elem_of_nil in He|].
  destruct Hchain as (Hx & Hxb & Hchain).
  assert (Hend : end_ x ≤ len (replaced_text st)) by lia.
  assert (Hbt : bound ≤ len text_).
  { apply (f_equal length) in Hagree. rewrite !length_take in Hagree.
    unfold len in *. lia. }
  set (st1 := replace_step next_random objects consistency custom st x).
  assert (Hpre : take (Z.to_nat (start x)) (replaced_text st)
                 = take (Z.to_nat (start x)) text_).
  { rewrite <- (take_take_le (replaced_text st) _ (Z.to_nat bound)) by lia.
    rewrite <- (take_take_le text_ _ (Z.to_nat bound)) by lia.
    by rewrite Hagree. }
  destruct (replace_step_text consistency custom st x Hx Hend)
    as [(d & Hd & Hds & Hde & HT)|(Hd & HT)]; fold st1 in Hd, HT.
  - (* the span at the head is replaced *)
    assert (Hlen1 : 0 ≤ start x ≤ len (replaced_text st1)).
    { rewrite HT, !len_app, len_take by lia.
      pose proof (len_nonneg (replacement d)).
      pose proof (len_nonneg (drop (Z.to_nat (end_ x)) (replaced_text st))).
      lia. }
    assert (Hagree1 : take (Z.to_nat (start x)) (replaced_text st1)
                      = take (Z.to_nat (start x)) text_).
    { rewrite HT, take_app_length'; [done|].
      rewrite length_take. unfold len in *. lia. }
    apply elem_of_cons in He as [->|He].
    + destruct (replace_steps_suffix consistency custom l st1 (start x)
                  Hchain Hlen1) as (new & _ & Hnew & _).
      exists (d :: new). split; [by rewrite Hnew, Hd, <- app_assoc|].
      intros Hno. exfalso. apply (Hno d); [by left | done].
    + destruct (IH st1 (start x) Hchain Hlen1 Hagree1 He) as (new & Hnew & Hkeep).
      exists (d :: new). split; [by rewrite Hnew, Hd, <- app_assoc|].
      intros Hno.
      pose proof (descending_chain_elem _ _ _ Hchain He) as [He1 He2].
      assert (Hshift : shift_before (d :: new) (start e)
                       = shift_before new (start e)).
      { cbn [shift_before foldr]. fold (shift_before new (start e)).
        destruct (Z.ltb_spec (rp_start d) (start e)); [lia | done]. }
      rewrite Hshift. apply Hkeep. intros d' Hd'. apply Hno. by right.
  - (* the span at the head is left as it is *)
    assert (Hlen1 : 0 ≤ start x ≤ len (replaced_text st1)) by (rewrite HT; lia).
    assert (Hagree1 : take (Z.to_nat (start x)) (replaced_text st1)
                      = take (Z.to_nat (start x)) text_) by (by rewrite HT).
    apply elem_of_cons in He as [->|He].
    + destruct (replace_steps_suffix consistency custom l st1 (start x)
                  Hchain Hlen1) as (new & P & Hnew & Hlt & HP & HlP).
      exists new. split; [by rewrite Hnew, Hd|]. intros _.
      rewrite (shift_before_all new (start x) Hlt).
      rewrite HP, HT.
      assert (HlenP : length P = Z.to_nat (start x + total_growth new))
        by (unfold len in HlP; lia).
      rewrite slice_Z.
      2:{ pose proof (len_nonneg P). lia. }
      2:{ rewrite len_app. unfold len at 2. rewrite length_drop.
          unfold len in *. lia. }
      rewrite slice_Z by lia.
      rewrite <- HlenP, drop_app_length.
      replace (end_ x + total_growth new - (start x + total_growth new))
        with (end_ x - start x) by lia.
      apply (slice_agree _ _ bound); [done | lia | lia].
    + destruct (IH st1 (start x) Hchain Hlen1 Hagree1 He) as (new & Hnew & Hkeep).
      exists new. split; [by rewrite Hnew, Hd|]. done.
Qed.
End ReplacerChain.

Section ReplacerClaims.
Context `{CharDb} {W : Type} (next_random : W → N * W).
Context (objects : EntityReplacer.strategies W).
Import EntityReplacer.

(** C10 (as amended). In [replace]: an iteration whose computed replacement
    is empty or equal to the original text changes neither the working
    text, nor the details, nor the replacement map; every recorded detail
    has a non-empty replacement different from its original; the number of
    replacements applied is the number of details and never exceeds the
    number of entities processed (and can be smaller, see the instance
    below); and, when the spans are within the text
    ([0 <= start < end <= len(text)]) and pairwise non-overlapping, a span
    at whose start no detail is recorded still has its original substring in
    the output, at its position shifted by the net growth of the
    replacements applied before it. *)
Theorem replace_skips_unusable (c : gmap (str * str) (str * str)) (w : W)
  (text_ : str) (entities : list entity) (consistency : bool)
  (custom : gmap str str) :
  let result :=
    (replace next_random objects c w text_ entities consistency custom).1.1 in
  (∀ (st : replace_state (W := W)) e,
     let res := _get_replacement next_random objects e consistency
                  (custom !! lower (label e)) (replacement_cache st)
                  (world st) in
     let st' := replace_step next_random objects consistency custom st e in
     res.1.1.1 = [] ∨ res.1.1.1 = text e →
     replaced_text st' = replaced_text st ∧
     replacement_details st' = replacement_details st ∧
     map_so_far st' = map_so_far st) ∧
  (∀ d, d ∈ replacements result →
        replacement d ≠ [] ∧ replacement d ≠ original d) ∧
  (entities_processed (info result) = length entities ∧
   replacements_applied (info result) = length (replacements result) ∧
   (length (replacements result) ≤ length entities)%nat) ∧
  (spans_separate text_ entities →
   ∀ e, e ∈ entities →
        (∀ d, d ∈ replacements result → rp_start d ≠ start e) →
        let shift := shift_before (replacements result) (start e) in
        slice (anonymized_text result) (start e + shift) (end_ e + shift)
        = slice text_ (start e) (end_ e)).
Proof.
  intros result.
  split.
  { intros st e res st' Hbad.
    destruct (replace_step_cases next_random objects consistency custom st e)
      as [_ [(Hne & Hdiff & _)|(_ & Ht & Hd & Hm)]]; [|done].
    fold res in Hne, Hdiff. by destruct Hbad. }
  unfold result. destruct (decide (entities = [])) as [->|Hne].
  { cbn. split; [by intros d ?%elem_of_nil|]. split; [done|].
    by intros _ e ?%elem_of_nil. }
  rewrite replace_replacements by done.
  cbn [replacements info anonymized_text entities_processed
       replacements_applied].
  set (st0 := {| replaced_text := text_; replacement_details := [];
                 map_so_far := ∅; replacement_cache := c; world := w |}).
  set (st := foldl (replace_step next_random objects consistency custom) st0
               (sort_desc start entities)).
  split; [|split].
  - intros d Hd%elem_of_sort_asc.
    assert (Hfrom : details_from ([] ++ sort_desc start entities)
                      (replacement_details st)).
    { apply replace_steps_from. by intros d' ?%elem_of_nil. }
    by destruct (Hfrom d Hd) as (_ & ? & ?).
  - split; [done|]. split; [done|]. rewrite length_sort_asc.
    pose proof (length_replace_steps next_random objects consistency custom
                  (sort_desc start entities) st0) as Hlen.
    rewrite length_sort_desc in Hlen. exact Hlen.
  - intros Hsep e He Hno.
    destruct (replace_steps_keep next_random objects consistency custom text_
                (sort_desc start entities) st0 (len text_) e)
      as (new & Hnew & Hkeep).
    + by apply separate_descending_chain.
    + pose proof (len_nonneg text_). simpl. lia.
    + done.
    + by apply elem_of_sort_desc.
    + fold st in Hnew, Hkeep. simpl in Hnew. subst new.
      rewrite (shift_before_Permutation _ _ _
                 (sort_asc_Permutation rp_start (replacement_details st))).
      apply Hkeep. intros d Hd. apply Hno. by apply elem_of_sort_asc.
Qed.
End ReplacerClaims.

(** ** Instances on the ASCII tables *)

Section AnonymizationExamples.
Import AsciiDb EntityReplacer.

(** No ASCII digit is a letter. *)
Lemma ascii_digit_not_letter (c : ascii) :
  isdigit c = true → isalpha c = false.
Proof.
  destruct c as [[] [] [] [] [] [] [] []]; vm_compute; congruence.
Qed.

(** C8, counterexample: for the labels with a generator of their own the
    result keeps neither the length nor the characters of the text, and a
    text without alphanumeric characters does not give the placeholder. *)
Lemma default_replacement_of_pattern_labels :
  existsb isalnum (text mail) = true ∧
  (DefaultReplacementStrategy.get_replacement replay mail [0; 1; 2; 3; 4; 5]%N).1
  = py "bcdef@example.com" ∧
  existsb isalnum (text dashes) = false ∧
  (DefaultReplacementStrategy.get_replacement replay dashes [34; 56; 78]%N).1
  = py "(234) 256-1078".
Proof. by vm_compute. Qed.

(** C8, an instance: a text of letters, digits and other characters. *)
Lemma default_replacement_structure_witness :
  (∀ c, isdigit c = true → isalpha c = false) ∧
  (DefaultReplacementStrategy.get_replacement replay serial
     [27; 28; 3; 4; 5; 6]%N).1 ≠ [] ∧
  (lower (label serial) ∉ DefaultReplacementStrategy.pattern_labels →
   existsb isalnum (text serial) = true →
   length (DefaultReplacementStrategy.get_replacement replay serial
             [27; 28; 3; 4; 5; 6]%N).1
   = length (text serial)).
Proof.
  split; [exact ascii_digit_not_letter|].
  pose proof (default_replacement_structure replay serial
                [27; 28; 3; 4; 5; 6]%N ascii_digit_not_letter) as [Hne Hrest].
  split; [exact Hne|]. intros Hl Ha. exact (proj1 (proj1 (Hrest Hl) Ha)).
Defined.

Example default_replacement_of_serial :
  (DefaultReplacementStrategy.get_replacement replay serial
     [27; 28; 3; 4; 5; 6]%N).1
  = py "Bc-34 f".
Proof. by vm_compute. Qed.

(** The failing input of C10: Faker is not installed; the text is ["abcd"];
    the spans are [phone "abc"] at [0:3] and [word "cd"] at [2:4], which
    overlap; the generator draws the letters [c] and [d] twice. The span
    [word "cd"] is processed first, its replacement is its own text, and it
    is skipped; then [phone "abc"] is replaced, which overwrites the [c]. *)
Lemma replace_overlapping_run (country_ date_ : strategy (list N)) :
  let result :=
    (replace replay (without_faker country_ date_) ∅ [2; 3; 2; 3]%N
       (py "abcd") [phone_abc; word_cd 2 4] true ∅).1.1 in
  anonymized_text result = py "(200) 200-1000d" ∧
  map (λ d, (original d, rp_start d)) (replacements result)
  = [(py "abc", 0)] ∧
  contains (anonymized_text result) (py "cd") = false.
Proof. by vm_compute. Qed.

(** C10, counterexample: it is not so that a span for which nothing is
    recorded always has its original substring in the output. The input of
    [replace_overlapping_run] refutes it: the output ["(200) 200-1000d"] has
    no ["cd"], although nothing is recorded for the span [word "cd"]. *)
Lemma skipped_span_not_kept :
  ¬ (∀ (objects : strategies (list N)) (draws : list N) (text_ : str)
       (entities : list entity) (e : entity),
       e ∈ entities →
       (∀ d, d ∈ replacements
                   (replace replay objects ∅ draws text_ entities true ∅).1.1 →
             rp_start d ≠ start e) →
       contains
         (anonymized_text
            (replace replay objects ∅ draws text_ entities true ∅).1.1)
         (slice text_ (start e) (end_ e)) = true).
Proof.
  intros Hclaim.
  specialize (Hclaim fallback_only [2; 3; 2; 3]%N (py "abcd")
                [phone_abc; word_cd 2 4] (word_cd 2 4)).
  destruct (replace_overlapping_run (default_strategy replay)
              (default_strategy replay)) as (_ & Hd & Hc).
  assert (Hin : word_cd 2 4 ∈ [phone_abc; word_cd 2 4])
    by (apply list_elem_of_further, list_elem_of_here).
  assert (Hslice : slice (py "abcd") (start (word_cd 2 4)) (end_ (word_cd 2 4))
                   = py "cd") by (by vm_compute).
  rewrite Hslice in Hclaim. unfold fallback_only in Hclaim.
  rewrite Hc in Hclaim. discriminate Hclaim; [done|].
  intros d Hd'. apply (list_elem_of_fmap_2 (λ d, (original d, rp_start d))) in Hd'.
  change (fmap ?f ?l) with (map f l) in Hd'. rewrite Hd in Hd'.
  apply list_elem_of_singleton in Hd'. injection Hd' as _ Hs.
  rewrite Hs. by vm_compute.
Qed.

(** C10, an instance: spans that do not overlap. [word "cd"] at [4:6] is
    skipped; [phone "abc"] at [0:3] is replaced and grows by eleven
    characters, which moves the skipped word from [4:6] to [15:17]. *)
Lemma replace_skips_unusable_witness :
  let result :=
    (replace replay fallback_only ∅ [2; 3; 2; 3]%N (py "abc cd")
       [phone_abc; word_cd 4 6] true ∅).1.1 in
  spans_separate (py "abc cd") [phone_abc; word_cd 4 6] ∧
  anonymized_text result = py "(200) 200-1000 cd" ∧
  (replacements_applied (info result) < entities_processed (info result))%nat ∧
  shift_before (replacements result) 4 = 11 ∧
  slice (anonymized_text result) (4 + 11) (6 + 11) = py "cd".
Proof.
  assert (Hsep : spans_separate (py "abc cd") [phone_abc; word_cd 4 6]).
  { split.
    - repeat constructor; vm_compute; congruence.
    - repeat constructor. }
  split; [exact Hsep|]. split; [by vm_compute|]. split; [vm_compute; lia|].
  split; [by vm_compute|].
  pose proof (proj2 (proj2 (proj2
    (replace_skips_unusable replay fallback_only ∅ [2; 3; 2; 3]%N (py "abc cd")
       [phone_abc; word_cd 4 6] true ∅))) Hsep (word_cd 4 6)) as Hkeep.
  cbv zeta in Hkeep.
  change (shift_before _ (start (word_cd 4 6))) with 11 in Hkeep.
  apply Hkeep.
  - apply list_elem_of_further, list_elem_of_here.
  - intros d Hd.
    change (d ∈ [ {| rp_label := py "phone"; original := py "abc";
                     replacement := py "(200) 200-1000"; rp_start := 0;
                     rp_end := 3; rp_score := 0.75%float;
                     strategy_used := py "default" |} ]) in Hd.
    apply list_elem_of_singleton in Hd as ->. by vm_compute.
Defined.

(** C6, an instance: the same word twice. The second occurrence is handled
    first and draws the letters [f] and [g]; the first one takes them from
    the cache. *)
Lemma replacement_consistent_witness :
  let result :=
    (replace replay fallback_only ∅ [5; 6; 7; 8]%N (py "cd cd")
       [word_cd 0 2; word_cd 3 5] true ∅).1.1 in
  anonymized_text result = py "fg fg" ∧
  map (λ d, (rp_start d, replacement d, strategy_used d)) (replacements result)
  = [(0, py "fg", py "default_cached"); (3, py "fg", py "default")] ∧
  ∀ d1 d2, replacements result !! 0%nat = Some d1 →
           replacements result !! 1%nat = Some d2 →
           replacement d1 = replacement d2.
Proof.
  split; [by vm_compute|]. split; [by vm_compute|].
  intros d1 d2 H1 H2.
  refine (proj1 (replacement_consistent replay fallback_only ∅ [5; 6; 7; 8]%N
                   (py "cd cd") [word_cd 0 2; word_cd 3 5] ∅ d1 d2 _ _ _ _)).
  - by eapply list_elem_of_lookup_2.
  - by eapply list_elem_of_lookup_2.
  - vm_compute in H1, H2. by injection H1 as <-; injection H2 as <-.
  - vm_compute in H1, H2. by injection H1 as <-; injection H2 as <-.
Defined.

End AnonymizationExamples.

(** * Further properties *)

(** ** Numerals *)

Section Numerals.

Lemma digit_value_pretty (m : N) :
  (m < 10)%N → digit_value (pretty_N_char m) = Some (Z.of_N m).
Proof.
  intros Hm.
  assert (m = 0 ∨ m = 1 ∨ m = 2 ∨ m = 3 ∨ m = 4 ∨ m = 5 ∨ m = 6 ∨ m = 7
          ∨ m = 8 ∨ m = 9)%N as Hcases by lia.
  repeat (destruct Hcases as [->|Hcases]; [done|]). by subst.
Qed.

Lemma int_pretty_go (x : N) (s : string) :
  foldl (λ acc c, a ← acc; d ← digit_value c; Some (10 * a + d)) (Some 0)
        (py (pretty_N_go x s))
  = foldl (λ acc c, a ← acc; d ← digit_value c; Some (10 * a + d))
          (Some (Z.of_N x)) (py s).
Proof.
  revert s. induction (N.lt_wf_0 x) as [x _ IH]; intros s.
  assert (x = 0 ∨ 0 < x)%N as [->|Hx] by lia.
  - by rewrite pretty_N_go_0.
  - rewrite pretty_N_go_step by done.
    rewrite IH by (by apply N.div_lt).
    unfold py. cbn [list_ascii_of_string foldl mbind option_bind].
    rewrite digit_value_pretty by (apply N.mod_lt; lia).
    cbn [mbind option_bind]. do 2 f_equal.
    pose proof (N.div_mod x 10 ltac:(lia)). lia.
Qed.

(** [int(str(n)) == n] *)
Lemma int_str_of_N (n : N) : int (str_of_N n) = Some (Z.of_N n).
Proof.
  unfold int. rewrite bool_decide_eq_false_2 by apply str_of_N_nonempty.
  unfold str_of_N, pretty, pretty_N.
  destruct (decide (n = 0)%N) as [->|Hn]; [done|].
  by rewrite int_pretty_go.
Qed.

Lemma int_str_of_nat (n : nat) : int (str_of_nat n) = Some (Z.of_nat n).
Proof. unfold str_of_nat. rewrite int_str_of_N. f_equal. lia. Qed.

Lemma pretty_go_digits (x : N) (s : string) (c : ascii) :
  c ∈ py (pretty_N_go x s) → c ∈ py s ∨ is_Some (digit_value c).
Proof.
  revert s. induction (N.lt_wf_0 x) as [x _ IH]; intros s.
  assert (x = 0 ∨ 0 < x)%N as [->|Hx] by lia.
  - rewrite pretty_N_go_0. by left.
  - rewrite pretty_N_go_step by done.
    intros [Hc|Hc]%IH; [|by right|by apply N.div_lt].
    unfold py in Hc. cbn [list_ascii_of_string] in Hc.
    apply elem_of_cons in Hc as [->|Hc]; [right|by left].
    rewrite digit_value_pretty by (apply N.mod_lt; lia). done.
Qed.

Lemma str_of_nat_digits (n : nat) (c : ascii) :
  c ∈ str_of_nat n → is_Some (digit_value c).
Proof.
  unfold str_of_nat, str_of_N, pretty, pretty_N.
  destruct (decide _) as [_|_].
  - intros ->%list_elem_of_singleton. done.
  - intros [Hc|Hc]%pretty_go_digits; [|done]. by apply not_elem_of_nil in Hc.
Qed.
End Numerals.

(** ** Stable sorting *)

Section SortMore.
Context {A : Type} (key : A → Z).

Lemma insert_asc_sorted (x : A) (l : list A) :
  StronglySorted (λ a b, key a ≤ key b) l →
  StronglySorted (λ a b, key a ≤ key b) (insert_asc key x l).
Proof.
  induction 1 as [|y l Hl IH Hy]; simpl.
  - repeat constructor.
  - destruct (Z.leb_spec (key x) (key y)) as [Hle|Hgt].
    + constructor; [by constructor|]. constructor; [done|].
      eapply Forall_impl; [exact Hy|]. simpl. intros; lia.
    + constructor; [done|]. rewrite insert_asc_Permutation.
      constructor; [lia | done].
Qed.

Lemma sort_asc_sorted (l : list A) :
  StronglySorted (λ a b, key a ≤ key b) (sort_asc key l).
Proof.
  induction l as [|x l IH]; simpl; [constructor|]. by apply insert_asc_sorted.
Qed.

(** A list in ascending order is left as it is. *)
Lemma sort_asc_id (l : list A) :
  StronglySorted (λ a b, key a ≤ key b) l → sort_asc key l = l.
Proof.
  induction 1 as [|x l Hl IH Hx]; [done|].
  change (sort_asc key (x :: l)) with (insert_asc key x (sort_asc key l)).
  rewrite IH. destruct Hx as [|y l' Hxy _]; [done|]. cbn.
  by rewrite (proj2 (Z.leb_le _ _) Hxy).
Qed.

(** A list in strictly descending order is reversed. *)
Lemma insert_asc_last (x : A) (l : list A) :
  Forall (λ y, key y < key x) l → insert_asc key x l = l ++ [x].
Proof.
  induction 1 as [|y l Hy _ IH]; [done|]. cbn.
  destruct (Z.leb_spec (key x) (key y)); [lia|]. by rewrite IH.
Qed.

Lemma sort_asc_reverse (l : list A) :
  StronglySorted (λ a b, key b < key a) l → sort_asc key l = reverse l.
Proof.
  induction 1 as [|x l Hl IH Hx]; [done|].
  change (sort_asc key (x :: l)) with (insert_asc key x (sort_asc key l)).
  rewrite IH, reverse_cons. apply insert_asc_last.
  by rewrite Forall_reverse.
Qed.
End SortMore.

Section BlockSort.
Context {A : Type} (key : A → Z).

Lemma insert_asc_app_l (x : A) (L M : list A) :
  (∀ y, y ∈ L → key y < key x) →
  insert_asc key x (L ++ M) = L ++ insert_asc key x M.
Proof.
  induction L as [|y L IH]; intros HL; [done|]. cbn.
  destruct (Z.leb_spec (key x) (key y)) as [Hle|_].
  - pose proof (HL y ltac:(by left)). lia.
  - f_equal. apply IH. intros ??. apply HL. by right.
Qed.

Lemma insert_asc_app_r (x : A) (L M : list A) :
  (∀ y, y ∈ M → key x < key y) →
  insert_asc key x (L ++ M) = insert_asc key x L ++ M.
Proof.
  intros HM. induction L as [|y L IH]; cbn.
  - destruct M as [|y M]; [done|]. cbn.
    destruct (Z.leb_spec (key x) (key y)) as [_|Hlt]; [done|].
    pose proof (HM y ltac:(by left)). lia.
  - destruct (key x <=? key y); [done|]. by rewrite IH.
Qed.

Lemma sort_asc_app (B R : list A) :
  sort_asc key (B ++ R) = foldr (insert_asc key) (sort_asc key R) B.
Proof. unfold sort_asc. by rewrite foldr_app. Qed.

(** Sorting a block into sorted lists of smaller keys before and of larger
    keys after it puts it, sorted, between them. *)
Lemma foldr_insert_block (L B M : list A) :
  (∀ y x, y ∈ L → x ∈ B → key y < key x) →
  (∀ x y, x ∈ B → y ∈ M → key x < key y) →
  foldr (insert_asc key) (L ++ M) B = L ++ sort_asc key B ++ M.
Proof.
  intros HL HM. induction B as [|x B IH]; [done|].
  cbn [foldr]. rewrite IH.
  - rewrite insert_asc_app_l by (intros y Hy; apply HL; [done|by left]).
    rewrite insert_asc_app_r by (intros y Hy; apply HM; [by left|done]).
    done.
  - intros y x' Hy Hx'. apply HL; [done|by right].
  - intros x' y Hx' Hy. apply HM; [by right|done].
Qed.

Lemma concat_imap_nil (f : nat → list A → list A) (l : list (list A)) :
  (∀ j B, f j B = []) → concat (imap f l) = [].
Proof.
  revert f. induction l as [|B l IH]; intros f Hf; [done|].
  cbn. rewrite Hf. apply IH. intros ??. apply Hf.
Qed.

Context (blocks : list (list A)).

Lemma picked_lookup (c : list nat) (j : nat) (B : list A) (x : A) :
  picked key blocks c !! j = Some B → x ∈ B →
  ∃ B', blocks !! j = Some B' ∧ x ∈ B'.
Proof.
  unfold picked. rewrite list_lookup_imap.
  destruct (blocks !! j) as [B'|]; [|done]. cbn. intros [= <-] Hx.
  exists B'. split; [done|]. case_bool_decide; [|by apply not_elem_of_nil in Hx].
  by apply elem_of_sort_asc in Hx.
Qed.

Lemma picked_cons (i : nat) (c : list nat) (Bi : list A) :
  blocks !! i = Some Bi → i ∉ c →
  picked key blocks (i :: c)
  = take i (picked key blocks c) ++ sort_asc key Bi :: drop (S i) (picked key blocks c) ∧
  picked key blocks c = take i (picked key blocks c) ++ [] :: drop (S i) (picked key blocks c).
Proof.
  intros Hi Hc.
  assert (Hlen : (i < length (picked key blocks c))%nat).
  { unfold picked. rewrite length_imap. by apply lookup_lt_Some in Hi. }
  split.
  - rewrite <- insert_take_drop by done. apply list_eq. intros j.
    unfold picked. destruct (decide (j = i)) as [->|Hne].
    + rewrite list_lookup_insert_eq by done. rewrite list_lookup_imap, Hi. cbn.
      by rewrite bool_decide_eq_true_2 by by left.
    + rewrite list_lookup_insert_ne by done. rewrite !list_lookup_imap.
      destruct (blocks !! j); [|done]. cbn.
      rewrite (bool_decide_ext (j ∈ i :: c) (j ∈ c)); [done|].
      rewrite elem_of_cons. split; [by intros [?|?]|by right].
  - rewrite <- (take_drop_middle (picked key blocks c) i []) at 1; [done|].
    unfold picked. rewrite list_lookup_imap, Hi. cbn.
    by rewrite bool_decide_eq_false_2.
Qed.

Lemma elem_of_concat_take (l : list (list A)) (i : nat) (x : A) :
  x ∈ concat (take i l) → ∃ j B, (j < i)%nat ∧ l !! j = Some B ∧ x ∈ B.
Proof.
  intros (B & [j Hj]%list_elem_of_lookup & Hx)%elem_of_concat.
  apply lookup_take_Some in Hj as [Hj Hlt]. eauto.
Qed.

Lemma elem_of_concat_drop (l : list (list A)) (i : nat) (x : A) :
  x ∈ concat (drop i l) → ∃ j B, (i ≤ j)%nat ∧ l !! j = Some B ∧ x ∈ B.
Proof.
  intros (B & [j Hj]%list_elem_of_lookup & Hx)%elem_of_concat.
  rewrite lookup_drop in Hj. exists (i + j)%nat, B. split; [lia|done].
Qed.

Lemma sort_picked (c : list nat) :
  blocks_ascend key blocks → NoDup c → (∀ i, i ∈ c → (i < length blocks)%nat) →
  sort_asc key (concat (omap (λ i, blocks !! i) c)) = concat (picked key blocks c).
Proof.
  intros Hasc. induction c as [|i c IH]; intros Hnd Hlt.
  - cbn. unfold picked. symmetry. apply concat_imap_nil. intros j B.
    rewrite bool_decide_eq_false_2; [done|apply not_elem_of_nil].
  - apply NoDup_cons in Hnd as [Hi Hnd].
    destruct (lookup_lt_is_Some_2 blocks i) as [Bi HBi]; [apply Hlt; by left|].
    cbn [omap list_omap]. rewrite HBi. cbn [concat].
    rewrite sort_asc_app, IH; [|done|intros ??; apply Hlt; by right].
    destruct (picked_cons i c Bi HBi Hi) as [-> Hc].
    rewrite Hc at 1. rewrite !concat_app. cbn [concat app].
    apply foldr_insert_block.
    + intros y x (j & B & Hj & HB & Hy)%elem_of_concat_take Hx.
      destruct (picked_lookup c j B y HB Hy) as (B' & HB' & Hy').
      by apply (Hasc j i B' Bi).
    + intros x y Hx (j & B & Hj & HB & Hy)%elem_of_concat_drop.
      destruct (picked_lookup c j B y HB Hy) as (B' & HB' & Hy').
      by apply (Hasc i j Bi B'); [lia|..].
Qed.

Lemma picked_all (c : list nat) :
  (∀ i, (i < length blocks)%nat → i ∈ c) →
  picked key blocks c = sort_asc key <$> blocks.
Proof.
  intros Hall. apply list_eq. intros j. unfold picked.
  rewrite list_lookup_imap, list_lookup_fmap.
  destruct (blocks !! j) as [B|] eqn:E; [|done]. cbn.
  rewrite bool_decide_eq_true_2; [done|]. apply Hall. by apply lookup_lt_Some in E.
Qed.

(** Sorting blocks of ascending ranges, taken in any order, gives the
    sorted blocks in their own order. *)
Lemma sort_blocks_any_order (c : list nat) :
  blocks_ascend key blocks → c ≡ₚ seq 0 (length blocks) →
  sort_asc key (concat (omap (λ i, blocks !! i) c))
  = concat (sort_asc key <$> blocks).
Proof.
  intros Hasc Hc. rewrite sort_picked; [|done| |].
  - rewrite picked_all; [done|]. intros i Hi. rewrite Hc. apply elem_of_seq. lia.
  - rewrite Hc. apply NoDup_seq.
  - intros i Hi. rewrite Hc in Hi. apply elem_of_seq in Hi. lia.
Qed.
End BlockSort.

(** ** [validate_entities] *)

Section ValidatorMore.
Context `{CharDb}.
Import EntityValidator.

Lemma validate_step_cases (strict : bool) (threshold : float) (T : str)
  (out : list validated_entity) (s : validation_stats) (e : entity) :
  let r := validate_step strict threshold T (out, s) e in
  (accepted strict threshold T e = true ∧
   r = (out ++ [_clean_entity strict e T], s)) ∨
  (accepted strict threshold T e = false ∧ r.1 = out ∧
   total_entities r.2 = total_entities s ∧
   validation_errors r.2 = validation_errors s ∧
   valid_entities r.2 = valid_entities s ∧
   confidence_filtered s ≤ confidence_filtered r.2 ∧
   position_invalid s ≤ position_invalid r.2 ∧
   text_mismatch s ≤ text_mismatch r.2 ∧
   rejected r.2 = rejected s + 1 ∧
   (strict = false → position_invalid r.2 = position_invalid s ∧
                     text_mismatch r.2 = text_mismatch s)).
Proof.
  unfold validate_step, accepted, rejected.
  destruct (_validate_confidence e threshold); cbn [negb andb];
    [|right; cbn; repeat split; lia].
  destruct strict; cbn [negb andb orb]; [|by left].
  destruct (_validate_position e T); cbn [negb andb];
    [|right; cbn; repeat split; (lia || done)].
  destruct (_validate_text_consistency e T); cbn [negb];
    [by left|right; cbn; repeat split; (lia || done)].
Qed.

Lemma validate_steps (strict : bool) (threshold : float) (T : str)
  (l : list entity) (out : list validated_entity) (s : validation_stats) :
  let res := foldl (validate_step strict threshold T) (out, s) l in
  res.1 = out ++ ((λ e, _clean_entity strict e T) <$>
                  filter (λ e, accepted strict threshold T e = true) l) ∧
  total_entities res.2 = total_entities s ∧
  validation_errors res.2 = validation_errors s ∧
  valid_entities res.2 = valid_entities s ∧
  confidence_filtered s ≤ confidence_filtered res.2 ∧
  position_invalid s ≤ position_invalid res.2 ∧
  text_mismatch s ≤ text_mismatch res.2 ∧
  rejected res.2
  + Z.of_nat (length (filter (λ e, accepted strict threshold T e = true) l))
  = rejected s + Z.of_nat (length l) ∧
  (strict = false → position_invalid res.2 = position_invalid s ∧
                    text_mismatch res.2 = text_mismatch s).
Proof.
  revert out s. induction l as [|e l IH]; intros out s.
  - cbn. rewrite app_nil_r. repeat split; lia.
  - cbn [foldl]. rewrite filter_cons.
    destruct (validate_step_cases strict threshold T out s e)
      as [[Ha ->]|(Ha & E1 & ? & ? & ? & ? & ? & ? & ? & Hn)].
    + rewrite decide_True by done.
      destruct (IH (out ++ [_clean_entity strict e T]) s)
        as (-> & ? & ? & ? & ? & ? & ? & E & ?).
      rewrite fmap_cons, <- app_assoc. cbn [app].
      split_and!; try done.
      rewrite !length_cons. lia.
    + rewrite decide_False by (by rewrite Ha).
      destruct (validate_step strict threshold T (out, s) e) as [out' s'].
      cbn [fst snd] in *. subst out'.
      destruct (IH out s') as (-> & ? & ? & ? & ? & ? & ? & E & Hn').
      split_and!; try done; try lia.
      * rewrite length_cons. lia.
      * intros Hf. destruct (Hn Hf), (Hn' Hf). split; lia.
Qed.

Lemma validate_entities_unfold (v : validator) (entities : list entity)
  (T : str) (mc : option float) :
  (validate_entities v entities T mc).1 =
  (λ e, _clean_entity (strict_validation v) e T) <$>
  filter (λ e, accepted (strict_validation v) (default (min_confidence v) mc) T e = true) entities.
Proof.
  unfold validate_entities. case_bool_decide as He; [by subst|].
  match goal with |- context [foldl ?f ?a ?l] =>
    pose proof (validate_steps (strict_validation v) (default (min_confidence v) mc) T l [] a.2) as Hs;
    destruct (foldl f a l) as [out s] eqn:E end.
  cbn [fst snd] in *. rewrite E in Hs. cbn in Hs. by destruct Hs as [-> _].
Qed.

Lemma _validate_position_spec (e : entity) (T : str) :
  _validate_position e T = true ↔
  0 ≤ start e < end_ e ∧ end_ e ≤ len T ∧ end_ e - start e ≤ 200.
Proof.
  unfold _validate_position.
  repeat (case_match; try done);
  repeat match goal with
  | H : _ || _ = true |- _ => apply orb_true_iff in H
  | H : _ || _ = false |- _ => apply orb_false_iff in H as [? ?]
  end; split; intros; try done; lia.
Qed.

(** X1. With strict validation on, every entity that [validate_entities]
    returns lies within the text ([0 <= start < end <= len(text)]), spans at
    most 200 characters, has a score at or above the threshold in force,
    carries as its text the stripped slice of the text at its span, is marked
    validated, and stems from an entity of the input, whose span and score it
    keeps and whose label it carries lower-cased and stripped. *)
Theorem validate_entities_strict (v : validator) (entities : list entity)
  (text_ : str) (min_confidence_ : option float) (ve : validated_entity) :
  strict_validation v = true →
  ve ∈ (validate_entities v entities text_ min_confidence_).1 →
  let e := fields ve in
  0 ≤ start e < end_ e ∧ end_ e ≤ len text_ ∧ end_ e - start e ≤ 200 ∧
  (default (min_confidence v) min_confidence_ <=? score e)%float = true ∧
  text e = strip (slice text_ (start e) (end_ e)) ∧
  validated ve = true ∧
  ∃ e0, e0 ∈ entities ∧ start e = start e0 ∧ end_ e = end_ e0 ∧
        score e = score e0 ∧ label e = strip (lower (label e0)).
Proof.
  intros Hstrict. rewrite validate_entities_unfold, Hstrict.
  intros (e0 & -> & [Ha He0]%list_elem_of_filter)%list_elem_of_fmap.
  unfold accepted in Ha. cbn [negb orb] in Ha.
  apply andb_true_iff in Ha as [Hc [Hp Ht]%andb_true_iff].
  apply _validate_position_spec in Hp. cbn.
  repeat split; try lia; try done. by exists e0.
Qed.

(** X2. After [validate_entities] on a non-empty list the counters account
    for every entity: [total_entities] is the length of the input,
    [valid_entities] the length of the result, the three rejection counters
    and [valid_entities] sum to [total_entities], [validation_errors] is 0,
    and without strict validation nothing is counted as a position or text
    failure. *)
Theorem validation_counters_add_up (v : validator) (entities : list entity)
  (text_ : str) (min_confidence_ : option float) :
  entities ≠ [] →
  let s := stats (validate_entities v entities text_ min_confidence_).2 in
  total_entities s = Z.of_nat (length entities) ∧
  valid_entities s
  = Z.of_nat (length (validate_entities v entities text_ min_confidence_).1) ∧
  confidence_filtered s + position_invalid s + text_mismatch s
  + valid_entities s = total_entities s ∧
  0 ≤ confidence_filtered s ∧ 0 ≤ position_invalid s ∧ 0 ≤ text_mismatch s ∧
  validation_errors s = 0 ∧
  (strict_validation v = false → position_invalid s = 0 ∧ text_mismatch s = 0).
Proof.
  intros He. unfold validate_entities. rewrite bool_decide_eq_false_2 by done.
  match goal with |- context [foldl ?f ?a ?l] =>
    pose proof (validate_steps (strict_validation v) (default (min_confidence v) min_confidence_) text_ l [] a.2) as Hs;
    destruct (foldl f a l) as [out s] eqn:E end.
  cbn [fst snd] in *. rewrite E in Hs. cbn [fst snd] in Hs.
  destruct Hs as (-> & ? & ? & ? & ? & ? & ? & Hsum & Hn).
  unfold rejected in Hsum. cbn in *. rewrite length_fmap.
  split_and!; try lia; intros Hf; destruct (Hn Hf); lia.
Qed.
End ValidatorMore.

(** ** More on [resolve_overlaps] *)

Section OverlapMore.
Import EntityValidator.

Lemma keep_from_sublist (i : nat) (R : gset nat) (entities : list entity) :
  sublist (keep_from i R entities) entities.
Proof.
  revert i. induction entities as [|e l IH]; intros i; cbn; [constructor|].
  case_bool_decide; [apply sublist_cons|apply sublist_skip]; apply IH.
Qed.

Lemma keep_from_elem (i : nat) (R : gset nat) (entities : list entity) p x :
  entities !! p = Some x → (i + p)%nat ∉ R → x ∈ keep_from i R entities.
Proof.
  revert i p. induction entities as [|e l IH]; intros i p Hp Hn; [done|].
  cbn. destruct p as [|p]; cbn in Hp.
  - injection Hp as ->. rewrite Nat.add_0_r in Hn.
    rewrite bool_decide_eq_false_2 by done. by left.
  - assert (x ∈ keep_from (S i) R l).
    { apply (IH (S i) p Hp). by replace (S i + p)%nat with (i + S p)%nat by lia. }
    case_bool_decide; [done|by right].
Qed.

Lemma elem_of_keep_from (i : nat) (R : gset nat) (entities : list entity) x :
  x ∈ keep_from i R entities →
  ∃ p, entities !! p = Some x ∧ (i + p)%nat ∉ R.
Proof.
  intros [k Hk]%list_elem_of_lookup.
  destruct (keep_from_lookup i R entities k x Hk) as (p & ? & ? & _). eauto.
Qed.

Lemma detect_overlaps_ordered (entities : list entity) :
  ordered_pairs entities (_detect_overlaps entities).
Proof.
  intros p q (e1 & e2 & ? & ? & ?%lookup_lt_Some & ?)%elem_of_detect_overlaps.
  lia.
Qed.

(** A mark is only put on one member of a pair whose members are both
    unmarked, so an unmarked position is always left. *)
Lemma resolve_pairs_leaves_one (strategy : str) (entities : list entity)
  (overlaps : list (nat * nat)) (R R' : gset nat) :
  ordered_pairs entities overlaps →
  resolve_pairs strategy entities R overlaps = Some R' →
  (∃ i, (i < length entities)%nat ∧ i ∉ R) →
  ∃ i, (i < length entities)%nat ∧ i ∉ R'.
Proof.
  revert R. induction overlaps as [|[p q] l IH]; intros R Hord HR Hex.
  - cbn in HR. by injection HR as <-.
  - cbn [resolve_pairs] in HR.
    destruct (resolve_pair strategy entities R (p, q)) as [R1|] eqn:E1; [|done].
    apply (IH R1); [intros ???; apply Hord; by right|done|].
    destruct (Hord p q) as [Hpq Hq]; [by left|].
    unfold resolve_pair in E1.
    case_bool_decide as Hp; [injection E1 as <-; done|].
    case_bool_decide as Hq'; [injection E1 as <-; done|]. cbn in E1.
    destruct (entities !! p) as [e1|] eqn:Ep; [|done].
    destruct (entities !! q) as [e2|] eqn:Eq; [|done].
    injection E1 as <-.
    destruct (index_to_remove_cases strategy p q e1 e2) as [->| ->].
    + exists q. split; [lia|].
      rewrite elem_of_union, elem_of_singleton. intros [?|?]; [lia|done].
    + exists p. split; [lia|].
      rewrite elem_of_union, elem_of_singleton. intros [?|?]; [lia|done].
Qed.

Lemma resolve_overlaps_ordered (entities : list entity) (strategy : str)
  (k1 k2 : nat) (span1 span2 : entity) :
  (k1 < k2)%nat →
  resolve_overlaps entities strategy !! k1 = Some span1 →
  resolve_overlaps entities strategy !! k2 = Some span2 →
  _entities_overlap span1 span2 = false.
Proof.
  intros Hk H1 H2.
  destruct (resolve_overlaps_unfold entities strategy) as (R & HR & Heq).
  rewrite Heq in H1, H2.
  destruct (keep_from_lookup_pair R entities k1 k2 span1 span2 Hk H1 H2)
    as (p1 & p2 & Hp & Hl1 & Hl2 & Hn1 & Hn2).
  destruct (_entities_overlap span1 span2) eqn:Hov; [|done].
  apply resolve_pairs_spec in HR as [_ Hall].
  destruct (Hall p1 p2); [|done|done].
  apply elem_of_detect_overlaps. by exists span1, span2.
Qed.

Lemma detect_overlaps_nil (entities : list entity) :
  (∀ k1 k2 e1 e2, (k1 < k2)%nat → entities !! k1 = Some e1 →
     entities !! k2 = Some e2 → _entities_overlap e1 e2 = false) →
  _detect_overlaps entities = [].
Proof.
  intros Hno. destruct (_detect_overlaps entities) as [|[p q] l] eqn:E; [done|].
  assert ((p, q) ∈ _detect_overlaps entities) as Hin by (rewrite E; by left).
  apply elem_of_detect_overlaps in Hin as (e1 & e2 & Hlt & H1 & H2 & Hov).
  by rewrite (Hno p q e1 e2 Hlt H1 H2) in Hov.
Qed.

Lemma resolve_overlaps_separate (entities : list entity) (strategy : str) :
  _detect_overlaps entities = [] → resolve_overlaps entities strategy = entities.
Proof.
  intros E. unfold resolve_overlaps. rewrite E.
  case_bool_decide; [done|]. by rewrite bool_decide_eq_true_2.
Qed.

(** X3. [resolve_overlaps] returns a subsequence of its input, in the
    input's order, and never an empty one for a non-empty input. *)
Theorem resolve_overlaps_keeps_some (entities : list entity) (strategy : str) :
  sublist (resolve_overlaps entities strategy) entities ∧
  (entities ≠ [] → resolve_overlaps entities strategy ≠ []).
Proof.
  destruct (resolve_overlaps_unfold entities strategy) as (R & HR & ->).
  split; [apply keep_from_sublist|]. intros Hne.
  destruct (resolve_pairs_leaves_one strategy entities _ ∅ R
              (detect_overlaps_ordered entities) HR) as (i & Hi & Hn).
  { exists 0%nat. split; [destruct entities; [done|cbn; lia]|].
    apply not_elem_of_empty. }
  destruct (lookup_lt_is_Some_2 entities i Hi) as [x Hx].
  intros Hnil. pose proof (keep_from_elem 0 R entities i x Hx Hn) as Hin.
  rewrite Hnil in Hin. by apply not_elem_of_nil in Hin.
Qed.

(** X4. The output of [resolve_overlaps] is a fixed point: resolving it
    again, under any strategy, changes nothing. *)
Theorem resolve_overlaps_idempotent (entities : list entity)
  (strategy strategy' : str) :
  resolve_overlaps (resolve_overlaps entities strategy) strategy'
  = resolve_overlaps entities strategy.
Proof.
  apply resolve_overlaps_separate, detect_overlaps_nil.
  intros k1 k2 e1 e2. apply resolve_overlaps_ordered.
Qed.

Lemma resolve_pairs_never_marks (strategy : str) (entities : list entity)
  (m : nat) (overlaps : list (nat * nat)) (R R' : gset nat) :
  (∀ p q e1 e2, (p, q) ∈ overlaps → entities !! p = Some e1 →
     entities !! q = Some e2 → index_to_remove strategy p q e1 e2 ≠ m) →
  resolve_pairs strategy entities R overlaps = Some R' →
  m ∉ R → m ∉ R'.
Proof.
  revert R. induction overlaps as [|[p q] l IH]; intros R Hnever HR Hm.
  - cbn in HR. by injection HR as <-.
  - cbn [resolve_pairs] in HR.
    destruct (resolve_pair strategy entities R (p, q)) as [R1|] eqn:E1; [|done].
    apply (IH R1); [intros ?????; apply Hnever; by right|done|].
    unfold resolve_pair in E1.
    case_bool_decide as Hp; [injection E1 as <-; done|].
    case_bool_decide as Hq'; [injection E1 as <-; done|]. cbn in E1.
    destruct (entities !! p) as [e1|] eqn:Ep; [|done].
    destruct (entities !! q) as [e2|] eqn:Eq; [|done].
    injection E1 as <-.
    rewrite elem_of_union, elem_of_singleton. intros [E|?]; [|done].
    by apply (Hnever p q e1 e2); [left|..].
Qed.

(** X5. The entity that is strictly best by the criterion of the
    strategy is always kept: the one of strictly highest score under
    [highest_confidence], the strictly longest under [longest], and the first
    of the list under any other strategy name. *)
Theorem resolve_overlaps_keeps_best (entities : list entity) (strategy : str)
  (m : nat) (best : entity) :
  entities !! m = Some best →
  (strategy = py "highest_confidence" ∧
   ∀ j e, j ≠ m → entities !! j = Some e →
          (score e <? score best)%float = true) ∨
  (strategy = py "longest" ∧
   ∀ j e, j ≠ m → entities !! j = Some e →
          end_ e - start e < end_ best - start best) ∨
  (strategy ≠ py "highest_confidence" ∧ strategy ≠ py "longest" ∧ m = O) →
  best ∈ resolve_overlaps entities strategy.
Proof.
  intros Hm Hbest.
  destruct (resolve_overlaps_unfold entities strategy) as (R & HR & ->).
  apply (keep_from_elem 0 R entities m best Hm). cbn.
  apply (resolve_pairs_never_marks strategy entities m
           (_detect_overlaps entities) ∅ R);
    [|done|apply not_elem_of_empty].
  intros p q e1 e2 Hin H1 H2.
  destruct (detect_overlaps_ordered entities p q Hin) as [Hpq _].
  unfold index_to_remove.
  destruct Hbest as [[-> Hs]|[[-> Hl]|(Hn1 & Hn2 & ->)]].
  - rewrite decide_True by done. cbn zeta.
    destruct (decide (p = m)) as [->|Hp].
    + assert (e1 = best) as -> by congruence.
      rewrite (float_ltb_asym (score e2) (score best)); [lia|].
      apply (Hs q); [lia|done].
    + destruct (decide (q = m)) as [->|Hq].
      * assert (e2 = best) as -> by congruence.
        by rewrite (Hs p e1 Hp H1).
      * by destruct (_ <? _)%float.
  - rewrite decide_False by (intros ?%py_inj; done).
    rewrite decide_True by done. cbn zeta.
    destruct (decide (p = m)) as [->|Hp].
    + assert (e1 = best) as -> by congruence.
      pose proof (Hl q e2 ltac:(lia) H2).
      destruct (Z.ltb_spec (end_ best - start best) (end_ e2 - start e2)); lia.
    + destruct (decide (q = m)) as [->|Hq].
      * assert (e2 = best) as -> by congruence.
        pose proof (Hl p e1 Hp H1).
        by destruct (Z.ltb_spec (end_ e1 - start e1) (end_ best - start best)); [|lia].
      * by destruct (_ <? _).
  - rewrite !decide_False by done. lia.
Qed.
End OverlapMore.

Section FirstKept.
Import EntityValidator.

Lemma index_to_remove_second (strategy : str) idx1 idx2 e1 e2 :
  drops_second strategy → index_to_remove strategy idx1 idx2 e1 e2 = idx2.
Proof. intros [? ?]. unfold index_to_remove. by rewrite !decide_False. Qed.

(** The pairs of one span [i] with later spans: they mark all their second
    members, unless [i] is marked itself. *)
Lemma resolve_block_first (strategy : str) (entities : list entity)
  (i : nat) (e : entity) (pairs : list (nat * nat)) (R : gset nat) :
  drops_second strategy →
  entities !! i = Some e →
  (∀ p q, (p, q) ∈ pairs → p = i ∧ (i < q)%nat ∧ is_Some (entities !! q)) →
  resolve_pairs strategy entities R pairs
  = Some (if bool_decide (i ∈ R) then R else R ∪ list_to_set pairs.*2).
Proof.
  intros Hs Hi. revert R. induction pairs as [|[p q] pairs IH]; intros R Hp.
  - cbn. case_bool_decide; [done|]. by rewrite (right_id_L ∅ (∪)).
  - destruct (Hp p q) as (-> & Hlt & [e2 He2]); [by left|].
    cbn [resolve_pairs]. unfold resolve_pair.
    case_bool_decide as HiR; cbn [orb].
    + rewrite IH by (intros ???; apply Hp; by right).
      by rewrite bool_decide_eq_true_2.
    + case_bool_decide as HqR.
      * rewrite IH by (intros ???; apply Hp; by right).
        rewrite bool_decide_eq_false_2 by done. f_equal. cbn.
        apply set_eq. intros x. rewrite !elem_of_union, elem_of_singleton.
        split; [tauto|]. intros [?|[->|?]]; tauto.
      * rewrite Hi, He2, index_to_remove_second by done.
        rewrite IH by (intros ???; apply Hp; by right).
        rewrite bool_decide_eq_false_2.
        -- f_equal. cbn. apply set_eq. intros x.
           rewrite !elem_of_union, elem_of_singleton. tauto.
        -- rewrite elem_of_union, elem_of_singleton. intros [?|?]; [lia|done].
Qed.

Lemma existsb_snoc {A} (f : A → bool) (l : list A) (x : A) :
  existsb f (l ++ [x]) = existsb f l || f x.
Proof. rewrite existsb_app. cbn. by rewrite orb_false_r. Qed.

Lemma resolve_first_from (strategy : str) (entities : list entity)
  (l : list entity) (i : nat) (R : gset nat) (kept : list entity) :
  drops_second strategy →
  drop i entities = l →
  (∀ k y, l !! k = Some y →
          (i + k)%nat ∈ R ↔ existsb (λ x, _entities_overlap x y) kept = true) →
  ∃ R', resolve_pairs strategy entities R (detect_from i l) = Some R' ∧
        keep_from i R' l = keep_first kept l ∧
        ∀ p, (p < i)%nat → p ∈ R' ↔ p ∈ R.
Proof.
  intros Hs. revert i R kept. induction l as [|e l IH]; intros i R kept Hl Hinv.
  - exists R. done.
  - assert (Hi : entities !! i = Some e).
    { rewrite <- (Nat.add_0_r i), <- lookup_drop, Hl. done. }
    assert (Hl' : drop (S i) entities = l).
    { change l with (drop 1 (e :: l)). rewrite <- Hl, drop_drop.
      f_equal. lia. }
    assert (Hlook : ∀ k, l !! k = entities !! (S i + k)%nat).
    { intros k. by rewrite <- Hl', lookup_drop. }
    cbn [detect_from]. rewrite resolve_pairs_app.
    rewrite (resolve_block_first strategy entities i e _ R Hs Hi).
    2:{ intros p q (-> & q' & e2 & -> & Hq & _)%elem_of_overlaps_of.
        split_and!; [done|lia|]. rewrite <- Hlook. eauto. }
    cbn [mbind option_bind].
    set (O := list_to_set (overlaps_of e i (S i) l).*2 : gset nat).
    assert (HO : ∀ q, q ∈ O ↔ ∃ k y, q = (S i + k)%nat ∧ l !! k = Some y ∧
                                     _entities_overlap e y = true).
    { intros q. unfold O. rewrite elem_of_list_to_set, list_elem_of_fmap. split.
      - intros ([p q0] & -> & (-> & q' & e2 & -> & ? & ?)%elem_of_overlaps_of).
        by exists q', e2.
      - intros (k & y & -> & ? & ?). exists (i, (S i + k)%nat). split; [done|].
        apply elem_of_overlaps_of. split; [done|]. by exists k, y. }
    pose proof (Hinv 0%nat e eq_refl) as Hi0. rewrite Nat.add_0_r in Hi0.
    cbn [keep_from keep_first].
    destruct (existsb (λ x, _entities_overlap x e) kept) eqn:Hex.
    + rewrite bool_decide_eq_true_2 by by apply Hi0.
      destruct (IH (S i) R kept Hl') as (R' & HR' & Hk & Hp).
      { intros k y Hy. rewrite <- (Hinv (S k) y Hy).
        by replace (S i + k)%nat with (i + S k)%nat by lia. }
      exists R'. split_and!; [done| |intros p ?; apply Hp; lia].
      rewrite bool_decide_eq_true_2; [done|]. apply Hp; [lia|]. by apply Hi0.
    + assert (i ∉ R) as HiR by (rewrite Hi0; congruence).
      rewrite bool_decide_eq_false_2 by done.
      destruct (IH (S i) (R ∪ O) (kept ++ [e]) Hl') as (R' & HR' & Hk & Hp).
      { intros k y Hy. rewrite existsb_snoc, orb_true_iff, elem_of_union.
        rewrite <- (Hinv (S k) y Hy), HO.
        replace (i + S k)%nat with (S i + k)%nat by lia.
        split; (intros [?|Hr]; [by left|right]).
        - destruct Hr as (k' & y' & Hk' & Hy' & ?).
          assert (k' = k) as -> by lia. congruence.
        - by exists k, y. }
      exists R'. split_and!; [done| |].
      * rewrite bool_decide_eq_false_2; [by rewrite Hk|].
        rewrite Hp by lia. rewrite elem_of_union, HO.
        intros [?|(k & y & ? & _)]; [done|lia].
      * intros p Hlt. rewrite Hp by lia. rewrite elem_of_union, HO.
        split; [|by left]. intros [?|(k & y & ? & _)]; [done|lia].
Qed.

(** X6. Under the strategy [first], and under any strategy name other
    than [highest_confidence] and [longest], [resolve_overlaps] is the greedy
    selection from left to right: a span is kept exactly when it overlaps
    none of the spans kept before it. *)
Theorem resolve_overlaps_first_kept (entities : list entity) (strategy : str) :
  strategy ≠ py "highest_confidence" → strategy ≠ py "longest" →
  resolve_overlaps entities strategy = keep_first [] entities.
Proof.
  intros H1 H2.
  destruct (resolve_overlaps_unfold entities strategy) as (R & HR & ->).
  destruct (resolve_first_from strategy entities entities 0 ∅ [])
    as (R' & HR' & Hk & _); [done|done| |].
  { intros k y _. cbn. split; [by intros ?%not_elem_of_empty|done]. }
  unfold _detect_overlaps in HR. rewrite HR in HR'. by injection HR' as <-.
Qed.
End FirstKept.

(** ** [merge] and its statistics *)

Section MergerMore.
Context `{CharDb}.
Import EntityMerger.

Lemma merge_step_cases (max_gap : Z) (T : str) (merged : list entity)
  (current next_entity : entity) :
  merge_step max_gap T (merged, current) next_entity =
  if can_merge max_gap current next_entity
  then (merged, (merge_step max_gap T ([], current) next_entity).2)
  else (merged ++ [set_count current None], set_count next_entity (Some 1)).
Proof.
  unfold merge_step, can_merge.
  rewrite (bool_decide_ext (label next_entity = label current)
             (label current = label next_entity)) by done.
  by destruct (_ && _).
Qed.

Lemma merge_steps_from (max_gap : Z) (T : str) (rest merged : list entity)
  (current : entity) :
  let st := foldl (merge_step max_gap T) (merged, current) rest in
  st.1 ++ [set_count st.2 None] = merged ++ merge_from max_gap T current rest.
Proof.
  revert merged current. induction rest as [|x rest IH]; intros merged current.
  - done.
  - cbn [foldl merge_from]. rewrite merge_step_cases.
    destruct (can_merge max_gap current x).
    + apply IH.
    + cbn zeta in IH. rewrite IH. by rewrite <- app_assoc.
Qed.

Lemma merge_unfold (max_gap : Z) (entities : list entity) (T : str) :
  merge max_gap entities T =
  match sort_asc start entities with
  | [] => []
  | first :: rest => merge_from max_gap T (set_count first (Some 1)) rest
  end.
Proof.
  unfold merge. destruct (sort_asc start entities) as [|first rest]; [done|].
  pose proof (merge_steps_from max_gap T rest [] (set_count first (Some 1))) as E.
  cbn zeta in E. by destruct (foldl _ _ _).
Qed.

Lemma merged_current (max_gap : Z) (T : str) (current x : entity) :
  let c := (merge_step max_gap T ([], current) x).2 in
  can_merge max_gap current x = true →
  label c = label current ∧ start c = start current ∧ end_ c = end_ x ∧
  text c = strip (slice T (start current) (end_ x)).
Proof.
  intros c Hm. subst c. rewrite merge_step_cases, Hm. cbn [snd].
  unfold merge_step, can_merge in *.
  rewrite (bool_decide_ext (label x = label current)
             (label current = label x)) by done.
  by rewrite Hm.
Qed.

Lemma merge_from_head (max_gap : Z) (T : str) (rest : list entity)
  (current : entity) :
  ∃ e l, merge_from max_gap T current rest = e :: l ∧
         label e = label current ∧ start e = start current ∧ count e = None.
Proof.
  revert current. induction rest as [|x rest IH]; intros current;
    cbn [merge_from].
  - by eexists _, _.
  - destruct (can_merge max_gap current x) eqn:Hm.
    + destruct (IH (merge_step max_gap T ([], current) x).2)
        as (e & l & -> & ? & ? & ?).
      destruct (merged_current max_gap T current x Hm) as (? & ? & _).
      exists e, l. split_and!; [done|congruence|congruence|done].
    + by eexists _, _.
Qed.

Lemma can_merge_ext (max_gap : Z) (a a' b b' : entity) :
  label a = label a' → end_ a = end_ a' → label b = label b' →
  start b = start b' → can_merge max_gap a b = can_merge max_gap a' b'.
Proof. unfold can_merge. by intros -> -> -> ->. Qed.

Lemma set_count_None (e : entity) : count e = None → set_count e None = e.
Proof. destruct e; cbn. by intros ->. Qed.

Lemma merge_from_settled (max_gap : Z) (T : str) (rest : list entity)
  (current : entity) :
  StronglySorted (λ a b, start a ≤ start b) (current :: rest) →
  let out := merge_from max_gap T current rest in
  Sorted (settled max_gap) out ∧ Forall (λ e, count e = None) out ∧
  (length out ≤ S (length rest))%nat.
Proof.
  revert current. induction rest as [|x rest IH]; intros current Hs;
    cbn [merge_from].
  - cbn. split_and!; [repeat constructor|by repeat constructor|lia].
  - apply StronglySorted_cons in Hs as [Hc Hs].
    apply Forall_cons in Hc as [Hcx Hc].
    destruct (can_merge max_gap current x) eqn:Hm.
    + destruct (merged_current max_gap T current x Hm) as (_ & Hst & _).
      destruct (IH (merge_step max_gap T ([], current) x).2) as (? & ? & ?).
      { apply StronglySorted_cons in Hs as [_ Hs].
        constructor; [done|]. by rewrite Hst. }
      split_and!; [done|done|rewrite length_cons; lia].
    + destruct (IH (set_count x (Some 1))) as (Ho & Hn & Hl).
      { apply StronglySorted_cons in Hs as [Hx Hs]. by constructor. }
      destruct (merge_from_head max_gap T rest (set_count x (Some 1)))
        as (e & l & E & El & Es & _).
      rewrite E in *. split_and!.
      * constructor; [done|]. constructor. split; [cbn in *; lia|].
        by rewrite (can_merge_ext max_gap _ current e x).
      * by constructor.
      * rewrite !length_cons in *. lia.
Qed.

Lemma merge_from_settled_id (max_gap : Z) (T : str) (l : list entity)
  (c : entity) (k : option Z) :
  Sorted (settled max_gap) (c :: l) → Forall (λ e, count e = None) l →
  merge_from max_gap T (set_count c k) l = set_count c None :: l.
Proof.
  revert c k. induction l as [|x l IH]; intros c k Hs Hn; cbn [merge_from].
  - done.
  - apply Sorted_inv in Hs as [Hs Hcx]. apply HdRel_inv in Hcx as [_ Hcx].
    apply Forall_cons in Hn as [Hx Hn].
    rewrite (can_merge_ext max_gap _ c x x), Hcx by done.
    cbn. rewrite (IH x (Some 1) Hs Hn). by rewrite (set_count_None x Hx).
Qed.

(** What the loop leaves: ascending starts, no neighbours left to merge,
    no [count] key, and no more entities than came in. *)
Lemma merge_output (max_gap : Z) (entities : list entity) (text_ : str) :
  let out := merge max_gap entities text_ in
  Sorted (λ a b, start a ≤ start b ∧ can_merge max_gap a b = false) out ∧
  Forall (λ e, count e = None) out ∧
  (length out ≤ length entities)%nat ∧
  (entities ≠ [] → out ≠ []).
Proof.
  cbn zeta. rewrite merge_unfold.
  pose proof (sort_asc_sorted start entities) as Hs.
  pose proof (length_sort_asc start entities) as Hl.
  destruct (sort_asc start entities) as [|first rest].
  { split_and!; [constructor|constructor|cbn; lia|].
    destruct entities; [done|discriminate Hl]. }
  destruct (merge_from_settled max_gap text_ rest (set_count first (Some 1)))
    as (Ho & Hn & Hlen).
  { apply StronglySorted_cons in Hs as [Hf Hs]. by constructor. }
  split_and!; [done|done|cbn in *; lia|].
  intros _ E.
  destruct (merge_from_head max_gap text_ rest (set_count first (Some 1)))
    as (e & l & E' & _). by rewrite E in E'.
Qed.

(** X7. The output of [merge] is in ascending order of start, holds no two
    neighbours that [can_merge] would accept, carries no [count] key, is no
    longer than the input, and is empty only for an empty input. *)
Theorem merge_settled (max_gap : Z) (entities : list entity) (text_ : str) :
  let out := merge max_gap entities text_ in
  Sorted (λ a b, start a ≤ start b ∧ can_merge max_gap a b = false) out ∧
  Forall (λ e, count e = None) out ∧
  (length out ≤ length entities)%nat ∧
  (entities ≠ [] → out ≠ []).
Proof. apply merge_output. Qed.

Lemma settled_sorted (max_gap : Z) (l : list entity) :
  Sorted (settled max_gap) l → StronglySorted (λ a b, start a ≤ start b) l.
Proof.
  intros Hs. apply Sorted_StronglySorted; [intros a b c; lia|].
  induction Hs as [|a l Hl IH Ha]; constructor; [done|].
  destruct Ha as [|b l' [? _]]; by constructor.
Qed.

(** X8. [merge] is idempotent: merging its output again, with the same
    gap and text, changes nothing. *)
Theorem merge_idempotent (max_gap : Z) (entities : list entity) (text_ : str) :
  merge max_gap (merge max_gap entities text_) text_
  = merge max_gap entities text_.
Proof.
  destruct (merge_output max_gap entities text_) as (Hs & Hn & _).
  cbn zeta in *. revert Hs Hn.
  generalize (merge max_gap entities text_). intros out Hs Hn.
  rewrite merge_unfold, (sort_asc_id start out) by by eapply settled_sorted.
  destruct out as [|e l]; [done|].
  apply Forall_cons in Hn as [He Hn].
  rewrite (merge_from_settled_id max_gap text_ l e (Some 1) Hs Hn).
  by rewrite (set_count_None e He).
Qed.
End MergerMore.

Section MergeSeparate.
Context `{CharDb}.
Import EntityMerger.

Lemma insert_asc_pairs (R : entity → entity → Prop) (x : entity) l :
  (∀ a b, R a b → R b a) →
  Forall (R x) l → ForallOrdPairs R l →
  ForallOrdPairs R (insert_asc start x l).
Proof.
  intros Hsym Hx Hl. induction Hl as [|y l Hy Hl IH]; simpl.
  - constructor; [done | constructor].
  - destruct (start x <=? start y).
    + constructor; [done|]. by constructor.
    + apply Forall_cons in Hx as [Hxy Hx]. constructor; [|by apply IH].
      rewrite insert_asc_Permutation. constructor; [by apply Hsym | done].
Qed.

Lemma sort_asc_pairs (R : entity → entity → Prop) l :
  (∀ a b, R a b → R b a) →
  ForallOrdPairs R l → ForallOrdPairs R (sort_asc start l).
Proof.
  intros Hsym. induction 1 as [|x l Hx Hl IH]; simpl; [constructor|].
  apply insert_asc_pairs; [done| |done].
  by rewrite sort_asc_Permutation.
Qed.

Lemma ascending_chain_separate (T : str) (l : list entity) :
  ascending_chain T l → spans_separate T l.
Proof.
  intros [Hb Hs]. split; [done|]. clear Hb.
  induction Hs as [|a l Hl IH Ha]; constructor; [|done].
  eapply Forall_impl; [exact Ha|]. cbn. intros b Hab.
  unfold EntityValidator._entities_overlap.
  by rewrite (proj2 (Z.leb_le _ _) Hab).
Qed.

Lemma separate_ascending_chain (T : str) (entities : list entity) :
  spans_separate T entities → ascending_chain T (sort_asc start entities).
Proof.
  intros [Hb Hp]. split; [by rewrite sort_asc_Permutation|].
  assert (Hb' : Forall (in_bounds T) (sort_asc start entities))
    by by rewrite sort_asc_Permutation.
  pose proof (sort_asc_pairs _ entities _entities_overlap_sym Hp) as Hp'.
  pose proof (sort_asc_sorted start entities) as Hs.
  revert Hb' Hp' Hs. generalize (sort_asc start entities). clear.
  induction l as [|a l IH]; intros Hb Hp Hs; [constructor|].
  apply Forall_cons in Hb as [Ha Hb].
  apply StronglySorted_cons in Hs as [Has Hs].
  inversion Hp as [|?? Hap Hp']; subst.
  constructor; [by apply IH|].
  rewrite Forall_forall in *. intros b Hb'.
  pose proof (Hap b Hb') as Hov. pose proof (Has b Hb') as Hst.
  pose proof (Hb b Hb') as Hbb.
  unfold EntityValidator._entities_overlap in Hov.
  apply negb_false_iff, orb_true_iff in Hov as [?%Z.leb_le|?%Z.leb_le]; [done|].
  unfold in_bounds in *. lia.
Qed.

Lemma merge_from_chain (max_gap : Z) (T : str) (rest : list entity)
  (current : entity) :
  ascending_chain T (current :: rest) →
  let out := merge_from max_gap T current rest in
  ascending_chain T out ∧
  (∀ e, e ∈ out → start current ≤ start e) ∧
  (Forall (text_of_span T) (current :: rest) → Forall (text_of_span T) out).
Proof.
  revert current. induction rest as [|x rest IH]; intros current [Hb Hs];
    cbn [merge_from].
  - split_and!.
    + split; [|repeat constructor].
      apply Forall_singleton. apply Forall_inv in Hb. exact Hb.
    + by intros e ->%list_elem_of_singleton.
    + intros Ht%Forall_inv. apply Forall_singleton. exact Ht.
  - apply Forall_cons in Hb as [Hbc Hb].
    apply StronglySorted_cons in Hs as [Hc Hs].
    apply Forall_cons in Hc as [Hcx Hc].
    pose proof Hb as Hb'. apply Forall_cons in Hb' as [Hbx Hbr].
    pose proof Hs as Hs'. apply StronglySorted_cons in Hs' as [Hx Hsr].
    destruct (can_merge max_gap current x) eqn:Hm.
    + destruct (merged_current max_gap T current x Hm) as (_ & Hst & Hen & Htx).
      destruct (IH (merge_step max_gap T ([], current) x).2) as (? & Hge & Ht).
      { split.
        - constructor; [|done]. unfold in_bounds in *. rewrite Hst, Hen. lia.
        - constructor; [done|]. by rewrite Hen. }
      split_and!; [done|intros e He; rewrite <- Hst; by apply Hge|].
      intros Hall. apply Forall_cons in Hall as [_ Hall].
      apply Forall_cons in Hall as [_ Htr].
      apply Ht. constructor; [|done].
      unfold text_of_span. by rewrite Htx, Hst, Hen.
    + destruct (IH (set_count x (Some 1))) as ([Ho1 Ho2] & Hge & Ht).
      { split; [by constructor|by constructor]. }
      split_and!.
      * split; [by constructor|]. constructor; [done|].
        apply Forall_forall. intros e He.
        specialize (Hge e He). cbn in *. lia.
      * intros e [->|He]%elem_of_cons; [done|].
        specialize (Hge e He). unfold in_bounds in *. cbn in *. lia.
      * intros Hall. apply Forall_cons in Hall as [Htc Hall].
        apply Forall_cons in Hall as [Htx Htr].
        constructor; [exact Htc|]. apply Ht. by constructor.
Qed.

Lemma merge_separate (max_gap : Z) (entities : list entity) (T : str) :
  spans_separate T entities →
  spans_separate T (merge max_gap entities T) ∧
  (Forall (text_of_span T) entities →
   Forall (text_of_span T) (merge max_gap entities T)).
Proof.
  intros Hsep. rewrite merge_unfold.
  pose proof (separate_ascending_chain T entities Hsep) as Hc.
  pose proof (sort_asc_Permutation start entities) as Hp.
  destruct (sort_asc start entities) as [|first rest].
  { split; [split; constructor|constructor]. }
  destruct (merge_from_chain max_gap T rest (set_count first (Some 1)))
    as (Ho & _ & Ht).
  { destruct Hc as [Hb Hs]. split.
    - apply Forall_cons in Hb as [? ?]. by constructor.
    - apply StronglySorted_cons in Hs as [? ?]. by constructor. }
  split; [by apply ascending_chain_separate|].
  intros Hall. apply Ht. rewrite <- Hp in Hall.
  apply Forall_cons in Hall as [? ?]. by constructor.
Qed.

(** X9. On spans that lie within the text and do not overlap, [merge]
    returns spans that lie within the text and do not overlap; and if the
    text of every span is the stripped slice of the text at that span, so it
    is after the merge. *)
Theorem merge_keeps_separate (max_gap : Z) (entities : list entity)
  (text_ : str) :
  spans_separate text_ entities →
  spans_separate text_ (merge max_gap entities text_) ∧
  (Forall (text_of_span text_) entities →
   Forall (text_of_span text_) (merge max_gap entities text_)).
Proof. apply merge_separate. Qed.
End MergeSeparate.

Section MergeStatistics.
Context `{CharDb}.
Import EntityMerger.

Lemma label_count_cons (l : str) (e : entity) (entities : list entity) :
  label_count l (e :: entities)
  = ((if bool_decide (label e = l) then 1 else 0) + label_count l entities)%nat.
Proof.
  unfold label_count. rewrite filter_cons.
  case_bool_decide; by destruct (decide _).
Qed.

Lemma label_count_Permutation (l : str) (l1 l2 : list entity) :
  l1 ≡ₚ l2 → label_count l l1 = label_count l l2.
Proof. unfold label_count. by intros ->. Qed.

Lemma count_by_label_from (m : gmap str Z) (entities : list entity) (l : str) :
  foldl (λ by_label e,
           <[label e := default 0 (by_label !! label e) + 1]> by_label)
        m entities !! l
  = if bool_decide (label_count l entities = 0%nat) then m !! l
    else Some (default 0 (m !! l) + Z.of_nat (label_count l entities)).
Proof.
  revert m. induction entities as [|e entities IH]; intros m; [done|].
  cbn [foldl]. rewrite IH, label_count_cons.
  destruct (decide (label e = l)) as [El|Hl].
  - rewrite El, lookup_insert_eq, (bool_decide_eq_true_2 (l = l)) by done.
    cbn [default from_option id]. repeat case_bool_decide; try lia; f_equal; lia.
  - rewrite lookup_insert_ne, (bool_decide_eq_false_2 (label e = l)) by done.
    done.
Qed.

Lemma count_by_label_lookup (entities : list entity) (l : str) :
  count_by_label entities !! l
  = if bool_decide (label_count l entities = 0%nat) then None
    else Some (Z.of_nat (label_count l entities)).
Proof.
  unfold count_by_label. rewrite count_by_label_from, lookup_empty.
  case_bool_decide; [done|]. cbn. f_equal.
Qed.

(** The labels the loop emits from a candidate on, counted: none more than
    came in, and one at least of every label that came in. *)
Lemma merge_from_label_count (max_gap : Z) (T : str) (l : str)
  (rest : list entity) (current : entity) :
  let out := merge_from max_gap T current rest in
  (label_count l out ≤ label_count l (current :: rest))%nat ∧
  (label_count l (current :: rest) ≠ 0 → label_count l out ≠ 0)%nat.
Proof.
  revert current. induction rest as [|x rest IH]; intros current;
    cbn [merge_from].
  - cbn zeta. rewrite !label_count_cons. cbn [label set_count]. lia.
  - destruct (can_merge max_gap current x) eqn:Hm.
    + destruct (merged_current max_gap T current x Hm) as (Hl & _).
      specialize (IH (merge_step max_gap T ([], current) x).2).
      cbn zeta in IH. rewrite label_count_cons, Hl in IH.
      rewrite !label_count_cons.
      unfold can_merge in Hm. apply andb_true_iff in Hm as [Hm _].
      apply bool_decide_eq_true in Hm. rewrite <- Hm.
      repeat case_bool_decide; lia.
    + specialize (IH (set_count x (Some 1))). cbn zeta in IH.
      rewrite !label_count_cons in *. cbn [label set_count] in *.
      repeat case_bool_decide; lia.
Qed.

Lemma merge_label_count (max_gap : Z) (entities : list entity) (T l : str) :
  let out := merge max_gap entities T in
  (label_count l out ≤ label_count l entities)%nat ∧
  (label_count l entities ≠ 0 → label_count l out ≠ 0)%nat.
Proof.
  cbn zeta. rewrite merge_unfold.
  rewrite <- (label_count_Permutation l _ _ (sort_asc_Permutation start entities)).
  destruct (sort_asc start entities) as [|first rest]; [done|].
  pose proof (merge_from_label_count max_gap T l rest (set_count first (Some 1)))
    as IH.
  cbn zeta in IH. rewrite !label_count_cons in *. cbn [label set_count] in *.
  done.
Qed.

(** X10. [get_merge_statistics] on the input and the output of [merge]:
    [entities_merged] is not negative, and below [original_count] for a
    non-empty input; [original_by_label] counts the entities of each label;
    [merged_by_label] has the same labels as [original_by_label], with no
    larger count under any of them. *)
Theorem merge_statistics_by_label (max_gap : Z) (s : merge_stats)
  (entities : list entity) (text_ : str) :
  let st := get_merge_statistics s entities (merge max_gap entities text_) in
  0 ≤ entities_merged st ∧
  (entities ≠ [] → entities_merged st < original_count st) ∧
  (∀ l, original_by_label st !! l
        = if bool_decide (label_count l entities = 0%nat) then None
          else Some (Z.of_nat (label_count l entities))) ∧
  (∀ l, is_Some (merged_by_label st !! l) ↔ is_Some (original_by_label st !! l)) ∧
  (∀ l, default 0 (merged_by_label st !! l)
        ≤ default 0 (original_by_label st !! l)).
Proof.
  cbn zeta. unfold get_merge_statistics.
  cbn [entities_merged original_count original_by_label merged_by_label].
  destruct (merge_output max_gap entities text_) as (_ & _ & Hlen & Hne).
  cbn zeta in *. split_and!.
  - lia.
  - intros Hn. specialize (Hne Hn).
    destruct (merge max_gap entities text_); [done|]. cbn in *. lia.
  - intros l. apply count_by_label_lookup.
  - intros l. rewrite !count_by_label_lookup.
    destruct (merge_label_count max_gap entities text_ l) as [Hle Hpos].
    cbn zeta in *. repeat case_bool_decide; try lia;
      split; intros [? ?]; (done || eauto).
  - intros l. rewrite !count_by_label_lookup.
    destruct (merge_label_count max_gap entities text_ l) as [Hle Hpos].
    cbn zeta in *. repeat case_bool_decide; cbn; lia.
Qed.

Lemma track_labels_lookup (m : gmap str Z) (entities : list entity) (l : str) :
  foldl track_label m entities !! l
  = match m !! l with
    | Some n => Some n
    | None => if bool_decide (l ∈ label <$> entities) then Some 0 else None
    end.
Proof.
  revert m. induction entities as [|e entities IH]; intros m.
  - cbn. by destruct (m !! l).
  - cbn [foldl]. rewrite IH. unfold track_label. rewrite fmap_cons.
    destruct (decide (label e = l)) as [El|Hl].
    + rewrite El. destruct (m !! l) eqn:E; rewrite ?E; [done|].
      rewrite lookup_insert_eq, bool_decide_eq_true_2; [done|by left].
    + assert (Hb : bool_decide (l ∈ label e :: (label <$> entities))
                   = bool_decide (l ∈ label <$> entities)).
      { apply bool_decide_ext. rewrite elem_of_cons.
        split; [intros [?|?]; [congruence|done] | by right]. }
      rewrite Hb.
      destruct (m !! label e) eqn:E; [done|].
      by rewrite lookup_insert_ne by done.
Qed.

(** X11. After any series of [merge] calls on a new instance,
    [total_processed] is the number of entities passed in, [total_merged]
    lies between 0 and [total_processed], and [merges_by_label] holds exactly
    the labels seen, each with the value 0: no merge is ever counted under
    its label. *)
Theorem merge_stats_running (max_gap : Z) (calls : list (list entity * str)) :
  let s := merge_stats_of max_gap calls in
  total_processed s = Z.of_nat (length (concat calls.*1)) ∧
  0 ≤ total_merged s ≤ total_processed s ∧
  (∀ l, merges_by_label s !! l
        = if bool_decide (l ∈ label <$> concat calls.*1) then Some 0 else None).
Proof.
  unfold merge_stats_of. induction calls as [|[entities T] calls IH] using rev_ind.
  - cbn. split_and!; [done|lia|lia|]. intros l. rewrite lookup_empty.
    by rewrite bool_decide_eq_false_2 by by intros ?%elem_of_nil.
  - rewrite foldl_app. cbn [foldl fst snd]. cbn zeta in IH.
    destruct IH as (Hp & Hm & Hl). revert Hp Hm Hl.
    generalize (foldl (λ s c, merge_stats_after max_gap s c.1 c.2)
                  reset_statistics calls).
    intros s Hp Hm Hl.
    rewrite fmap_app, concat_app, length_app, fmap_app. cbn [fmap list_fmap concat fst].
    rewrite app_nil_r.
    unfold merge_stats_after. case_bool_decide as En.
    { rewrite En, Nat.add_0_r, app_nil_r. done. }
    cbn [total_processed total_merged merges_by_label].
    destruct (merge_output max_gap entities T) as (_ & _ & Hlen & _).
    cbn zeta in Hlen. split_and!; [lia|lia|lia|].
    intros l. rewrite track_labels_lookup, Hl.
    case_bool_decide as E1.
    + rewrite bool_decide_eq_true_2; [done|]. rewrite elem_of_app. by left.
    + rewrite (bool_decide_ext (l ∈ label <$> sort_asc start entities)
                 (l ∈ (label <$> concat calls.*1) ++ (label <$> entities)));
        [done|].
      rewrite elem_of_app, !list_elem_of_fmap.
      setoid_rewrite (elem_of_sort_asc start). rewrite <- !list_elem_of_fmap.
      tauto.
Qed.
End MergeStatistics.

(** ** Validation, overlap resolution and merging together *)

Section Pipeline.
Context `{CharDb}.
Import EntityValidator EntityMerger.

Lemma ForallOrdPairs_lookup {A} (R : A → A → Prop) (l : list A) :
  (∀ i j x y, (i < j)%nat → l !! i = Some x → l !! j = Some y → R x y) →
  ForallOrdPairs R l.
Proof.
  induction l as [|a l IH]; intros Hl; constructor.
  - apply Forall_forall. intros y [j Hj]%list_elem_of_lookup.
    apply (Hl 0%nat (S j)); [lia|done|done].
  - apply IH. intros i j x y Hij Hi Hj. apply (Hl (S i) (S j)); [lia|done|done].
Qed.

Lemma resolve_overlaps_spans (T : str) (entities : list entity)
  (strategy : str) :
  Forall (in_bounds T) entities →
  spans_separate T (resolve_overlaps entities strategy).
Proof.
  intros Hb. split.
  - destruct (resolve_overlaps_unfold entities strategy) as (R & _ & ->).
    eapply Forall_forall. intros x Hx.
    rewrite Forall_forall in Hb. apply Hb.
    by apply (sublist_subseteq _ _ (keep_from_sublist 0 R entities)).
  - apply ForallOrdPairs_lookup. intros i j x y. apply resolve_overlaps_ordered.
Qed.

(** X12. The steps of the extraction pipeline compose: what
    [resolve_overlaps] makes of strictly validated entities are spans within
    the text no two of which overlap, and [merge] keeps that, with the text
    of every merged entity the stripped slice of the text at its span. *)
Theorem validated_spans_separate (v : validator) (entities : list entity)
  (text_ : str) (min_confidence_ : option float) (strategy : str)
  (max_gap : Z) :
  strict_validation v = true →
  let validated_ :=
    fields <$> (validate_entities v entities text_ min_confidence_).1 in
  let resolved := resolve_overlaps validated_ strategy in
  let merged := merge max_gap resolved text_ in
  spans_separate text_ resolved ∧ spans_separate text_ merged ∧
  Forall (text_of_span text_) merged.
Proof.
  intros Hstrict. cbn zeta.
  rewrite validate_entities_unfold, Hstrict.
  set (passed := filter _ entities).
  assert (Hv : Forall (λ e, in_bounds text_ e ∧ text_of_span text_ e)
                 (fields <$> ((λ e, _clean_entity true e text_) <$> passed))).
  { rewrite <- list_fmap_compose. apply Forall_fmap, Forall_forall.
    intros e [Ha _]%list_elem_of_filter.
    unfold accepted in Ha. cbn [negb orb] in Ha.
    apply andb_true_iff in Ha as [_ [Hp _]%andb_true_iff].
    apply _validate_position_spec in Hp.
    split; [unfold in_bounds; cbn; lia|done]. }
  set (validated_ := fields <$> _) in *.
  assert (Hr : spans_separate text_ (resolve_overlaps validated_ strategy)).
  { apply resolve_overlaps_spans. eapply Forall_impl; [exact Hv|]. by intros ? []. }
  split; [done|].
  destruct (merge_separate max_gap _ text_ Hr) as [Hm Ht].
  split; [done|]. apply Ht.
  destruct (resolve_overlaps_unfold validated_ strategy) as (R & _ & ->).
  apply Forall_forall. intros x Hx.
  rewrite Forall_forall in Hv.
  by apply Hv, (sublist_subseteq _ _ (keep_from_sublist 0 R validated_)).
Qed.
End Pipeline.

(** ** The anonymized text as an edit of the original *)

Section Splice.

Lemma slice_split (T : str) (a b c : Z) :
  0 ≤ a ≤ b → b ≤ c → c ≤ len T → slice T a c = slice T a b ++ slice T b c.
Proof.
  intros. rewrite !slice_Z by lia.
  replace (Z.to_nat (c - a)) with (Z.to_nat (b - a) + Z.to_nat (c - b))%nat by lia.
  rewrite <- take_take_drop, drop_drop. do 3 f_equal. lia.
Qed.

Lemma slice_from_split (T : str) (a b : Z) :
  0 ≤ a ≤ b → b ≤ len T → slice_from T a = slice T a b ++ slice_from T b.
Proof.
  intros. rewrite !slice_from_Z, slice_Z by lia. by apply drop_split.
Qed.

Lemma splice_from (T : str) (a b : Z) (E : list (Z * Z * str)) :
  edits_from T b E → 0 ≤ a ≤ b → b ≤ len T →
  splice T a E = slice T a b ++ splice T b E.
Proof.
  destruct E as [|[[s e] p] rest]; cbn; intros HE Ha Hb.
  - by apply slice_from_split.
  - destruct HE as (? & ? & ? & _).
    rewrite (slice_split T a b s) by lia. by rewrite <- app_assoc.
Qed.

Lemma edits_from_le (T : str) (a b : Z) (E : list (Z * Z * str)) :
  a ≤ b → edits_from T b E → edits_from T a E.
Proof. destruct E as [|[[s e] p] rest]; cbn; [done|]. intuition lia. Qed.

Lemma apply_edit_splice (T : str) (b s e : Z) (p : str)
  (E : list (Z * Z * str)) :
  edits_from T b E → 0 ≤ s → s ≤ e → e ≤ b → b ≤ len T →
  apply_edit (splice T 0 E) s e p = splice T 0 ((s, e, p) :: E).
Proof.
  intros HE Hs Hse Heb Hb. cbn [splice].
  rewrite (splice_from T 0 b E), (splice_from T e b E) by (done || lia).
  unfold apply_edit.
  assert (Hl : len (slice T 0 b) = b).
  { rewrite slice_Z by lia. rewrite Z.sub_0_r. cbn. rewrite drop_0.
    apply len_take. lia. }
  assert (slice_to (slice T 0 b ++ splice T b E) s = slice T 0 s) as ->.
  { rewrite slice_to_Z by (rewrite len_app; pose proof (len_nonneg (splice T b E)); lia).
    rewrite take_app_le by (unfold len in Hl; lia).
    rewrite !slice_Z by lia. rewrite !Z.sub_0_r. cbn. rewrite !drop_0.
    apply take_take_le. lia. }
  assert (slice_from (slice T 0 b ++ splice T b E) e
          = slice T e b ++ splice T b E) as ->.
  { rewrite slice_from_Z by (rewrite len_app; pose proof (len_nonneg (splice T b E)); lia).
    rewrite drop_app_le by (unfold len in Hl; lia).
    f_equal. rewrite !slice_Z by lia. rewrite Z.sub_0_r. cbn. rewrite drop_0.
    rewrite take_drop_commute. f_equal. f_equal. lia. }
  done.
Qed.

(** A loop over spans in descending order, each iteration of which either
    leaves the text as it is or applies one edit at the span and records
    it. *)
Context {St : Type} (text_of : St → str)
  (edits_of : St → list (Z * Z * str)).
Context (step : St → entity → St).
Hypothesis step_edits : ∀ st x,
  (text_of (step st x) = text_of st ∧ edits_of (step st x) = edits_of st) ∨
  (∃ p, text_of (step st x) = apply_edit (text_of st) (start x) (end_ x) p ∧
        edits_of (step st x) = edits_of st ++ [(start x, end_ x, p)]).

Lemma splice_steps (T : str) (l : list entity) (st : St) (bound : Z) :
  descending_chain bound l → bound ≤ len T →
  text_of st = splice T 0 (reverse (edits_of st)) →
  edits_from T bound (reverse (edits_of st)) →
  StronglySorted (λ a b, b.1.1 < a.1.1) (edits_of st) →
  Forall (λ a, bound ≤ a.1.1) (edits_of st) →
  let st' := foldl step st l in
  text_of st' = splice T 0 (reverse (edits_of st')) ∧
  StronglySorted (λ a b, b.1.1 < a.1.1) (edits_of st').
Proof.
  revert st bound. induction l as [|x l IH]; intros st bound Hc Hb Ht He Hs Hf.
  - done.
  - cbn [foldl]. destruct Hc as (Hx & Hxb & Hc).
    destruct (step_edits st x) as [[Et Ee]|(p & Et & Ee)].
    + apply (IH (step st x) (start x)); rewrite ?Et, ?Ee.
      * done.
      * lia.
      * done.
      * apply (edits_from_le T _ bound); [lia|done].
      * done.
      * eapply Forall_impl; [exact Hf|]. cbn. intros; lia.
    + apply (IH (step st x) (start x)); rewrite ?Et, ?Ee.
      * done.
      * lia.
      * rewrite reverse_app. cbn [reverse app]. rewrite Ht.
        apply (apply_edit_splice T bound); [done|lia..].
      * rewrite reverse_app. cbn. split_and!; [lia|lia|lia|].
        apply (edits_from_le T _ bound); [lia|done].
      * apply StronglySorted_app. split_and!; [|done|repeat constructor].
        intros a b Ha ->%list_elem_of_singleton. cbn.
        pose proof (proj1 (Forall_forall _ _) Hf a Ha). cbn in *. lia.
      * apply Forall_app. split; [|apply Forall_singleton; cbn; lia].
        eapply Forall_impl; [exact Hf|]. cbn. intros; lia.
Qed.

Lemma splice_run (T : str) (l : list entity) (st : St) :
  descending_chain (len T) l →
  text_of st = T → edits_of st = [] →
  let st' := foldl step st l in
  text_of st' = splice T 0 (reverse (edits_of st')) ∧
  StronglySorted (λ a b, b.1.1 < a.1.1) (edits_of st').
Proof.
  intros Hc Ht He. apply (splice_steps T l st (len T)); rewrite ?He.
  - done.
  - lia.
  - rewrite Ht. change (T = slice_from T 0).
    by rewrite slice_from_Z by (pose proof (len_nonneg T); lia).
  - done.
  - constructor.
  - constructor.
Qed.
End Splice.

Lemma StronglySorted_fmap_inv {A B} (f : A → B) (R : relation B) (l : list A) :
  StronglySorted R (f <$> l) → StronglySorted (λ x y, R (f x) (f y)) l.
Proof.
  induction l as [|x l IH]; [constructor|]. rewrite fmap_cons.
  intros [Hx Hl]%StronglySorted_cons. constructor; [by apply IH|].
  by rewrite Forall_fmap in Hx.
Qed.

Section RedactSplice.
Context `{CharDb}.
Import EntityRedactor.

Lemma redact_step_edits (numbered : bool) (format_str : template)
  (consistent_ids : bool) (m : gmap (str * str) str) (st : redact_state)
  (x : entity) :
  let st' := redact_step numbered format_str consistent_ids m st x in
  (redacted_text st' = redacted_text st ∧
   redaction_edit <$> redaction_details st'
   = redaction_edit <$> redaction_details st) ∨
  (∃ p, redacted_text st'
        = apply_edit (redacted_text st) (start x) (end_ x) p ∧
        redaction_edit <$> redaction_details st'
        = (redaction_edit <$> redaction_details st) ++ [(start x, end_ x, p)]).
Proof.
  unfold redact_step.
  destruct numbered; [destruct consistent_ids|].
  - destruct (m !! _) as [i|]; [|by left].
    destruct (format_str _ _) as [p|]; [|by left].
    right. exists p. cbn. by rewrite fmap_app.
  - destruct (_generate_unique_id _ _) as [i r].
    destruct (format_str _ _) as [p|]; [|by left].
    right. exists p. cbn. by rewrite fmap_app.
  - right. eexists. cbn. by rewrite fmap_app.
Qed.

(** X13. On spans within the text that do not overlap, the text [redact]
    returns is the original text with the span of every recorded detail
    replaced by its placeholder, and nothing else changed. *)
Theorem redact_splices (r : redactor) (text_ : str) (entities : list entity)
  (numbered : bool) (format_str : template) (consistent_ids : bool) :
  spans_separate text_ entities →
  let result :=
    (redact r text_ entities numbered format_str consistent_ids).1 in
  anonymized_text result
  = splice text_ 0 (redaction_edit <$> replacements result).
Proof.
  intros Hsep. unfold redact. case_bool_decide as Hnil.
  { cbn. change (text_ = slice_from text_ 0).
    by rewrite slice_from_Z by (pose proof (len_nonneg text_); lia). }
  destruct (if numbered && consistent_ids then _ else _) as [m r1].
  cbn [fst anonymized_text replacements].
  match goal with |- context [foldl ?f ?a ?l] =>
    destruct (splice_run redacted_text
                (λ st, redaction_edit <$> redaction_details st) f
                (redact_step_edits numbered format_str consistent_ids m)
                text_ l a) as [Ht Hs] end.
  { by apply separate_descending_chain. }
  { done. } { done. }
  cbn zeta in Ht, Hs. rewrite Ht. f_equal.
  rewrite (sort_asc_reverse rd_start).
  - by rewrite fmap_reverse.
  - apply StronglySorted_fmap_inv in Hs. exact Hs.
Qed.
End RedactSplice.

Section ReplaceSplice.
Context `{CharDb} {W : Type} (next_random : W → N * W).
Context (objects : EntityReplacer.strategies W).
Import EntityReplacer.

Lemma replace_step_edits (consistency : bool) (custom : gmap str str)
  (st : replace_state (W := W)) (x : entity) :
  let st' := replace_step next_random objects consistency custom st x in
  (replaced_text st' = replaced_text st ∧
   replacement_edit <$> replacement_details st'
   = replacement_edit <$> replacement_details st) ∨
  (∃ p, replaced_text st'
        = apply_edit (replaced_text st) (start x) (end_ x) p ∧
        replacement_edit <$> replacement_details st'
        = (replacement_edit <$> replacement_details st)
          ++ [(start x, end_ x, p)]).
Proof.
  unfold replace_step.
  destruct (_get_replacement _ _ _ _ _ _ _) as [[[p used] c'] w'].
  destruct (_ && _); [|by left].
  right. exists p. cbn. by rewrite fmap_app.
Qed.

(** X14. On spans within the text that do not overlap, the text [replace]
    returns is the original text with the span of every recorded detail
    replaced by its replacement, and nothing else changed; the span of a
    skipped entity is left as it is. *)
Theorem replace_splices (c : gmap (str * str) (str * str)) (w : W)
  (text_ : str) (entities : list entity) (consistency : bool)
  (custom : gmap str str) :
  spans_separate text_ entities →
  let result :=
    (replace next_random objects c w text_ entities consistency custom).1.1 in
  anonymized_text result
  = splice text_ 0 (replacement_edit <$> replacements result).
Proof.
  intros Hsep. unfold replace. case_bool_decide as Hnil.
  { cbn. change (text_ = slice_from text_ 0).
    by rewrite slice_from_Z by (pose proof (len_nonneg text_); lia). }
  cbn [fst anonymized_text replacements].
  match goal with |- context [foldl ?f ?a ?l] =>
    destruct (splice_run replaced_text
                (λ st, replacement_edit <$> replacement_details st) f
                (replace_step_edits consistency custom)
                text_ l a) as [Ht Hs] end.
  { by apply separate_descending_chain. }
  { done. } { done. }
  cbn zeta in Ht, Hs. rewrite Ht. f_equal.
  rewrite (sort_asc_reverse rp_start).
  - by rewrite fmap_reverse.
  - apply StronglySorted_fmap_inv in Hs. exact Hs.
Qed.

Lemma user_step_edits (consistency : bool)
  (user_replacements : list (str * user_data))
  (st : user_state (W := W)) (x : entity) :
  let st' := user_step next_random consistency user_replacements st x in
  (user_replaced_text st' = user_replaced_text st ∧
   replacement_edit <$> user_details st'
   = replacement_edit <$> user_details st) ∨
  (∃ p, user_replaced_text st'
        = apply_edit (user_replaced_text st) (start x) (end_ x) p ∧
        replacement_edit <$> user_details st'
        = (replacement_edit <$> user_details st) ++ [(start x, end_ x, p)]).
Proof.
  unfold user_step.
  destruct (user_get _ _) as [data|]; [|by left].
  destruct consistency.
  - destruct (consistency_cache st !! _) as [p|].
    + destruct (negb _); [|by left].
      right. exists p. cbn. by rewrite fmap_app.
    + destruct (_select_user_replacement _ _ _) as [p w'].
      destruct (negb _); [|by left].
      right. exists p. cbn. by rewrite fmap_app.
  - destruct (_select_user_replacement _ _ _) as [p w'].
    destruct (negb _); [|by left].
    right. exists p. cbn. by rewrite fmap_app.
Qed.

(** X15. On spans within the text that do not overlap, the text
    [replace_with_user_data] returns is the original text with the span of
    every recorded detail replaced by its replacement, and nothing else
    changed. *)
Theorem replace_with_user_data_splices (w : W) (text_ : str)
  (entities : list entity) (user_replacements : list (str * user_data))
  (consistency : bool) :
  spans_separate text_ entities →
  let result :=
    (replace_with_user_data next_random w text_ entities user_replacements
       consistency).1 in
  user_anonymized_text result
  = splice text_ 0 (replacement_edit <$> user_replacements_made result).
Proof.
  intros Hsep. unfold replace_with_user_data.
  destruct (_ || _).
  { cbn. change (text_ = slice_from text_ 0).
    by rewrite slice_from_Z by (pose proof (len_nonneg text_); lia). }
  cbn [fst user_anonymized_text user_replacements_made].
  match goal with |- context [foldl ?f ?a ?l] =>
    destruct (splice_run user_replaced_text
                (λ st, replacement_edit <$> user_details st) f
                (user_step_edits consistency user_replacements)
                text_ l a) as [Ht Hs] end.
  { by apply separate_descending_chain. }
  { done. } { done. }
  cbn zeta in Ht, Hs. rewrite Ht. f_equal.
  rewrite (sort_asc_reverse rp_start).
  - by rewrite fmap_reverse.
  - apply StronglySorted_fmap_inv in Hs. exact Hs.
Qed.
End ReplaceSplice.

(** ** The state of a redactor *)

Section RedactorState.
Context `{CharDb}.
Import EntityRedactor.

Lemma generate_contiguous (lbl : str) (r : redactor) :
  contiguous r → contiguous (_generate_unique_id lbl r).2.
Proof.
  intros Hc lbl'.
  destruct (_generate_unique_id_spec lbl r)
    as (n' & _ & Hn1 & Hfresh & Hbelow & Hused & Hother).
  destruct (decide (lbl' = lbl)) as [->|Hne].
  - destruct (Hc lbl) as [n Hn].
    assert (n' = S n) as ->.
    { assert (¬ (n' ≤ n)%nat).
      { intros Hle. apply Hfresh, Hn. exists n'. split; [lia|done]. }
      assert (¬ (S n < n')%nat).
      { intros Hlt. destruct (proj1 (Hn _) (Hbelow (S n) ltac:(lia)))
          as (m & Hm & E). apply str_of_nat_inj in E. lia. }
      lia. }
    exists (S n). intros s. rewrite Hused, elem_of_union, elem_of_singleton, Hn.
    split.
    + intros [->|(m & Hm & ->)]; [exists (S n)|exists m]; split; (lia || done).
    + intros (m & Hm & ->). destruct (decide (m = S n)) as [->|]; [by left|].
      right. exists m. split; [lia|done].
  - destruct (Hc lbl') as [n Hn]. exists n. intros s. by rewrite Hother.
Qed.

(** What [_generate_unique_id] keeps, the methods keep. *)
Section Kept.
Context (P : redactor → Prop).
Hypothesis generate_keeps : ∀ lbl r, P r → P (_generate_unique_id lbl r).2.

Lemma build_steps_keep (l : list entity) m (r : redactor) :
  P r → P (foldl build_step (m, r) l).2.
Proof.
  revert m r. induction l as [|e l IH]; intros m r Hr; [done|].
  cbn [foldl]. destruct (m !! entity_key e) as [s|] eqn:E.
  - rewrite (build_step_known m r e s E). by apply IH.
  - rewrite (build_step_fresh m r e E). by apply IH, generate_keeps.
Qed.

Lemma redact_steps_keep_state (numbered : bool) (format_str : template)
  (consistent_ids : bool) (m : gmap (str * str) str) (l : list entity)
  (st : redact_state) :
  P (self st) →
  P (self (foldl (redact_step numbered format_str consistent_ids m) st l)).
Proof.
  revert st. induction l as [|e l IH]; intros st Hst; [done|].
  cbn [foldl]. apply IH. unfold redact_step.
  destruct numbered; [destruct consistent_ids|]; [|..|done].
  - destruct (m !! _); [|done]. by destruct (format_str _ _).
  - pose proof (generate_keeps (upper (label e)) (self st) Hst) as Hg.
    destruct (_generate_unique_id _ _) as [i r].
    by destruct (format_str _ _).
Qed.

Lemma redact_keeps (r : redactor) (T : str) (entities : list entity)
  (numbered : bool) (format_str : template) (consistent_ids : bool) :
  P r → P (redact r T entities numbered format_str consistent_ids).2.
Proof.
  intros Hr. unfold redact. case_bool_decide; [done|].
  destruct (if numbered && consistent_ids then _ else _) as [m r1] eqn:E.
  apply redact_steps_keep_state. cbn.
  destruct (numbered && consistent_ids).
  - pose proof (build_steps_keep entities ∅ r Hr) as Hb.
    unfold _build_entity_id_map in E. by rewrite E in Hb.
  - by injection E as <- <-.
Qed.

Lemma pregenerate_keeps (l : list (str * str)) g (r : redactor) :
  P r → P (foldl pregenerate_step (g, r) l).2.
Proof.
  revert g r. induction l as [|k l IH]; intros g r Hr; [done|].
  cbn [foldl]. unfold pregenerate_step at 2.
  pose proof (generate_keeps (upper k.1) r Hr) as Hg.
  destruct (_generate_unique_id _ _) as [i r']. by apply IH.
Qed.

(** [batch_redact] swaps [entity_id_map] around each call of [redact]. *)
Hypothesis swap_keeps : ∀ r g,
  P r ↔ P {| entity_id_map := g; used_ids_per_label := used_ids_per_label r |}.

Lemma batch_steps_keep (numbered : bool) (format_str : template)
  (consistent_ids : bool) g (l : list (str * list entity)) results
  (r : redactor) :
  P r →
  P (foldl (batch_step numbered format_str consistent_ids g) (results, r) l).2.
Proof.
  revert results r. induction l as [|item l IH]; intros results r Hr; [done|].
  cbn [foldl]. unfold batch_step at 2.
  pose proof (redact_keeps
                {| entity_id_map := g;
                   used_ids_per_label := used_ids_per_label r |}
                item.1 item.2 numbered format_str consistent_ids) as Hred.
  destruct (redact _ _ _ _ _ _) as [result r''].
  apply IH. apply swap_keeps, Hred. by apply swap_keeps.
Qed.

Lemma batch_redact_keeps (r : redactor) (texts : list str)
  (all_entities : list (list entity)) (numbered : bool)
  (format_str : template) (consistent_ids : bool) results r' :
  P r →
  batch_redact r texts all_entities numbered format_str consistent_ids
  = Some (results, r') →
  P r'.
Proof.
  intros Hr. unfold batch_redact. case_bool_decide; [|done].
  pose proof (pregenerate_keeps (elements (all_entity_keys all_entities)) ∅ r Hr)
    as Hpre.
  destruct (foldl pregenerate_step _ _) as [g r1].
  pose proof (batch_steps_keep numbered format_str consistent_ids g
                (zip texts all_entities) [] r1 Hpre) as Hb.
  intros [= E]. by rewrite E in Hb.
Qed.
End Kept.

Lemma contiguous_swap (r : redactor) g :
  contiguous r ↔
  contiguous {| entity_id_map := g;
                used_ids_per_label := used_ids_per_label r |}.
Proof. done. Qed.

Lemma reachable_contiguous (r : redactor) : reachable r → contiguous r.
Proof.
  induction 1 as [|r T es nb f cs _ IH|r ts all nb f cs res r' _ IH E|r _ IH].
  - intros lbl. exists O. intros s. split; [by intros ?%not_elem_of_empty|].
    intros (m & ? & _). lia.
  - by apply (redact_keeps contiguous generate_contiguous).
  - by apply (batch_redact_keeps contiguous generate_contiguous contiguous_swap
                r ts all nb f cs res r').
  - intros lbl. exists O. intros s. split; [by intros ?%not_elem_of_empty|].
    intros (m & ? & _). lia.
Qed.

(** X16. Whatever calls of [redact], [batch_redact] and [clear_history]
    an instance has seen, the ids in use under each label are exactly the
    numerals of [1..n] for some [n]: ids are issued without gaps. *)
Theorem used_ids_stay_contiguous (r : redactor) :
  reachable r → contiguous r.
Proof. apply reachable_contiguous. Qed.

Lemma generate_entity_id_map (lbl : str) (r : redactor) :
  entity_id_map r = ∅ → entity_id_map (_generate_unique_id lbl r).2 = ∅.
Proof. done. Qed.

Lemma batch_steps_entity_id_map (numbered : bool) (format_str : template)
  (consistent_ids : bool) g (l : list (str * list entity)) results
  (r : redactor) :
  entity_id_map
    (foldl (batch_step numbered format_str consistent_ids g) (results, r) l).2
  = entity_id_map r.
Proof.
  revert results r. induction l as [|item l IH]; intros results r; [done|].
  cbn [foldl]. unfold batch_step at 2.
  destruct (redact _ _ _ _ _ _) as [result r'']. by rewrite IH.
Qed.

Lemma reachable_entity_id_map (r : redactor) :
  reachable r → entity_id_map r = ∅.
Proof.
  induction 1 as [|r T es nb f cs _ IH|r ts all nb f cs res r' _ IH E|r _ IH].
  - done.
  - by apply (redact_keeps (λ r, entity_id_map r = ∅) generate_entity_id_map).
  - unfold batch_redact in E. case_bool_decide; [|done].
    pose proof (pregenerate_keeps (λ r, entity_id_map r = ∅)
                  generate_entity_id_map
                  (elements (all_entity_keys all)) ∅ r IH) as Hpre.
    destruct (foldl pregenerate_step _ _) as [g r1].
    injection E as E.
    pose proof (batch_steps_entity_id_map nb f cs g (zip ts all) [] r1) as Hb.
    rewrite E in Hb. cbn in Hb. by rewrite Hb.
  - done.
Qed.

Lemma Forall2_elem_r {A B} (P : A → B → Prop) (l : list A) (k : list B) y :
  Forall2 P l k → y ∈ k → ∃ x, x ∈ l ∧ P x y.
Proof.
  intros HF [i Hi]%list_elem_of_lookup.
  destruct (Forall2_lookup_r _ _ _ _ _ HF Hi) as (x & Hx & ?).
  exists x. split; [by eapply list_elem_of_lookup_2|done].
Qed.

Lemma Forall2_elem_l {A B} (P : A → B → Prop) (l : list A) (k : list B) x :
  Forall2 P l k → x ∈ l → ∃ y, y ∈ k ∧ P x y.
Proof.
  intros HF [i Hi]%list_elem_of_lookup.
  destruct (Forall2_lookup_l _ _ _ _ _ HF Hi) as (y & Hy & ?).
  exists y. split; [by eapply list_elem_of_lookup_2|done].
Qed.

Lemma foldl_max (a : Z) (l : list Z) :
  foldl Z.max a l ∈ a :: l ∧ ∀ x, x ∈ a :: l → x ≤ foldl Z.max a l.
Proof.
  revert a. induction l as [|b l IH]; intros a; cbn [foldl].
  - split; [by left|]. intros x ->%list_elem_of_singleton. lia.
  - destruct (IH (Z.max a b)) as [Hin Hge]. split.
    + apply elem_of_cons in Hin as [E|Hin]; [|by right; right].
      rewrite E. destruct (Z.max_spec a b) as [[_ ->]|[_ ->]];
        [right; by left|by left].
    + intros x Hx. pose proof (Hge (Z.max a b) ltac:(by left)).
      apply elem_of_cons in Hx as [->|Hx]; [lia|].
      apply elem_of_cons in Hx as [->|Hx]; [lia|].
      apply Hge. by right.
Qed.

Lemma contiguous_set (ids : gset str) (n : nat) :
  (∀ s, s ∈ ids ↔ ∃ m, (1 ≤ m ≤ n)%nat ∧ s = str_of_nat m) →
  max_id ids = Some (Z.of_nat n) ∧ size ids = n.
Proof.
  intros Hids.
  assert (Hset : ids = list_to_set (str_of_nat <$> seq 1 n)).
  { apply set_eq. intros s. rewrite Hids, elem_of_list_to_set, list_elem_of_fmap.
    split.
    - intros (m & Hm & ->). exists m. split; [done|]. apply elem_of_seq. lia.
    - intros (m & -> & Hm%elem_of_seq). exists m. split; [lia|done]. }
  assert (Hsize : size ids = n).
  { rewrite Hset, size_list_to_set, length_fmap, length_seq; [done|].
    apply NoDup_fmap; [apply str_of_nat_inj|apply NoDup_seq]. }
  split; [|done]. unfold max_id. case_bool_decide as He.
  { rewrite He, size_empty in Hsize. by rewrite <- Hsize. }
  assert (Hn : (1 ≤ n)%nat).
  { destruct n; [|lia]. destruct He. apply set_eq. intros s.
    rewrite Hids. split; [intros (m & ? & _); lia|by intros ?%not_elem_of_empty]. }
  assert (Hsome : is_Some (mapM int (elements ids))).
  { apply mapM_is_Some, Forall_forall. intros s Hs%elem_of_elements.
    apply Hids in Hs as (m & _ & ->). cbn. rewrite int_str_of_nat. eauto. }
  destruct Hsome as [ks Hks]. rewrite Hks. cbn. f_equal.
  apply mapM_Some in Hks.
  assert (Hall : ∀ k, k ∈ ks → 1 ≤ k ≤ Z.of_nat n).
  { intros k Hk. destruct (Forall2_elem_r _ _ _ _ Hks Hk) as (s & Hs & Hi).
    apply elem_of_elements, Hids in Hs as (m & Hm & ->).
    rewrite int_str_of_nat in Hi. injection Hi as <-. lia. }
  assert (Hin : Z.of_nat n ∈ ks).
  { assert (str_of_nat n ∈ elements ids) as Hs.
    { apply elem_of_elements, Hids. exists n. split; [lia|done]. }
    destruct (Forall2_elem_l _ _ _ _ Hks Hs) as (k & Hk & Hi).
    rewrite int_str_of_nat in Hi. by injection Hi as <-. }
  destruct ks as [|k ks]; [by apply not_elem_of_nil in Hin|].
  unfold py_max. destruct (foldl_max k ks) as [Hm1 Hm2].
  pose proof (Hall _ Hm1). pose proof (Hm2 _ Hin). lia.
Qed.

(** X17. On an instance in any state its public methods leave,
    [get_redaction_stats] returns (every id in use reads as an integer);
    [total_unique_entities] is 0, since no call leaves anything in
    [entity_id_map]; and under every label [max_id_used] equals
    [unique_entities], the number of ids in use. *)
Theorem redaction_stats_of_reachable (r : redactor) :
  reachable r →
  ∃ st, get_redaction_stats r = Some st ∧
        total_unique_entities st = 0 ∧
        ∀ lbl ls, label_statistics st !! lbl = Some ls →
                  ls_unique_entities ls = Z.of_nat (size (used_for r lbl)) ∧
                  max_id_used ls = ls_unique_entities ls.
Proof.
  intros Hr. pose proof (reachable_contiguous r Hr) as Hc.
  pose proof (reachable_entity_id_map r Hr) as Hm.
  unfold get_redaction_stats.
  set (f := λ item : str * gset str,
              m ← max_id item.2;
              Some (item.1, {| ls_unique_entities := Z.of_nat (size item.2);
                               max_id_used := m |})).
  assert (Hitem : ∀ item, item ∈ map_to_list (used_ids_per_label r) →
            f item = Some (item.1,
                           {| ls_unique_entities := Z.of_nat (size item.2);
                              max_id_used := Z.of_nat (size item.2) |}) ∧
            used_for r item.1 = item.2).
  { intros [lbl ids] Hin%elem_of_map_to_list. cbn.
    assert (used_for r lbl = ids) as Hu by (unfold used_for; by rewrite Hin).
    destruct (Hc lbl) as [n Hn]. rewrite Hu in Hn.
    destruct (contiguous_set ids n Hn) as [Hmax Hsize].
    unfold f. cbn. rewrite Hmax, Hsize. done. }
  assert (Hsome : is_Some (mapM f (map_to_list (used_ids_per_label r)))).
  { apply mapM_is_Some, Forall_forall. intros item Hin.
    destruct (Hitem item Hin) as [E _]. unfold compose. rewrite E. eauto. }
  destruct Hsome as [entries He]. rewrite He. cbn.
  eexists. split; [done|]. cbn. split; [by rewrite Hm|].
  intros lbl ls Hl%elem_of_list_to_map_2.
  apply mapM_Some in He.
  destruct (Forall2_elem_r _ _ _ _ He Hl) as (item & Hin & Hf).
  destruct (Hitem item Hin) as [Hf' Hu]. rewrite Hf' in Hf.
  injection Hf as <- <-. cbn. by rewrite Hu.
Qed.
End RedactorState.

Section Reidentification.
Context `{CharDb}.
Import EntityRedactor.

Lemma no_underscore_split (a a' x x' : str) :
  (∀ c, c ∈ a → c ≠ "_"%char) → (∀ c, c ∈ a' → c ≠ "_"%char) →
  a ++ "_"%char :: x = a' ++ "_"%char :: x' → a = a' ∧ x = x'.
Proof.
  revert a'. induction a as [|c a IH]; intros [|c' a'] Ha Ha' E; cbn in E.
  - by injection E as ->.
  - injection E as <- _. by destruct (Ha' "_"%char); [left|].
  - injection E as -> _. by destruct (Ha "_"%char); [left|].
  - injection E as -> E. destruct (IH a') as [-> ->]; [| |done|done].
    + intros ??. apply Ha. by right.
    + intros ??. apply Ha'. by right.
Qed.

Lemma default_format_inj (n1 n2 : nat) (L1 L2 p : str) :
  default_format (str_of_nat n1) L1 = Some p →
  default_format (str_of_nat n2) L2 = Some p →
  n1 = n2 ∧ L1 = L2.
Proof.
  unfold default_format. intros [= <-] [= E].
  apply no_underscore_split in E as [E1 E2].
  - split; [by apply str_of_nat_inj|]. by apply app_inv_tail in E2.
  - intros c Hc%str_of_nat_digits ->. by destruct Hc.
  - intros c Hc%str_of_nat_digits ->. by destruct Hc.
Qed.

Lemma apply_redaction_tracks (st : redact_state) (r : redactor) (e : entity)
  (lbl i p : str) :
  reid_tracks st → reid_tracks (apply_redaction st r e lbl i p).
Proof.
  intros [H1 H2]. split; cbn.
  - intros p' t. destruct (decide (p' = p)) as [->|Hne].
    + rewrite lookup_insert_eq. intros [= <-]. eexists.
      split; [apply elem_of_app; right; by apply list_elem_of_singleton|done].
    + rewrite lookup_insert_ne by done. intros (d & ? & ? & ?)%H1.
      exists d. split; [|done]. apply elem_of_app. by left.
  - intros d [Hd | ->%list_elem_of_singleton]%elem_of_app; cbn.
    + destruct (decide (placeholder d = p)) as [->|Hne].
      * by rewrite lookup_insert_eq.
      * rewrite lookup_insert_ne by done. by apply H2.
    + by rewrite lookup_insert_eq.
Qed.

Lemma redact_steps_track (numbered : bool) (format_str : template)
  (consistent_ids : bool) (m : gmap (str * str) str) (l : list entity)
  (st : redact_state) :
  reid_tracks st →
  reid_tracks (foldl (redact_step numbered format_str consistent_ids m) st l).
Proof.
  revert st. induction l as [|e l IH]; intros st Hst; [done|].
  cbn [foldl]. apply IH. unfold redact_step.
  destruct numbered; [destruct consistent_ids|].
  - destruct (m !! _); [|done].
    destruct (format_str _ _); [|done]. by apply apply_redaction_tracks.
  - destruct (_generate_unique_id _ _) as [i r].
    destruct (format_str _ _); [|done]. by apply apply_redaction_tracks.
  - by apply apply_redaction_tracks.
Qed.

Lemma tracked_lookup (st : redact_state) :
  reid_tracks st →
  (∀ d1 d2, d1 ∈ redaction_details st → d2 ∈ redaction_details st →
            placeholder d1 = placeholder d2 → original d1 = original d2) →
  ∀ d, d ∈ redaction_details st →
       reid_map st !! placeholder d = Some (original d).
Proof.
  intros [H1 H2] H3 d Hd. destruct (H2 d Hd) as [t Ht]. rewrite Ht.
  destruct (H1 _ _ Ht) as (d' & Hd' & Hp & <-). f_equal. by apply H3.
Qed.

Lemma build_step_distinct m r (e : entity) :
  ids_distinct m r →
  ids_distinct (build_step (m, r) e).1 (build_step (m, r) e).2.
Proof.
  intros [Ha Hb]. destruct (m !! entity_key e) as [s|] eqn:E.
  { by rewrite (build_step_known m r e s E). }
  rewrite (build_step_fresh m r e E). cbn [fst snd].
  destruct (_generate_unique_id_spec (upper (label e)) r)
    as (n & Hid & _ & Hfresh & _ & Hused & Hother).
  rewrite Hid. split.
  - intros k s. destruct (decide (k = entity_key e)) as [->|Hne].
    + rewrite lookup_insert_eq. intros [= <-]. split; [by exists n|].
      change (upper (entity_key e).1) with (upper (label e)).
      rewrite Hused. apply elem_of_union_l. by apply elem_of_singleton.
    + rewrite lookup_insert_ne by done. intros [Hn Hs]%Ha. split; [done|].
      destruct (decide (upper k.1 = upper (label e))) as [El|Hl].
      * rewrite El in *. rewrite Hused. by apply elem_of_union_r.
      * by rewrite Hother.
  - intros k1 k2 s Hl.
    destruct (decide (k1 = entity_key e)) as [->|Hn1];
      destruct (decide (k2 = entity_key e)) as [->|Hn2];
      rewrite ?lookup_insert_eq, ?lookup_insert_ne by done; try done.
    + intros [= <-] [_ Hs]%Ha.
      change (upper (entity_key e).1) with (upper (label e)) in Hl.
      rewrite <- Hl in Hs. done.
    + intros [_ Hs]%Ha [= <-].
      change (upper (entity_key e).1) with (upper (label e)) in Hl.
      rewrite Hl in Hs. done.
    + by apply Hb.
Qed.

Lemma build_steps_distinct (l : list entity) m r :
  ids_distinct m r →
  ids_distinct (foldl build_step (m, r) l).1 (foldl build_step (m, r) l).2.
Proof.
  revert m r. induction l as [|e l IH]; intros m r Hd; [done|].
  cbn [foldl]. pose proof (build_step_distinct m r e Hd) as Hs.
  destruct (build_step (m, r) e) as [m' r']. by apply IH.
Qed.

Lemma recorded_determined (m : gmap (str * str) str) (r : redactor)
  (l : list entity) (d1 d2 : RedactionDetail) :
  ids_distinct m r →
  d1 ∈ omap (recorded default_format m) l →
  d2 ∈ omap (recorded default_format m) l →
  placeholder d1 = placeholder d2 → original d1 = original d2.
Proof.
  intros [Ha Hb] (e1 & _ & Hr1)%list_elem_of_omap
    (e2 & _ & Hr2)%list_elem_of_omap.
  unfold recorded in Hr1, Hr2.
  destruct (m !! entity_key e1) as [i1|] eqn:E1; [|done].
  destruct (m !! entity_key e2) as [i2|] eqn:E2; [|done].
  cbn in Hr1, Hr2. injection Hr1 as <-. injection Hr2 as <-. cbn.
  destruct (Ha _ _ E1) as [[n1 ->] _]. destruct (Ha _ _ E2) as [[n2 ->] _].
  intros E.
  destruct (default_format_inj n1 n2 (upper (label e1)) (upper (label e2)) _
              eq_refl) as [-> Hl].
  { unfold default_format. f_equal. symmetry. exact E. }
  assert (entity_key e1 = entity_key e2) as Hk
    by (by apply (Hb (entity_key e1) (entity_key e2) _ Hl E1)).
  by injection Hk.
Qed.

Lemma redact_step_fresh (m : gmap (str * str) str) (st : redact_state)
  (e : entity) :
  fresh_details st →
  fresh_details (redact_step true default_format false m st e).
Proof.
  intros [Hf Hd]. unfold redact_step.
  destruct (_generate_unique_id_spec (upper (label e)) (self st))
    as (n & Hid & _ & Hfresh & _ & Hused & Hother).
  destruct (_generate_unique_id _ _) as [i r]. cbn [fst snd] in *. subst i.
  cbn [default_format apply_redaction].
  assert (Hold : ∀ d, d ∈ redaction_details st →
            placeholder d ≠ py "#" ++ str_of_nat n ++ py "_"
                               ++ upper (label e) ++ py "_REDACTED").
  { intros d (n' & _ & Hin & Hp)%Hf E.
    destruct (default_format_inj n' n (rd_label d) (upper (label e)) _ Hp)
      as [-> Hl]; [unfold default_format; f_equal; symmetry; exact E|].
    by rewrite Hl in Hin. }
  split; cbn.
  - intros d [Hin | ->%list_elem_of_singleton]%elem_of_app.
    + destruct (Hf d Hin) as (n' & ? & Hu & ?). exists n'. split_and!; [done| |done].
      destruct (decide (rd_label d = upper (label e))) as [El|Hl].
      * rewrite El in *. rewrite Hused. by apply elem_of_union_r.
      * by rewrite Hother.
    + exists n. cbn. split_and!; [done| |done].
      rewrite Hused. apply elem_of_union_l. by apply elem_of_singleton.
  - intros d1 d2 [H1 | ->%list_elem_of_singleton]%elem_of_app
      [H2 | ->%list_elem_of_singleton]%elem_of_app; cbn.
    + by apply Hd.
    + intros E. by destruct (Hold d1 H1).
    + intros E. by destruct (Hold d2 H2).
    + done.
Qed.

Lemma redact_steps_fresh (m : gmap (str * str) str) (l : list entity)
  (st : redact_state) :
  fresh_details st →
  fresh_details (foldl (redact_step true default_format false m) st l).
Proof.
  revert st. induction l as [|e l IH]; intros st Hst; [done|].
  cbn [foldl]. by apply IH, redact_step_fresh.
Qed.

(** X18. In a numbered run of [redact] with the default format, with or
    without consistent ids and whatever ids are in use before, the
    re-identification map sends the placeholder of every recorded detail to
    the original text of that detail: no two texts share a placeholder. *)
Theorem reidentification_map_faithful (r : redactor) (text_ : str)
  (entities : list entity) (consistent_ids : bool) (d : RedactionDetail) :
  let result :=
    (redact r text_ entities true default_format consistent_ids).1 in
  d ∈ replacements result →
  re_identification_map result !! placeholder d = Some (original d).
Proof.
  cbn zeta. unfold redact. case_bool_decide as Hnil.
  { by intros ?%not_elem_of_nil. }
  cbn [andb].
  destruct consistent_ids.
  - pose proof (build_steps_distinct entities ∅ r) as Hm.
    unfold _build_entity_id_map.
    destruct (foldl build_step (∅, r) entities) as [m r1].
    cbn [fst snd replacements re_identification_map] in *.
    rewrite elem_of_sort_asc. intros Hd.
    apply tracked_lookup; [|
      |done].
    + apply redact_steps_track. split; [done|by intros ? ?%not_elem_of_nil].
    + rewrite redact_steps_details. cbn [redaction_details app].
      intros d1 d2. apply (recorded_determined m r1). apply Hm.
      split; [done|]. intros ???. by rewrite lookup_empty.
  - cbn [fst snd replacements re_identification_map].
    rewrite elem_of_sort_asc. intros Hd.
    apply tracked_lookup; [| |done].
    + apply redact_steps_track. split; [done|by intros ? ?%not_elem_of_nil].
    + apply redact_steps_fresh.
      split; [by intros ? ?%not_elem_of_nil|by intros ?? ?%not_elem_of_nil].
Qed.
End Reidentification.

Section RedactAll.
Context `{CharDb}.
Import EntityRedactor.

Lemma build_steps_keys (l : list entity) m (r : redactor) (e : entity) :
  e ∈ l → is_Some ((foldl build_step (m, r) l).1 !! entity_key e).
Proof.
  revert m r. induction l as [|x l IH]; intros m r He; [by apply not_elem_of_nil in He|].
  cbn [foldl]. apply elem_of_cons in He as [->|He].
  - destruct (build_step (m, r) x) as [m' r'] eqn:E.
    assert (is_Some (m' !! entity_key x)) as [s Hs].
    { destruct (m !! entity_key x) as [s|] eqn:Ek.
      - rewrite (build_step_known m r x s Ek) in E. injection E as <- <-. eauto.
      - rewrite (build_step_fresh m r x Ek) in E. injection E as <- <-.
        rewrite lookup_insert_eq. eauto. }
    exists s. eapply lookup_weaken; [exact Hs|]. apply build_steps_subseteq.
  - destruct (build_step (m, r) x) as [m' r']. by apply IH.
Qed.

Lemma redact_steps_sources (numbered : bool) (format_str : template)
  (consistent_ids : bool) (m : gmap (str * str) str) (l : list entity)
  (st : redact_state) :
  (∀ i lbl, is_Some (format_str i lbl)) →
  (∀ e, e ∈ l → is_Some (m !! entity_key e)) ∨ numbered && consistent_ids = false →
  detail_source <$> redaction_details
    (foldl (redact_step numbered format_str consistent_ids m) st l)
  = (detail_source <$> redaction_details st) ++ (entity_source <$> l).
Proof.
  intros Hfmt. revert st. induction l as [|e l IH]; intros st Hm.
  - cbn. by rewrite app_nil_r.
  - cbn [foldl]. rewrite IH.
    2:{ destruct Hm as [Hm|Hm]; [left|by right]. intros ??. apply Hm. by right. }
    rewrite fmap_cons, (cons_middle _ (_ <$> _)), app_assoc. f_equal.
    unfold redact_step.
    destruct numbered; [destruct consistent_ids|].
    + destruct Hm as [Hm|Hm]; [|done].
      destruct (Hm e) as [i Hi]; [by left|]. unfold entity_key in Hi.
      rewrite Hi. destruct (Hfmt i (upper (label e))) as [p ->].
      cbn. by rewrite fmap_app.
    + destruct (_generate_unique_id _ _) as [i r].
      destruct (Hfmt i (upper (label e))) as [p ->].
      cbn. by rewrite fmap_app.
    + cbn. by rewrite fmap_app.
Qed.

(** X19. With a format that never fails, [redact] records exactly one
    detail for every entity of the input (label upper-cased; text, span and
    score as given), lists the details in ascending order of start, and
    reports both [entities_processed] and [redactions_applied] as the number
    of entities. *)
Theorem redact_covers_every_entity (r : redactor) (text_ : str)
  (entities : list entity) (numbered : bool) (format_str : template)
  (consistent_ids : bool) :
  (∀ i lbl, is_Some (format_str i lbl)) →
  let result :=
    (redact r text_ entities numbered format_str consistent_ids).1 in
  detail_source <$> replacements result ≡ₚ entity_source <$> entities ∧
  StronglySorted (λ a b, rd_start a ≤ rd_start b) (replacements result) ∧
  redactions_applied (info result) = length entities ∧
  entities_processed (info result) = length entities.
Proof.
  intros Hfmt. cbn zeta. unfold redact. case_bool_decide as Hnil.
  { subst. cbn. split_and!; [done|constructor|done|done]. }
  pose proof (λ e, build_steps_keys entities ∅ r e) as Hkeys.
  unfold _build_entity_id_map.
  destruct (numbered && consistent_ids) eqn:Emode.
  - destruct (foldl build_step (∅, r) entities) as [m r1].
    cbn [fst snd replacements info redactions_applied entities_processed] in *.
    match goal with |- context [foldl ?f ?a ?l] =>
      pose proof (redact_steps_sources numbered format_str consistent_ids m
                    l a Hfmt) as Hsrc end.
    rewrite Emode in Hsrc. cbn in Hsrc.
    assert (Hperm : detail_source <$> sort_asc rd_start
              (redaction_details (foldl (redact_step numbered format_str consistent_ids m)
                 {| redacted_text := text_; redaction_details := [];
                    reid_map := ∅; self := r1 |} (sort_desc start entities)))
              ≡ₚ entity_source <$> entities).
    { rewrite sort_asc_Permutation, Hsrc.
      - by rewrite sort_desc_Permutation.
      - left. intros e He. apply Hkeys. by apply elem_of_sort_desc in He. }
    split_and!; [done|apply sort_asc_sorted| |done].
    apply Permutation_length in Hperm. by rewrite !length_fmap in Hperm.
  - cbn [fst snd replacements info redactions_applied entities_processed] in *.
    match goal with |- context [foldl ?f ?a ?l] =>
      pose proof (redact_steps_sources numbered format_str consistent_ids ∅
                    l a Hfmt) as Hsrc end.
    rewrite Emode in Hsrc. cbn in Hsrc.
    assert (Hperm : detail_source <$> sort_asc rd_start
              (redaction_details (foldl (redact_step numbered format_str consistent_ids ∅)
                 {| redacted_text := text_; redaction_details := [];
                    reid_map := ∅; self := r |} (sort_desc start entities)))
              ≡ₚ entity_source <$> entities).
    { rewrite sort_asc_Permutation, Hsrc; [|by right].
      by rewrite sort_desc_Permutation. }
    split_and!; [done|apply sort_asc_sorted| |done].
    apply Permutation_length in Hperm. by rewrite !length_fmap in Hperm.
Qed.
End RedactAll.

(** ** [replace_with_user_data] and the cache *)

Section UserData.
Context `{CharDb} {W : Type} (next_random : W → N * W).
Import EntityReplacer.

Lemma _select_user_replacement_selectable (data : user_data) (w : W) :
  selectable data (_select_user_replacement next_random data w).1.
Proof.
  destruct data as [value|values]; cbn; [done|].
  case_bool_decide as Hv; [by left|]. right. by apply choice_elem.
Qed.

Lemma user_step_inv (consistency : bool)
  (user_replacements : list (str * user_data)) (l : list entity)
  (st : user_state (W := W)) (x : entity) :
  user_inv consistency user_replacements l st →
  user_inv consistency user_replacements (l ++ [x])
    (user_step next_random consistency user_replacements st x).
Proof.
  intros (Hd & Hc & Hall).
  assert (Hd' : ∀ d, d ∈ user_details st →
            strategy_used d = py "user_data" ∧ replacement d ≠ [] ∧
            ∃ e data, e ∈ l ++ [x] ∧ rp_label d = lower (label e) ∧
                  original d = text e ∧ rp_start d = start e ∧
                  rp_end d = end_ e ∧ rp_score d = score e ∧
                  user_get user_replacements (lower (label e)) = Some data ∧
                  selectable data (replacement d)).
  { intros d (? & ? & _ & e & data & ? & ?)%Hd. split_and!; [done..|].
    exists e, data. split; [apply elem_of_app; by left|done]. }
  unfold user_step.
  destruct (user_get user_replacements (lower (label x))) as [data|] eqn:Eg.
  2:{ split_and!.
      - intros d Hin. destruct (Hd d Hin) as (? & ? & ? & _).
        destruct (Hd' d Hin) as (_ & _ & ?). done.
      - done.
      - intros e data' [He | ->%list_elem_of_singleton]%elem_of_app Hg;
          [by apply (Hall e data')|congruence]. }
  assert (Hfinish : ∀ r cache' w',
    selectable data r →
    (∀ lbl t r', cache' !! (lbl, t) = Some r' →
                 ∃ data', user_get user_replacements lbl = Some data' ∧
                          selectable data' r') →
    (∀ d, d ∈ user_details st → consistency = true →
          cache' !! (rp_label d, original d) = Some (replacement d)) →
    (consistency = true → cache' !! (lower (label x), text x) = Some r) →
    user_inv (W := W) consistency user_replacements (l ++ [x])
      (if negb (bool_decide (r = [])) then
        {| user_replaced_text :=
             slice_to (user_replaced_text st) (start x) ++ r
             ++ slice_from (user_replaced_text st) (end_ x);
           user_details :=
             user_details st ++
             [{| rp_label := lower (label x); original := text x;
                 replacement := r; rp_start := start x; rp_end := end_ x;
                 rp_score := score x; strategy_used := py "user_data" |}];
           user_map_so_far := <[text x := r]> (user_map_so_far st);
           consistency_cache := cache';
           user_world := w' |}
      else
        {| user_replaced_text := user_replaced_text st;
           user_details := user_details st;
           user_map_so_far := user_map_so_far st;
           consistency_cache := cache';
           user_world := w' |})).
  { intros r cache' w' Hsel Hcache Hkeep Hnew.
    case_bool_decide as Hr; cbn [negb].
    - split_and!; cbn.
      + intros d Hin. destruct (Hd' d Hin) as (? & ? & ?).
        split_and!; [done|done|by apply Hkeep|done].
      + done.
      + intros e data' [He | ->%list_elem_of_singleton]%elem_of_app Hg Hs.
        * by apply (Hall e data').
        * rewrite Eg in Hg. injection Hg as <-. by destruct (Hs r Hsel).
    - split_and!; cbn.
      + intros d [Hin | ->%list_elem_of_singleton]%elem_of_app.
        * destruct (Hd' d Hin) as (? & ? & ?).
          split_and!; [done|done|by apply Hkeep|done].
        * cbn. split_and!; [done|done|done|].
          exists x, data. split_and!; try done.
          apply elem_of_app. right. by apply list_elem_of_singleton.
      + done.
      + intros e data' [He | ->%list_elem_of_singleton]%elem_of_app Hg Hs.
        * destruct (Hall e data' He Hg Hs) as (d & Hin & ?).
          exists d. split; [apply elem_of_app; by left|done].
        * eexists. split; [apply elem_of_app; right;
                           by apply list_elem_of_singleton|done]. }
  destruct consistency.
  - destruct (consistency_cache st !! (lower (label x), text x)) as [r|] eqn:Ec.
    + apply Hfinish; [|done| |done].
      * destruct (Hc _ _ _ Ec) as (data' & Hg & Hs). congruence.
      * intros d Hin _. destruct (Hd d Hin) as (_ & _ & Hk & _). by apply Hk.
    + pose proof (_select_user_replacement_selectable data (user_world st))
        as Hsel.
      destruct (_select_user_replacement _ _ _) as [r w'].
      apply Hfinish; [done| | |].
      * intros lbl t r'.
        destruct (decide ((lbl, t) = (lower (label x), text x))) as [[= -> ->]|Hne].
        -- rewrite lookup_insert_eq. intros [= <-]. eauto.
        -- rewrite lookup_insert_ne by done. apply Hc.
      * intros d Hin _. destruct (Hd d Hin) as (_ & _ & Hk & _).
        specialize (Hk eq_refl). rewrite lookup_insert_ne; [done|].
        intros E. rewrite <- E in Hk. congruence.
      * intros _. by rewrite lookup_insert_eq.
  - pose proof (_select_user_replacement_selectable data (user_world st))
      as Hsel.
    destruct (_select_user_replacement _ _ _) as [r w'].
    apply Hfinish; [done|done|done|done].
Qed.

Lemma user_steps_inv (consistency : bool)
  (user_replacements : list (str * user_data)) (l l0 : list entity)
  (st : user_state (W := W)) :
  user_inv consistency user_replacements l0 st →
  user_inv consistency user_replacements (l0 ++ l)
    (foldl (user_step next_random consistency user_replacements) st l).
Proof.
  revert l0 st. induction l as [|x l IH]; intros l0 st Hst.
  - by rewrite app_nil_r.
  - cbn [foldl]. rewrite cons_middle, app_assoc.
    by apply IH, user_step_inv.
Qed.

Lemma replace_with_user_data_inv (w : W) (T : str) (entities : list entity)
  (user_replacements : list (str * user_data)) (consistency : bool) :
  entities ≠ [] → user_replacements ≠ [] →
  ∃ st : user_state (W := W),
    user_inv consistency user_replacements (sort_desc start entities) st ∧
    user_replacements_made
      (replace_with_user_data next_random w T entities user_replacements
         consistency).1
    = sort_asc rp_start (user_details st).
Proof.
  intros He Hu. unfold replace_with_user_data.
  rewrite !bool_decide_eq_false_2 by done. cbn [orb].
  eexists. split; [|done].
  apply (user_steps_inv consistency user_replacements _ []).
  split_and!; [by intros ? ?%not_elem_of_nil|done|by intros ?? ?%not_elem_of_nil].
Qed.

(** X20. Every detail [replace_with_user_data] records has the strategy
    [user_data], a replacement that is not empty, and stems from an entity of
    the input whose lower-cased label is a key of the user data; the
    replacement is the string given for that label, or one of the strings of
    the list given for it. *)
Theorem user_replacements_come_from_user_data (w : W) (text_ : str)
  (entities : list entity) (user_replacements : list (str * user_data))
  (consistency : bool) (d : ReplacementDetail) :
  let result :=
    (replace_with_user_data next_random w text_ entities user_replacements
       consistency).1 in
  d ∈ user_replacements_made result →
  strategy_used d = py "user_data" ∧ replacement d ≠ [] ∧
  ∃ e data, e ∈ entities ∧ rp_label d = lower (label e) ∧
            original d = text e ∧ rp_start d = start e ∧ rp_end d = end_ e ∧
            user_get user_replacements (lower (label e)) = Some data ∧
            match data with
            | Single value => replacement d = value
            | Several values => replacement d ∈ values
            end.
Proof.
  cbn zeta. destruct (decide (entities = [])) as [->|He].
  { by intros ?%not_elem_of_nil. }
  destruct (decide (user_replacements = [])) as [->|Hu].
  { unfold replace_with_user_data. rewrite orb_true_r.
    by intros ?%not_elem_of_nil. }
  destruct (replace_with_user_data_inv w text_ entities user_replacements
              consistency He Hu) as (st & (Hd & _ & _) & ->).
  intros Hin%elem_of_sort_asc.
  destruct (Hd d Hin) as (? & Hne & _ & e & data & He' & ? & ? & ? & ? & _ & ? & Hs).
  split_and!; [done|done|]. exists e, data.
  split_and!; try done; [by apply elem_of_sort_desc in He'|].
  destruct data as [value|values]; [done|].
  by destruct Hs as [[_ ?]|?].
Qed.

(** X21. With consistency on, two details of one run of
    [replace_with_user_data] with the same label and the same original text
    carry the same replacement. *)
Theorem user_replacements_consistent (w : W) (text_ : str)
  (entities : list entity) (user_replacements : list (str * user_data))
  (d1 d2 : ReplacementDetail) :
  let result :=
    (replace_with_user_data next_random w text_ entities user_replacements
       true).1 in
  d1 ∈ user_replacements_made result → d2 ∈ user_replacements_made result →
  rp_label d1 = rp_label d2 → original d1 = original d2 →
  replacement d1 = replacement d2.
Proof.
  cbn zeta. destruct (decide (entities = [])) as [->|He].
  { by intros ?%not_elem_of_nil. }
  destruct (decide (user_replacements = [])) as [->|Hu].
  { unfold replace_with_user_data. rewrite orb_true_r.
    by intros ?%not_elem_of_nil. }
  destruct (replace_with_user_data_inv w text_ entities user_replacements
              true He Hu) as (st & (Hd & _ & _) & ->).
  intros H1%elem_of_sort_asc H2%elem_of_sort_asc Hl Ho.
  destruct (Hd d1 H1) as (_ & _ & Hc1 & _).
  destruct (Hd d2 H2) as (_ & _ & Hc2 & _).
  specialize (Hc1 eq_refl). specialize (Hc2 eq_refl).
  rewrite Hl, Ho in Hc1. congruence.
Qed.

(** X22. An entity whose lower-cased label has a non-empty string in the
    user data is always replaced by that string, also when the string equals
    the text of the entity. *)
Theorem user_string_always_applied (w : W) (text_ : str)
  (entities : list entity) (user_replacements : list (str * user_data))
  (consistency : bool) (e : entity) (value : str) :
  e ∈ entities →
  user_get user_replacements (lower (label e)) = Some (Single value) →
  value ≠ [] →
  let result :=
    (replace_with_user_data next_random w text_ entities user_replacements
       consistency).1 in
  ∃ d, d ∈ user_replacements_made result ∧ rp_start d = start e ∧
       rp_end d = end_ e ∧ original d = text e ∧ replacement d = value.
Proof.
  intros He Hg Hv. cbn zeta.
  assert (entities ≠ []) as Hne by (by intros ->; apply not_elem_of_nil in He).
  assert (user_replacements ≠ []) as Hu by (by intros ->).
  destruct (replace_with_user_data_inv w text_ entities user_replacements
              consistency Hne Hu) as (st & (Hd & _ & Hall) & ->).
  destruct (Hall e (Single value)) as (d & Hin & Hs & He' & Ho & Hl);
    [by apply elem_of_sort_desc|done|by intros r ->|].
  exists d. split_and!; [by apply elem_of_sort_asc|done|done|done|].
  destruct (Hd d Hin) as (_ & _ & _ & e' & data & _ & Hl' & _ & _ & _ & _ & Hg' & Hsel).
  rewrite <- Hl', Hl, Hg in Hg'. by injection Hg' as <-.
Qed.
End UserData.

Section AcrossCalls.
Context `{CharDb} {W : Type} (next_random : W → N * W).
Context (objects : EntityReplacer.strategies W).
Import EntityReplacer.

Lemma replace_steps_cache_grows (custom : gmap str str) (l : list entity)
  (st : replace_state (W := W)) :
  replacement_cache st
  ⊆ replacement_cache (foldl (replace_step next_random objects true custom) st l).
Proof.
  revert st. induction l as [|e l IH]; intros st; cbn [foldl]; [done|].
  etrans; [|apply IH].
  destruct (replace_step_cases next_random objects true custom st e) as [-> _].
  apply _get_replacement_cached.
Qed.

(** With consistency on, a call of [replace] only adds to the cache, and
    leaves every replacement it reports in it. *)
Lemma replace_cache (c : gmap (str * str) (str * str)) (w : W) (T : str)
  (entities : list entity) (custom : gmap str str) :
  let res := replace next_random objects c w T entities true custom in
  c ⊆ res.1.2 ∧
  ∀ d, d ∈ replacements res.1.1 →
       ∃ s, res.1.2 !! (rp_label d, original d) = Some (replacement d, s).
Proof.
  unfold replace. case_bool_decide as Hnil.
  { cbn. split; [done|]. by intros d ?%not_elem_of_nil. }
  cbn [fst snd replacements].
  set (st0 := {| replaced_text := T; replacement_details := [];
                 map_so_far := ∅; replacement_cache := c; world := w |}).
  split; [apply (replace_steps_cache_grows custom _ st0)|].
  intros d Hd%elem_of_sort_asc. revert d Hd.
  apply (replace_steps_cached next_random objects custom _ st0).
  by intros d ?%not_elem_of_nil.
Qed.

(** X23. The cache carries consistency across calls: in two successive
    calls of [replace] with consistency on, details with the same label and
    the same original text carry the same replacement. *)
Theorem replacement_consistent_across_calls
  (c : gmap (str * str) (str * str)) (w : W)
  (text1 text2 : str) (entities1 entities2 : list entity)
  (custom1 custom2 : gmap str str) (d1 d2 : ReplacementDetail) :
  let first := replace next_random objects c w text1 entities1 true custom1 in
  let second := replace next_random objects first.1.2 first.2 text2 entities2
                  true custom2 in
  d1 ∈ replacements first.1.1 → d2 ∈ replacements second.1.1 →
  rp_label d1 = rp_label d2 → original d1 = original d2 →
  replacement d1 = replacement d2.
Proof.
  intros first second H1 H2 Hl Ho.
  destruct (replace_cache c w text1 entities1 custom1) as [_ Hc1].
  destruct (replace_cache first.1.2 first.2 text2 entities2 custom2)
    as [Hsub Hc2].
  destruct (Hc1 d1 H1) as [s1 Hs1]. destruct (Hc2 d2 H2) as [s2 Hs2].
  pose proof (lookup_weaken _ _ _ _ Hs1 Hsub) as Hs1'.
  rewrite Hl, Ho in Hs1'. rewrite Hs1' in Hs2. by injection Hs2.
Qed.
End AcrossCalls.

(** ** Chunk counts *)

Section ChunkCount.
Context `{CharDb}.
Import chunker.

Lemma length_range_step (stop step : nat) :
  length (range_step stop step) = ((stop + step - 1) / step)%nat.
Proof. unfold range_step. by rewrite length_map, length_seq. Qed.

Lemma length_collect_chunks (T : str) (l : list (nat * nat)) (n : nat)
  (idx : list nat) :
  (1 ≤ n)%nat → (∀ i, i ∈ idx → (i < length l)%nat) →
  length (collect_chunks T l n idx) = length idx.
Proof.
  intros Hn. induction idx as [|i idx IH]; intros Hidx; [done|].
  cbn [collect_chunks]. destruct (lookup_lt_is_Some_2 l i) as [x Hx].
  { apply Hidx. by left. }
  destruct (chunk_at_lookup T l n i x Hn Hx) as (y & j & _ & _ & _ & ->).
  cbn. f_equal. apply IH. intros ??. apply Hidx. by right.
Qed.

Lemma length_chunk_text (T : str) (chunk_size : Z) :
  length (chunk_text T chunk_size)
  = ((length (word_spans T) + words_per_chunk chunk_size - 1)
     / words_per_chunk chunk_size)%nat.
Proof.
  pose proof (words_per_chunk_pos chunk_size) as Hn.
  rewrite chunk_text_unfold, length_collect_chunks, length_range_step; [done..|].
  intros i [k Hk]%list_elem_of_lookup.
  by destruct (range_step_lookup _ _ _ _ Hn Hk).
Qed.

Lemma length_findall (T : str) :
  length (findall_nonspace T) = length (word_spans T).
Proof. unfold findall_nonspace. by rewrite length_map. Qed.

(** X24. For a positive chunk size [estimate_chunk_count] is exactly the
    number of chunks [chunk_text] returns; for a chunk size of 0 or less it
    is 0, while [chunk_text] works as with 600 words per chunk. *)
Theorem estimate_chunk_count_exact (text_ : str) (chunk_size : Z) :
  (0 < chunk_size →
   estimate_chunk_count text_ chunk_size
   = Z.of_nat (length (chunk_text text_ chunk_size))) ∧
  (chunk_size ≤ 0 →
   estimate_chunk_count text_ chunk_size = 0 ∧
   chunk_text text_ chunk_size = chunk_text text_ 600).
Proof.
  split.
  - intros Hpos. rewrite length_chunk_text. unfold estimate_chunk_count.
    rewrite length_findall. unfold words_per_chunk.
    destruct (Z.leb_spec chunk_size 0) as [|_]; [lia|].
    rewrite orb_false_r. case_bool_decide as Ht.
    + subst. cbn. rewrite Nat.div_small by lia. done.
    + rewrite Nat2Z.inj_div. f_equal; lia.
  - intros Hneg. unfold estimate_chunk_count.
    rewrite (proj2 (Z.leb_le _ _) Hneg), orb_true_r. split; [done|].
    unfold chunk_text. by rewrite (proj2 (Z.leb_le _ _) Hneg).
Qed.
End ChunkCount.

Section ChunkSingle.
Context `{CharDb}.
Import chunker.

Lemma lstrip_app_spaces (pre s : str) :
  (∀ c, c ∈ pre → isspace c = true) → lstrip (pre ++ s) = lstrip s.
Proof.
  induction pre as [|c pre IH]; intros Hpre; [done|]. cbn.
  rewrite (Hpre c) by by left. apply IH. intros ??. apply Hpre. by right.
Qed.

Lemma rstrip_app_spaces (s post : str) :
  (∀ c, c ∈ post → isspace c = true) → rstrip (s ++ post) = rstrip s.
Proof.
  intros Hpost. unfold rstrip. rewrite reverse_app.
  rewrite (lstrip_app_spaces (reverse post) (reverse s)); [done|].
  intros c Hc. apply Hpost. by apply elem_of_reverse.
Qed.

Lemma rstrip_last (s : str) (c : ascii) :
  isspace c = false → rstrip (s ++ [c]) = s ++ [c].
Proof.
  intros Hc. unfold rstrip. rewrite reverse_app, reverse_singleton.
  cbn [app lstrip]. rewrite Hc.
  by rewrite reverse_cons, reverse_involutive.
Qed.

(** [strip] takes off whitespace around a string that neither starts nor
    ends with it. *)
Lemma strip_middle (pre mid post : str) (c c' : ascii) (m : str) :
  (∀ x, x ∈ pre → isspace x = true) → (∀ x, x ∈ post → isspace x = true) →
  mid = c :: m → isspace c = false →
  last mid = Some c' → isspace c' = false →
  strip (pre ++ mid ++ post) = mid.
Proof.
  intros Hpre Hpost Hm Hc Hl Hc'. unfold strip.
  rewrite lstrip_app_spaces by done.
  assert (lstrip (mid ++ post) = mid ++ post) as ->.
  { rewrite Hm. cbn. by rewrite Hc. }
  rewrite rstrip_app_spaces by done.
  destruct (last_Some mid c') as [[mid' ->] _]; [done|]. by apply rstrip_last.
Qed.

Lemma lstrip_length_le (s : str) : (length (lstrip s) ≤ length s)%nat.
Proof.
  induction s as [|c s IH]; [done|]. cbn. destruct (isspace c); cbn; lia.
Qed.

Lemma lstrip_spaces (pre s : str) (c : ascii) :
  (∀ x, x ∈ pre → isspace x = true) → isspace c = false →
  lstrip (pre ++ c :: s) = c :: s.
Proof.
  intros Hpre Hc. rewrite lstrip_app_spaces by done. cbn. by rewrite Hc.
Qed.

(** The text from the start of its first word to the end of its last
    word is the text stripped. *)
Lemma strip_word_spans (T : str) (first final : nat * nat) :
  head (word_spans T) = Some first → last (word_spans T) = Some final →
  slice T (Z.of_nat first.1) (Z.of_nat final.2) = strip T ∧
  length (lstrip T) = (length T - first.1)%nat.
Proof.
  intros Hh Hl.
  assert (H0 : word_spans T !! 0%nat = Some first) by (by rewrite <- head_lookup).
  assert (Hn : word_spans T !! (length (word_spans T) - 1)%nat = Some final).
  { rewrite last_lookup in Hl.
    by replace (length (word_spans T) - 1)%nat
      with (pred (length (word_spans T))) by lia. }
  assert (Hlen : (0 < length (word_spans T))%nat)
    by (by apply lookup_lt_Some in H0).
  destruct (word_spans_lookup_le T 0 (length (word_spans T) - 1) first final
              H0 Hn ltac:(lia)) as (Hle1 & Hle2 & Hlt & HlenT).
  pose proof (word_spans_sound T first.1 first.2) as Hw1.
  destruct Hw1 as ((Ha & _) & Hns1 & _).
  { destruct first. by eapply list_elem_of_lookup_2. }
  pose proof (word_spans_sound T final.1 final.2) as Hw2.
  destruct Hw2 as ((Hb & HbT) & Hns2 & _).
  { destruct final. by eapply list_elem_of_lookup_2. }
  assert (Hpre : ∀ x, x ∈ take first.1 T → isspace x = true).
  { intros x [i Hi]%list_elem_of_lookup.
    destruct (isspace x) eqn:Hx; [done|]. exfalso.
    apply lookup_take_Some in Hi as [Hi Hlt'].
    destruct (word_spans_cover T i) as (a' & b' & [j Hj]%list_elem_of_lookup & Hin).
    { by exists x. }
    destruct (word_spans_lookup_le T 0 j first (a', b') H0 Hj ltac:(lia))
      as (? & _). cbn in *. lia. }
  assert (Hpost : ∀ x, x ∈ drop final.2 T → isspace x = true).
  { intros x [i Hi]%list_elem_of_lookup.
    destruct (isspace x) eqn:Hx; [done|]. exfalso.
    rewrite lookup_drop in Hi.
    destruct (word_spans_cover T (final.2 + i)) as (a' & b' & [j Hj]%list_elem_of_lookup & Hin).
    { by exists x. }
    pose proof (lookup_lt_Some _ _ _ Hj).
    destruct (word_spans_lookup_le T j (length (word_spans T) - 1) (a', b') final
                Hj Hn ltac:(lia)) as (_ & ? & _). cbn in *. lia. }
  destruct (Hns1 first.1 ltac:(lia)) as (c & Hc & Hcs).
  destruct (Hns2 (final.2 - 1)%nat ltac:(lia)) as (c' & Hc' & Hcs').
  remember (take (final.2 - first.1) (drop first.1 T)) as mid eqn:Emid.
  assert (HT : T = take first.1 T ++ mid ++ drop final.2 T).
  { rewrite Emid. rewrite <- (take_drop first.1 T) at 1. f_equal.
    rewrite <- (take_drop (final.2 - first.1) (drop first.1 T)) at 1. f_equal.
    rewrite drop_drop. f_equal. lia. }
  assert (Hmid0 : mid !! 0%nat = Some c).
  { rewrite Emid. rewrite lookup_take_lt by lia. rewrite lookup_drop.
    by rewrite Nat.add_0_r. }
  assert (Hmidl : last mid = Some c').
  { rewrite last_lookup, Emid.
    rewrite length_take, length_drop.
    replace (pred _) with (final.2 - first.1 - 1)%nat by lia.
    rewrite lookup_take_lt by lia. rewrite lookup_drop.
    replace (first.1 + _)%nat with (final.2 - 1)%nat by lia. done. }
  assert (Hlmid : length mid = (final.2 - first.1)%nat).
  { rewrite Emid, length_take, length_drop. lia. }
  destruct mid as [|c0 m]; [done|]. cbn in Hmid0. injection Hmid0 as ->.
  pose proof (strip_middle (take first.1 T) (c :: m) (drop final.2 T) c c' m
                Hpre Hpost eq_refl Hcs Hmidl Hcs') as Hstrip.
  rewrite <- HT in Hstrip.
  split.
  - rewrite slice_nat by lia. by rewrite <- Emid.
  - assert (lstrip T = (c :: m) ++ drop final.2 T) as ->.
    { rewrite HT at 1. by apply lstrip_spaces. }
    rewrite length_app, Hlmid, length_drop. lia.
Qed.

(** X25. A text with at least one word and no more words than the chunk
    size gives a single chunk: the text stripped of surrounding whitespace,
    at the offset of its first character that is not whitespace. *)
Theorem chunk_text_single (text_ : str) (chunk_size : Z) :
  strip text_ ≠ [] →
  0 < chunk_size →
  Z.of_nat (length (findall_nonspace text_)) ≤ chunk_size →
  chunk_text text_ chunk_size
  = [(strip text_, len text_ - len (lstrip text_))].
Proof.
  intros Hs Hpos Hcount. rewrite length_findall in Hcount.
  rewrite chunk_text_unfold.
  assert (words_per_chunk chunk_size = Z.to_nat chunk_size) as Hn.
  { unfold words_per_chunk. destruct (Z.leb_spec chunk_size 0); [lia|done]. }
  rewrite Hn.
  destruct (word_spans text_) as [|first rest] eqn:Ew.
  { destruct Hs. pose proof (proj2 (all_space_no_words text_) Ew) as Hall.
    unfold strip.
    rewrite <- (app_nil_r text_), lstrip_app_spaces by done. done. }
  destruct (last (first :: rest)) as [final|] eqn:El.
  2:{ by apply last_None in El. }
  destruct (strip_word_spans text_ first final) as [Hstrip Hoff].
  { by rewrite Ew. } { by rewrite Ew. }
  unfold range_step.
  replace ((length (first :: rest) + Z.to_nat chunk_size - 1)
           / Z.to_nat chunk_size)%nat with 1%nat.
  2:{ cbn [length] in *. apply Nat.div_unique with (r := length rest); lia. }
  cbn [seq map collect_chunks]. unfold chunk_at. rewrite drop_0.
  rewrite take_ge by (cbn [length] in *; lia).
  rewrite El. cbn [head]. rewrite Hstrip. do 3 f_equal.
  pose proof (lstrip_length_le text_). unfold len.
  assert (first.1 ≤ length text_)%nat; [|lia].
  pose proof (word_spans_sound text_ first.1 first.2) as Hw.
  destruct Hw as ((? & ?) & _); [|lia].
  rewrite Ew. destruct first. by left.
Qed.
End ChunkSingle.

(** ** Completion order and the parallel path *)

Section ParallelOrder.
Context `{CharDb}.
Context (predict : str → option (list str) → option (list entity)).
Import chunker parallel_processor.

Lemma chunk_text_ordered (T : str) (chunk_size : Z) (i j : nat) c1 o1 c2 o2 :
  (i < j)%nat →
  chunk_text T chunk_size !! i = Some (c1, o1) →
  chunk_text T chunk_size !! j = Some (c2, o2) →
  0 ≤ o1 ∧ o1 + len c1 < o2.
Proof.
  intros Hij H1 H2.
  destruct (chunk_text_lookup T chunk_size i c1 o1 H1)
    as (x & y & k & Hx & Hy & Hk & -> & ->).
  destruct (chunk_text_lookup T chunk_size j c2 o2 H2)
    as (x' & y' & k' & Hx' & _ & _ & _ & ->).
  destruct (word_spans_lookup_le T _ _ x y Hx Hy ltac:(lia)) as (? & ? & ? & ?).
  assert (k < j * words_per_chunk chunk_size)%nat as Hlt by nia.
  pose proof (word_spans_lookup_lt T _ _ y x' Hy Hx' Hlt).
  unfold len. rewrite length_slice_nat by lia. lia.
Qed.

(** X26. With one worker or more, when the labeler reports spans that
    start within its chunk, the result of [extract_entities_in_parallel]
    does not depend on the order in which the workers finish: it is the
    entities of the chunks, in chunk order, those of each chunk in stable
    ascending order of start. With [max_workers <= 0] the result is the
    empty list. *)
Theorem parallel_order_independent (full_text : str)
  (chunk_size max_workers : Z) (categories : option (list str))
  (completion : list nat) :
  (∀ chunk ents e, predict chunk categories = Some ents → e ∈ ents →
                   0 ≤ start e < len chunk) →
  completion ≡ₚ seq 0 (length (chunk_text full_text chunk_size)) →
  (1 ≤ max_workers →
   extract_entities_in_parallel predict full_text chunk_size max_workers
     categories completion
   = concat ((λ c : str * Z,
                sort_asc start
                  (extract_entities_for_chunk predict c.1 c.2 categories))
             <$> chunk_text full_text chunk_size)) ∧
  (max_workers ≤ 0 →
   extract_entities_in_parallel predict full_text chunk_size max_workers
     categories completion = []).
Proof.
  intros Hlab Hperm.
  split; [|apply extract_in_parallel_no_workers].
  intros Hw. unfold extract_entities_in_parallel.
  assert (Hblank : bool_decide (full_text = [])
                   || bool_decide (strip full_text = []) = true →
                   chunk_text full_text chunk_size = []).
  { intros Hb. unfold chunk_text. by rewrite Hb. }
  destruct (_ || _); [by rewrite Hblank|]. clear Hblank.
  case_bool_decide as Hnil; [by rewrite Hnil|].
  destruct (Z.leb_spec max_workers 0); [lia|].
  cbn zeta. unfold as_completed.
  set (futures := map _ (chunk_text full_text chunk_size)).
  rewrite (sort_blocks_any_order start futures completion).
  - unfold futures. by rewrite <- list_fmap_compose.
  - intros i j Bi Bj x y Hij Hi Hj Hx Hy. unfold futures in Hi, Hj.
    rewrite list_lookup_fmap in Hi, Hj.
    destruct (chunk_text full_text chunk_size !! i) as [[c1 o1]|] eqn:E1; [|done].
    destruct (chunk_text full_text chunk_size !! j) as [[c2 o2]|] eqn:E2; [|done].
    cbn in Hi, Hj. injection Hi as <-. injection Hj as <-.
    destruct (chunk_text_ordered _ _ _ _ _ _ _ _ Hij E1 E2) as [Ho1 Hlt].
    unfold extract_entities_for_chunk in Hx, Hy.
    destruct (predict c1 categories) as [ents1|] eqn:P1;
      [|by apply not_elem_of_nil in Hx].
    destruct (predict c2 categories) as [ents2|] eqn:P2;
      [|by apply not_elem_of_nil in Hy].
    apply list_elem_of_fmap in Hx as (e1 & -> & He1).
    apply list_elem_of_fmap in Hy as (e2 & -> & He2).
    pose proof (Hlab c1 ents1 e1 P1 He1). pose proof (Hlab c2 ents2 e2 P2 He2).
    cbn. lia.
  - unfold futures. by rewrite length_map.
Qed.
End ParallelOrder.

Section AutoParallel.
Context `{CharDb}.
Context (predict : str → option (list str) → option (list entity)).
Import chunker parallel_processor ParallelEntityProcessor.

Lemma blank_no_words (T : str) : strip T = [] → word_spans T = [].
Proof. intros Hs. by apply all_space_no_words, strip_nil. Qed.

Lemma extract_in_parallel_blank (T : str) (chunk_size max_workers : Z)
  (categories : option (list str)) (completion : list nat) :
  bool_decide (T = []) || bool_decide (strip T = []) = true →
  extract_entities_in_parallel predict T chunk_size max_workers categories
    completion = [].
Proof. intros Hb. unfold extract_entities_in_parallel. by rewrite Hb. Qed.

(** X27. Without [use_parallel], [process_text] with a positive chunk
    size takes the parallel path exactly when [chunk_text] splits the text
    into two chunks or more, and otherwise returns the prediction on the
    whole text (nothing for a blank text, or when the prediction raises);
    with a chunk size of 0 or less it always takes the parallel path. This
    holds for every number of workers, which is passed on as it is. *)
Theorem process_text_auto (text_ : str) (labels : option (list str))
  (chunk_size max_workers : Z) (completion : list nat) :
  (0 < chunk_size →
   process_text predict text_ labels chunk_size max_workers None completion
   = if bool_decide (2 ≤ length (chunk_text text_ chunk_size))%nat then
       extract_entities_in_parallel predict text_ chunk_size max_workers
         labels completion
     else if bool_decide (strip text_ = []) then []
     else default [] (predict text_ labels)) ∧
  (chunk_size ≤ 0 →
   process_text predict text_ labels chunk_size max_workers None completion
   = extract_entities_in_parallel predict text_ chunk_size max_workers labels
       completion).
Proof.
  unfold process_text, split. rewrite length_findall.
  split.
  - intros Hpos. rewrite length_chunk_text.
    assert (words_per_chunk chunk_size = Z.to_nat chunk_size) as ->.
    { unfold words_per_chunk. destruct (Z.leb_spec chunk_size 0); [lia|done]. }
    set (wc := length (word_spans text_)). set (n := Z.to_nat chunk_size).
    assert (Hn : (1 ≤ n)%nat) by (unfold n; lia).
    assert (Hdiv : (2 ≤ (wc + n - 1) / n)%nat ↔ (n < wc)%nat).
    { split.
      - intros Hd. destruct (Nat.le_gt_cases wc n) as [Hle|]; [|done].
        assert ((wc + n - 1) / n < 2)%nat; [|lia].
        apply Nat.Div0.div_lt_upper_bound; lia.
      - intros Hlt. apply Nat.div_le_lower_bound; lia. }
    destruct (bool_decide (text_ = []) || bool_decide (strip text_ = []))
      eqn:Hb.
    + assert (strip text_ = []) as Hs.
      { apply orb_true_iff in Hb as [Ht%bool_decide_eq_true|Hs%bool_decide_eq_true];
          [by subst|done]. }
      assert (wc = O) as -> by (unfold wc; by rewrite blank_no_words).
      rewrite bool_decide_eq_false_2 by (rewrite Hdiv; lia).
      by rewrite bool_decide_eq_true_2.
    + apply orb_false_iff in Hb as [_ Hs%bool_decide_eq_false].
      destruct (Z.ltb_spec chunk_size (Z.of_nat wc)) as [Hlt|Hge].
      * rewrite bool_decide_eq_true_2; [done|]. apply Hdiv. unfold n. lia.
      * rewrite bool_decide_eq_false_2 by (rewrite Hdiv; unfold n; lia).
        by rewrite bool_decide_eq_false_2.
  - intros Hneg.
    destruct (bool_decide (text_ = []) || bool_decide (strip text_ = []))
      eqn:Hb; [by rewrite extract_in_parallel_blank|].
    destruct (Z.ltb_spec chunk_size (Z.of_nat (length (word_spans text_))))
      as [_|Hge]; [done|].
    apply orb_false_iff in Hb as [_ Hs%bool_decide_eq_false].
    destruct (word_spans text_) eqn:Ew; [|cbn in Hge; lia].
    destruct Hs. unfold strip.
    pose proof (proj2 (all_space_no_words text_) Ew) as Hall.
    rewrite <- (app_nil_r text_), lstrip_app_spaces by done. done.
Qed.
End AutoParallel.

(** ** The country strategy *)

Section Country.
Context `{CharDb} {W : Type} (next_random : W → N * W).
Context (countries : list str).
Import CountryReplacementStrategy.

(** X28. A replacement of the country strategy is either a country of
    its list that differs, case aside, from the stripped text of the entity,
    or, for the label [nationality] on a text that is not country-like, the
    nationality derived from a country of the list. *)
Theorem country_replacement_differs (e : entity) (w : W) (r : str) :
  (get_replacement next_random countries e w).1 = Some r →
  (r ∈ countries ∧ lower r ≠ lower (strip (text e))) ∨
  (lower (label e) = py "nationality" ∧
   _is_country_like countries (strip (text e)) = false ∧
   ∃ country, country ∈ countries ∧ r = _country_to_nationality country).
Proof.
  unfold get_replacement.
  destruct (_is_country_like countries (strip (text e))) eqn:Hlike.
  - case_bool_decide as Hav; [done|].
    pose proof (choice_elem next_random [] _ w Hav) as Hin.
    destruct (choice next_random [] _ w) as [c w']. cbn in *.
    intros [= <-]. left. by apply list_elem_of_filter in Hin as [? ?].
  - assert (Hnot : ∀ c, c ∈ countries → lower c ≠ lower (strip (text e))).
    { intros c Hc Heq. unfold _is_country_like in Hlike.
      apply orb_false_iff in Hlike as [Hex _].
      rewrite <- not_true_iff_false in Hex. apply Hex.
      apply existsb_exists. exists c. split; [by apply list_elem_of_In|].
      by apply bool_decide_eq_true. }
    destruct (decide (lower (label e) = py "location")) as [_|_].
    + case_bool_decide as Hc; [done|].
      pose proof (choice_elem next_random [] _ w Hc) as Hin.
      destruct (choice next_random [] countries w) as [c w']. cbn in *.
      intros [= <-]. left. split; [done|by apply Hnot].
    + destruct (decide (lower (label e) = py "nationality")) as [Hl|_]; [|done].
      case_bool_decide as Hc; [done|].
      pose proof (choice_elem next_random [] _ w Hc) as Hin.
      destruct (choice next_random [] countries w) as [c w']. cbn in *.
      intros [= <-]. right. split_and!; [done|done|by exists c].
Qed.
End Country.

(** ** The statistics of the chunks *)

Section ChunkInfo.
Context `{CharDb}.
Import chunker.

Lemma word_spans_NoDup (T : str) : NoDup (word_spans T).
Proof.
  apply NoDup_alt. intros i j x Hi Hj.
  pose proof (word_spans_lookup_le T i i x x Hi Hi (le_n _)) as Hx.
  destruct (Nat.lt_trichotomy i j) as [Hlt|[->|Hlt]]; [|done|].
  - pose proof (word_spans_lookup_lt T i j x x Hi Hj Hlt). lia.
  - pose proof (word_spans_lookup_lt T j i x x Hj Hi Hlt). lia.
Qed.

(** The characters of a slice are those of the text, moved by its start. *)
Lemma lookup_take_drop (T : str) (o e k : nat) :
  (e ≤ length T)%nat →
  take (e - o) (drop o T) !! k
  = if decide (k < e - o)%nat then T !! (o + k)%nat else None.
Proof. intros He. rewrite lookup_take. case_decide; [|done]. apply lookup_drop. Qed.

Lemma nonspace_at_slice (T : str) (o e k : nat) :
  (e ≤ length T)%nat →
  nonspace_at (take (e - o) (drop o T)) k
  ↔ (k < e - o)%nat ∧ nonspace_at T (o + k).
Proof.
  intros He. unfold nonspace_at. rewrite lookup_take_drop by done.
  case_decide; [|split; [by intros (? & ? & _)|lia]].
  split; [by intros ?|by intros [_ ?]].
Qed.

Lemma space_at_slice (T : str) (o e k : nat) :
  (e ≤ length T)%nat →
  space_at (take (e - o) (drop o T)) k
  ↔ (k < e - o)%nat ∧ space_at T (o + k).
Proof.
  intros He. unfold space_at. rewrite lookup_take_drop by done.
  case_decide; [|split; [by intros (? & ? & _)|lia]].
  split; [by intros ?|by intros [_ ?]].
Qed.

(** A slice that starts where a word starts and ends where a word ends has
    the words of the text that lie in it. *)
Lemma is_word_slice (T : str) (o e a b : nat) :
  left_closed T o → e = length T ∨ space_at T e → (o ≤ e ≤ length T)%nat →
  is_word (take (e - o) (drop o T)) a b
  ↔ is_word T (o + a) (o + b) ∧ (o + b ≤ e)%nat.
Proof.
  intros Ho He Hoe.
  assert (Hlen : length (take (e - o) (drop o T)) = (e - o)%nat)
    by (rewrite length_take, length_drop; lia).
  unfold is_word. rewrite Hlen. split.
  - intros (Hab & Hrun & Hleft & Hright). split; [|lia].
    refine (conj _ (conj _ (conj _ _))).
    + lia.
    + intros i Hi. replace i with (o + (i - o))%nat by lia.
      apply (nonspace_at_slice T o e); [lia|]. apply Hrun. lia.
    + destruct Hleft as [->|(a' & -> & Hsp)].
      * by rewrite Nat.add_0_r.
      * right. exists (o + a')%nat. split; [lia|].
        by apply (space_at_slice T o e) in Hsp as [_ ?]; [|lia].
    + destruct Hright as [->|Hsp].
      * by replace (o + (e - o))%nat with e by lia.
      * right. by apply (space_at_slice T o e) in Hsp as [_ ?]; [|lia].
  - intros ((Hab & Hrun & Hleft & Hright) & Hbe).
    refine (conj _ (conj _ (conj _ _))).
    + lia.
    + intros i Hi. apply nonspace_at_slice; [lia|]. split; [lia|].
      apply Hrun. lia.
    + destruct a as [|a']; [by left|]. right. exists a'. split; [done|].
      apply space_at_slice; [lia|]. split; [lia|].
      destruct Hleft as [?|(p & Hp & Hsp)]; [lia|].
      by replace (o + a')%nat with p by lia.
    + destruct (decide (o + b = e)%nat) as [?|Hne]; [left; lia|]. right.
      apply space_at_slice; [lia|]. split; [lia|].
      destruct Hright as [?|?]; [lia|done].
Qed.

(** The slice from the start of the word [i] to the end of the word [j]
    has the words [i..j], and no other. *)
Lemma word_spans_between (T : str) (i j : nat) (x y : nat * nat) :
  word_spans T !! i = Some x → word_spans T !! j = Some y → (i ≤ j)%nat →
  length (word_spans (slice T (Z.of_nat x.1) (Z.of_nat y.2))) = S (j - i).
Proof.
  intros Hx Hy Hij.
  destruct (word_spans_lookup_le T i j x y Hx Hy Hij) as (_ & _ & Hxy).
  assert (Hwx : is_word T x.1 x.2).
  { apply word_spans_sound. destruct x. by eapply list_elem_of_lookup_2. }
  assert (Hwy : is_word T y.1 y.2).
  { apply word_spans_sound. destruct y. by eapply list_elem_of_lookup_2. }
  rewrite slice_nat by lia.
  set (o := x.1) in *. set (e := y.2) in *.
  set (C := take (e - o) (drop o T)).
  assert (Hslice : ∀ a b, is_word C a b
                          ↔ is_word T (o + a) (o + b) ∧ (o + b ≤ e)%nat).
  { intros a b. apply is_word_slice; [|  |lia].
    - by destruct Hwx as (_ & _ & ? & _).
    - by destruct Hwy as (_ & _ & _ & ?). }
  assert (Hperm : prod_map (Nat.add o) (Nat.add o) <$> word_spans C
                  ≡ₚ take (S (j - i)) (drop i (word_spans T))).
  { apply NoDup_Permutation.
    - apply NoDup_fmap_2; [|apply word_spans_NoDup].
      intros [a b] [a' b'] [= ? ?]. f_equal; lia.
    - assert (take (S (j - i)) (drop i (word_spans T))
              `sublist_of` word_spans T) as Hsub
        by (etrans; [apply sublist_take | apply sublist_drop]).
      eapply sublist_NoDup in Hsub; [done|apply word_spans_NoDup].
    - intros [a b]. rewrite list_elem_of_fmap. split.
      + intros ([a' b'] & [= -> ->] & Hin).
        apply word_spans_words, Hslice in Hin as [Hw Hle].
        pose proof Hw as Hw'.
        apply word_spans_words, list_elem_of_lookup in Hw' as [p Hp].
        destruct Hw as (Hab & _).
        assert (i ≤ p)%nat.
        { destruct (Nat.le_gt_cases i p) as [|Hlt]; [done|].
          pose proof (word_spans_lookup_lt T p i _ _ Hp Hx Hlt) as Hpo.
          cbn in Hpo. fold o in Hpo. lia. }
        assert (p ≤ j)%nat.
        { destruct (Nat.le_gt_cases p j) as [|Hlt]; [done|].
          pose proof (word_spans_lookup_lt T j p _ _ Hy Hp Hlt) as Hep.
          cbn in Hep. fold e in Hep. lia. }
        apply list_elem_of_lookup. exists (p - i)%nat.
        rewrite lookup_take. case_decide; [|lia].
        rewrite lookup_drop. by replace (i + (p - i))%nat with p by lia.
      + intros [p' Hp]%list_elem_of_lookup.
        rewrite lookup_take in Hp. case_decide; [|done].
        rewrite lookup_drop in Hp.
        assert (Hw : is_word T a b).
        { apply word_spans_sound. by eapply list_elem_of_lookup_2. }
        destruct (word_spans_lookup_le T i (i + p') x (a, b) Hx Hp ltac:(lia))
          as (Hoa & _).
        destruct (word_spans_lookup_le T (i + p') j (a, b) y Hp Hy ltac:(lia))
          as (_ & Hbe & _).
        cbn in Hoa, Hbe. fold o in Hoa. fold e in Hbe.
        exists ((a - o)%nat, (b - o)%nat). split.
        * cbn. destruct Hw as (? & _). f_equal; lia.
        * apply word_spans_words, Hslice.
          destruct Hw as (? & ?).
          replace (o + (a - o))%nat with a by lia.
          replace (o + (b - o))%nat with b by lia. done. }
  apply Permutation_length in Hperm.
  rewrite length_fmap, length_take, length_drop in Hperm.
  apply lookup_lt_Some in Hy. lia.
Qed.

(** A chunk holds as many words as its group of spans. *)
Lemma chunk_at_words (T : str) (n i : nat) (x : nat * nat) :
  (1 ≤ n)%nat → word_spans T !! i = Some x →
  ∃ c, chunk_at T (word_spans T) n i = Some c ∧
       length (findall_nonspace c.1)
       = length (take n (drop i (word_spans T))).
Proof.
  intros Hn Hx.
  destruct (chunk_at_lookup T (word_spans T) n i x Hn Hx)
    as (y & j & Hy & Hj & Hmax & ->).
  eexists. split; [done|]. cbn [fst].
  rewrite length_findall, (word_spans_between T i j x y) by (done || lia).
  rewrite length_take, length_drop.
  pose proof (lookup_lt_Some _ _ _ Hy) as HjL.
  destruct (Nat.le_gt_cases (i + n) (S j)) as [|Hlt]; [lia|].
  destruct (Nat.le_gt_cases (length (word_spans T)) (S j)) as [|Hlt'];
    [lia|].
  specialize (Hmax (S j) ltac:(lia) Hlt'). lia.
Qed.

Lemma foldl_add (a : Z) (l : list Z) : foldl Z.add a l = a + py_sum l.
Proof.
  unfold py_sum. revert a. induction l as [|x l IH]; intros a; cbn; [lia|].
  rewrite (IH (a + x)), (IH (0 + x)). lia.
Qed.

Lemma py_sum_cons (x : Z) (l : list Z) : py_sum (x :: l) = x + py_sum l.
Proof. unfold py_sum at 1. cbn. apply foldl_add. Qed.

Lemma collect_chunks_words (T : str) (n : nat) (idx : list nat) :
  (1 ≤ n)%nat → (∀ i, i ∈ idx → (i < length (word_spans T))%nat) →
  py_sum (map (λ c : str * Z, Z.of_nat (length (findall_nonspace c.1)))
            (collect_chunks T (word_spans T) n idx))
  = py_sum (map (λ i, Z.of_nat (length (take n (drop i (word_spans T)))))
              idx).
Proof.
  intros Hn. induction idx as [|i idx IH]; intros Hidx; [done|].
  cbn [collect_chunks]. destruct (lookup_lt_is_Some_2 (word_spans T) i) as [x Hx].
  { apply Hidx. by left. }
  destruct (chunk_at_words T n i x Hn Hx) as (c & -> & Hc).
  cbn [map]. rewrite !py_sum_cons, Hc, IH; [done|].
  intros ??. apply Hidx. by right.
Qed.

(** Groups of [n] cover a list of at most [m * n] elements. *)
Lemma groups_cover {A} (n m : nat) (l : list A) :
  (1 ≤ n)%nat → (length l ≤ m * n)%nat →
  py_sum (map (λ i, Z.of_nat (length (take n (drop i l))))
            (map (λ k, k * n)%nat (seq 0 m)))
  = Z.of_nat (length l).
Proof.
  intros Hn. revert l. induction m as [|m IH]; intros l Hl.
  - cbn in *. destruct l; [done|cbn in Hl; lia].
  - cbn [seq map]. rewrite py_sum_cons, <- seq_shift, !map_map.
    rewrite (map_ext _ (λ k, Z.of_nat (length (take n (drop (k * n)
                                                         (drop n l)))))).
    2:{ intros k. rewrite drop_drop. do 3 f_equal. }
    rewrite <- (map_map (λ k, (k * n)%nat)
                  (λ i, Z.of_nat (length (take n (drop i (drop n l)))))).
    rewrite IH by (rewrite length_drop; cbn in Hl; lia).
    cbn [Nat.mul drop]. rewrite length_take, !length_drop. lia.
Qed.

Lemma chunk_text_words (T : str) (chunk_size : Z) :
  py_sum (map (λ c : str * Z, Z.of_nat (length (findall_nonspace c.1)))
            (chunk_text T chunk_size))
  = Z.of_nat (length (findall_nonspace T)).
Proof.
  pose proof (words_per_chunk_pos chunk_size) as Hn.
  rewrite chunk_text_unfold, collect_chunks_words; [|done|].
  2:{ intros i [k Hk]%list_elem_of_lookup.
      by destruct (range_step_lookup _ _ _ _ Hn Hk). }
  unfold range_step. rewrite groups_cover, length_findall; [done|done|].
  set (L := length (word_spans T)). set (n := words_per_chunk chunk_size) in *.
  pose proof (Nat.div_mod (L + n - 1) n ltac:(lia)).
  pose proof (Nat.mod_upper_bound (L + n - 1) n ltac:(lia)). nia.
Qed.

(** Strings one after the other within [lo..hi] have at most [hi - lo]
    characters together. *)
Lemma py_sum_sizes (l : list (str * Z)) (lo hi : Z) :
  lo ≤ hi →
  (∀ c o, (c, o) ∈ l → lo ≤ o ∧ o + len c ≤ hi) →
  (∀ i j c1 o1 c2 o2, (i < j)%nat → l !! i = Some (c1, o1) →
     l !! j = Some (c2, o2) → o1 + len c1 ≤ o2) →
  py_sum (map (λ c : str * Z, len c.1) l) ≤ hi - lo.
Proof.
  revert lo. induction l as [|[c o] l IH]; intros lo Hlo Hin Hord.
  - cbn. lia.
  - cbn [map fst]. rewrite py_sum_cons.
    destruct (Hin c o ltac:(by left)) as [Ho Hc].
    specialize (IH (o + len c) Hc).
    assert (py_sum (map (λ c : str * Z, len c.1) l) ≤ hi - (o + len c));
      [|lia].
    apply IH.
    + intros c' o' [k Hk]%list_elem_of_lookup. split.
      * apply (Hord 0%nat (S k) c o c' o'); [lia|done|done].
      * apply (Hin c' o'). right. by eapply list_elem_of_lookup_2.
    + intros i j c1 o1 c2 o2 Hij H1 H2.
      apply (Hord (S i) (S j) c1 o1 c2 o2); [lia|done|done].
Qed.

Lemma foldl_min_le (x : Z) (l : list Z) (m : Z) :
  m ≤ x → Forall (λ y, m ≤ y) l → m ≤ foldl Z.min x l ≤ x.
Proof.
  intros Hx Hl. revert x Hx. induction Hl as [|y l Hy _ IH]; intros x Hx.
  - cbn. lia.
  - cbn. specialize (IH (Z.min x y) ltac:(lia)). lia.
Qed.

Lemma foldl_max_ge (x : Z) (l : list Z) : x ≤ foldl Z.max x l.
Proof.
  revert x. induction l as [|y l IH]; intros x; cbn; [lia|].
  specialize (IH (Z.max x y)). lia.
Qed.

(** X29. The statistics of [get_chunk_info] on what [chunk_text] returns:
    [total_chunks] is the number of chunks, [total_words] the number of
    words of the text (chunking loses no word and repeats none),
    [total_characters] lies between 0 and the length of the text, and, when
    there is a chunk, [1 <= min_chunk_size <= max_chunk_size]. *)
Theorem chunk_info_of_chunk_text (text_ : str) (chunk_size : Z) :
  let chunks := chunk_text text_ chunk_size in
  let info := get_chunk_info chunks in
  total_chunks info = Z.of_nat (length chunks) ∧
  total_words info = Z.of_nat (length (findall_nonspace text_)) ∧
  0 ≤ total_characters info ≤ len text_ ∧
  (chunks ≠ [] → 1 ≤ min_chunk_size info ≤ max_chunk_size info).
Proof.
  cbn zeta. pose proof (chunk_text_words text_ chunk_size) as Hwords.
  assert (Hsizes : Forall (λ y, 1 ≤ y)
            (map (λ c : str * Z, len c.1) (chunk_text text_ chunk_size))).
  { apply Forall_forall. intros y Hy.
    apply list_elem_of_In, in_map_iff in Hy as ([c o] & <- & Hc).
    apply list_elem_of_In in Hc.
    apply chunk_text_elem in Hc as (a & b & Hab & _ & ->).
    cbn. unfold len. rewrite length_take, length_drop. lia. }
  assert (Hchars : py_sum (map (λ c : str * Z, len c.1)
                             (chunk_text text_ chunk_size)) ≤ len text_ - 0).
  { apply py_sum_sizes.
    - unfold len. lia.
    - intros c o Hc. apply chunk_matches_chunk in Hc. lia.
    - intros i j c1 o1 c2 o2 Hij H1 H2.
      destruct (chunk_text_ordered text_ chunk_size i j c1 o1 c2 o2 Hij H1 H2).
      lia. }
  unfold get_chunk_info. case_bool_decide as Hnil.
  - rewrite Hnil in *. cbn in Hwords |- *. unfold len.
    split_and!; [done|done|lia|lia|done].
  - cbn [total_chunks total_words total_characters min_chunk_size
           max_chunk_size].
    split_and!; [done|done| |lia|].
    + destruct (chunk_text text_ chunk_size) as [|c l]; [done|].
      cbn [map] in *. rewrite py_sum_cons in *.
      apply Forall_cons in Hsizes as [? Hl].
      assert (0 ≤ py_sum (map (λ c : str * Z, len c.1) l)); [|lia].
      clear -Hl. induction Hl as [|y l' ? _ IH]; [done|].
      rewrite py_sum_cons. lia.
    + intros _. destruct (chunk_text text_ chunk_size) as [|c l]; [done|].
      cbn [map py_min py_max] in *.
      apply Forall_cons in Hsizes as [Hc Hl].
      pose proof (foldl_min_le (len c.1) _ 1 Hc Hl).
      pose proof (foldl_max_ge (len c.1) (map (λ c : str * Z, len c.1) l)).
      lia.
Qed.
End ChunkInfo.

(** ** Instances of the further properties *)

Section MoreExamples.
Import AsciiDb.

(** Two spans of the text ["abc cd"] that do not overlap. *)
Lemma abc_cd_separate : spans_separate (py "abc cd") [phone_abc; word_cd 4 6].
Proof.
  split.
  - repeat constructor; vm_compute; congruence.
  - repeat constructor.
Qed.

Section ValidatorWitnesses.
Import EntityValidator.

(** X1, an instance: the report on [Ann] comes out with its label in lower
    case. *)
Lemma validate_entities_strict_witness :
  ann_validated
  ∈ (validate_entities strict_validator reports (py "Ann met Bob") None).1 ∧
  text (fields ann_validated) = strip (slice (py "Ann met Bob") 0 3) ∧
  ∃ e0, e0 ∈ reports ∧ label (fields ann_validated) = strip (lower (label e0)).
Proof.
  assert (Hin : ann_validated
    ∈ (validate_entities strict_validator reports (py "Ann met Bob") None).1)
    by (vm_compute; apply list_elem_of_here).
  split; [exact Hin|].
  destruct (validate_entities_strict strict_validator reports
              (py "Ann met Bob") None ann_validated eq_refl Hin)
    as (_ & _ & _ & _ & Ht & _ & e0 & He0 & _ & _ & _ & Hl).
  split; [exact Ht|]. exists e0. split; [exact He0 | exact Hl].
Defined.

(** X2, an instance: one report passes, one falls to the threshold and one
    to the position check. *)
Lemma validation_counters_add_up_witness :
  let s :=
    stats (validate_entities strict_validator reports (py "Ann met Bob")
             None).2 in
  reports ≠ [] ∧
  confidence_filtered s + position_invalid s + text_mismatch s
  + valid_entities s = total_entities s.
Proof.
  assert (Hne : reports ≠ []) by discriminate.
  split; [exact Hne|].
  exact (proj1 (proj2 (proj2
    (validation_counters_add_up strict_validator reports (py "Ann met Bob")
       None Hne)))).
Defined.

Example validation_counters :
  let s :=
    stats (validate_entities strict_validator reports (py "Ann met Bob")
             None).2 in
  (total_entities s, confidence_filtered s, position_invalid s,
   text_mismatch s, valid_entities s) = (3, 1, 1, 0, 1).
Proof. by vm_compute. Qed.

(** X5, an instance: the third span has the highest score. *)
Lemma resolve_overlaps_keeps_best_witness :
  third_span
  ∈ resolve_overlaps [tied_first; tied_second; third_span]
      (py "highest_confidence").
Proof.
  apply (resolve_overlaps_keeps_best [tied_first; tied_second; third_span]
           (py "highest_confidence") 2%nat third_span eq_refl).
  left. split; [done|].
  intros [|[|[|j]]] e Hj He; [| |done|done];
    injection He as <-; by vm_compute.
Defined.

(** X6, an instance: three spans, each overlapping the next. *)
Lemma resolve_overlaps_first_kept_witness :
  resolve_overlaps [tied_first; tied_second; third_span] (py "first")
  = keep_first [] [tied_first; tied_second; third_span].
Proof.
  apply resolve_overlaps_first_kept; discriminate.
Defined.

(** X12, an instance: the reports on ["Ann met Bob"]. *)
Lemma validated_spans_separate_witness :
  let merged :=
    EntityMerger.merge 1
      (resolve_overlaps
         (fields <$> (validate_entities strict_validator reports
                        (py "Ann met Bob") None).1)
         (py "highest_confidence"))
      (py "Ann met Bob") in
  spans_separate (py "Ann met Bob") merged ∧
  Forall (text_of_span (py "Ann met Bob")) merged.
Proof.
  exact (proj2 (validated_spans_separate strict_validator reports
                  (py "Ann met Bob") None (py "highest_confidence") 1
                  eq_refl)).
Defined.

End ValidatorWitnesses.

Section MergerWitnesses.
Import EntityMerger.

(** X9, an instance: two spans a space apart, of different labels. *)
Lemma merge_keeps_separate_witness :
  spans_separate (py "abc cd") [phone_abc; word_cd 4 6] ∧
  spans_separate (py "abc cd") (merge 1 [phone_abc; word_cd 4 6] (py "abc cd")).
Proof.
  split; [exact abc_cd_separate|].
  exact (proj1 (merge_keeps_separate 1 [phone_abc; word_cd 4 6] (py "abc cd")
                  abc_cd_separate)).
Defined.

(** Two spans of one label a space apart are merged into one. *)
Example merge_adjacent :
  map (λ e, (text e, start e, end_ e, score e))
    (merge 1 [span "person" "Smith" 5 10; span "person" "John" 0 4]
       (py "John Smith"))
  = [(py "John Smith", 0, 10, 0.75%float)].
Proof. by vm_compute. Qed.

End MergerWitnesses.

Section RedactorWitnesses.
Import EntityRedactor.

(** X13, an instance. *)
Lemma redact_splices_witness :
  let result :=
    (redact new (py "abc cd") [phone_abc; word_cd 4 6] true default_format
       true).1 in
  anonymized_text result
  = splice (py "abc cd") 0 (redaction_edit <$> replacements result).
Proof.
  exact (redact_splices new (py "abc cd") [phone_abc; word_cd 4 6] true
           default_format true abc_cd_separate).
Defined.

(** X16, an instance: the instance after Scenario A. *)
Lemma used_ids_stay_contiguous_witness :
  contiguous
    (redact new scenario_a_text scenario_a_entities true default_format true).2.
Proof.
  apply used_ids_stay_contiguous. apply reachable_redact, reachable_new.
Defined.

(** X17, an instance: the instance after Scenario A. *)
Lemma redaction_stats_of_reachable_witness :
  let r :=
    (redact new scenario_a_text scenario_a_entities true default_format
       true).2 in
  ∃ st, get_redaction_stats r = Some st ∧ total_unique_entities st = 0 ∧
        ∀ lbl ls, label_statistics st !! lbl = Some ls →
                  max_id_used ls = ls_unique_entities ls.
Proof.
  intros r.
  destruct (redaction_stats_of_reachable r) as (st & Hst & Hz & Hl).
  { apply reachable_redact, reachable_new. }
  exists st. split; [exact Hst|]. split; [exact Hz|].
  intros lbl ls E. exact (proj2 (Hl lbl ls E)).
Defined.

(** X18, an instance: Scenario A. *)
Lemma reidentification_map_faithful_witness :
  let result :=
    (redact new scenario_a_text scenario_a_entities true default_format
       true).1 in
  Forall (λ d, re_identification_map result !! placeholder d
               = Some (original d))
    (replacements result).
Proof.
  intros result. apply Forall_forall. intros d Hd.
  exact (reidentification_map_faithful new scenario_a_text scenario_a_entities
           true d Hd).
Defined.

(** X19, an instance: Scenario A under the default format, which never
    fails. *)
Lemma redact_covers_every_entity_witness :
  let result :=
    (redact new scenario_a_text scenario_a_entities true default_format
       true).1 in
  (∀ i lbl, is_Some (default_format i lbl)) ∧
  detail_source <$> replacements result
  ≡ₚ entity_source <$> scenario_a_entities ∧
  redactions_applied (info result) = 3%nat.
Proof.
  intros result.
  assert (Hf : ∀ i lbl, is_Some (default_format i lbl)) by (intros; by eexists).
  split; [exact Hf|].
  destruct (redact_covers_every_entity new scenario_a_text scenario_a_entities
              true default_format true Hf) as (Hp & _ & Hn & _).
  split; [exact Hp | exact Hn].
Defined.

End RedactorWitnesses.

Section ReplacerWitnesses.
Import EntityReplacer.

(** X14, an instance: the skipped word [cd] stays as it is. *)
Lemma replace_splices_witness :
  let result :=
    (replace replay fallback_only ∅ [2; 3; 2; 3]%N (py "abc cd")
       [phone_abc; word_cd 4 6] true ∅).1.1 in
  anonymized_text result
  = splice (py "abc cd") 0 (replacement_edit <$> replacements result).
Proof.
  exact (replace_splices replay fallback_only ∅ [2; 3; 2; 3]%N (py "abc cd")
           [phone_abc; word_cd 4 6] true ∅ abc_cd_separate).
Defined.

(** X15, an instance: user data for one of the two labels. *)
Lemma replace_with_user_data_splices_witness :
  let result :=
    (replace_with_user_data replay [] (py "abc cd") [phone_abc; word_cd 4 6]
       phone_555 true).1 in
  user_anonymized_text result
  = splice (py "abc cd") 0
      (replacement_edit <$> user_replacements_made result).
Proof.
  exact (replace_with_user_data_splices replay [] (py "abc cd")
           [phone_abc; word_cd 4 6] phone_555 true abc_cd_separate).
Defined.

Example replace_with_user_data_run :
  let result :=
    (replace_with_user_data replay [] (py "abc cd") [phone_abc; word_cd 4 6]
       phone_555 true).1 in
  user_anonymized_text result = py "555 cd" ∧
  map (λ d, (original d, replacement d, strategy_used d))
    (user_replacements_made result)
  = [(py "abc", py "555", py "user_data")].
Proof. by vm_compute. Qed.

(** X20, an instance. *)
Lemma user_replacements_come_from_user_data_witness :
  Forall (λ d, strategy_used d = py "user_data" ∧ replacement d ≠ [])
    (user_replacements_made
       (replace_with_user_data replay [] (py "abc cd")
          [phone_abc; word_cd 4 6] phone_555 true).1).
Proof.
  apply Forall_forall. intros d Hd.
  destruct (user_replacements_come_from_user_data replay [] (py "abc cd")
              [phone_abc; word_cd 4 6] phone_555 true d Hd) as (Hs & Hr & _).
  split; [exact Hs | exact Hr].
Defined.

(** X21, an instance: the same text twice under one label. *)
Lemma user_replacements_consistent_witness :
  let made :=
    user_replacements_made
      (replace_with_user_data replay [1; 0]%N (py "cd cd")
         [word_cd 0 2; word_cd 3 5]
         [(py "word", Several [py "x"; py "y"])] true).1 in
  Forall (λ d1, Forall (λ d2, rp_label d1 = rp_label d2 →
                              original d1 = original d2 →
                              replacement d1 = replacement d2) made) made.
Proof.
  intros made. apply Forall_forall. intros d1 H1.
  apply Forall_forall. intros d2 H2.
  exact (user_replacements_consistent replay [1; 0]%N (py "cd cd")
           [word_cd 0 2; word_cd 3 5]
           [(py "word", Several [py "x"; py "y"])] d1 d2 H1 H2).
Defined.

(** X22, an instance: the string given for [phone]. *)
Lemma user_string_always_applied_witness :
  ∃ d, d ∈ user_replacements_made
             (replace_with_user_data replay [] (py "abc cd")
                [phone_abc; word_cd 4 6] phone_555 true).1 ∧
       rp_start d = 0 ∧ rp_end d = 3 ∧ original d = py "abc" ∧
       replacement d = py "555".
Proof.
  apply (user_string_always_applied replay [] (py "abc cd")
           [phone_abc; word_cd 4 6] phone_555 true phone_abc (py "555")).
  - apply list_elem_of_here.
  - by vm_compute.
  - discriminate.
Defined.

(** X23, an instance: the word [cd] in two calls. *)
Lemma replacement_consistent_across_calls_witness :
  let first :=
    replace replay fallback_only ∅ [5; 6; 7; 8]%N (py "cd") [word_cd 0 2]
      true ∅ in
  let second :=
    replace replay fallback_only first.1.2 first.2 (py "a cd") [word_cd 2 4]
      true ∅ in
  Forall (λ d1, Forall (λ d2, rp_label d1 = rp_label d2 →
                              original d1 = original d2 →
                              replacement d1 = replacement d2)
                  (replacements second.1.1))
    (replacements first.1.1).
Proof.
  intros first second. apply Forall_forall. intros d1 H1.
  apply Forall_forall. intros d2 H2.
  exact (replacement_consistent_across_calls replay fallback_only ∅
           [5; 6; 7; 8]%N (py "cd") (py "a cd") [word_cd 0 2] [word_cd 2 4]
           ∅ ∅ d1 d2 H1 H2).
Defined.

Example replace_twice :
  let first :=
    replace replay fallback_only ∅ [5; 6; 7; 8]%N (py "cd") [word_cd 0 2]
      true ∅ in
  let second :=
    replace replay fallback_only first.1.2 first.2 (py "a cd") [word_cd 2 4]
      true ∅ in
  anonymized_text first.1.1 = py "fg" ∧
  anonymized_text second.1.1 = py "a fg".
Proof. by vm_compute. Qed.

(** The country strategy in its place among the strategies of [replace]. *)
Example replace_country :
  let result :=
    (replace replay
       (without_faker
          (country_strategy replay
             CountryReplacementStrategy._get_default_countries)
          (default_strategy replay))
       ∅ [3%N] (py "in France") [span "country" "France" 3 9] true ∅).1.1 in
  anonymized_text result = py "in Germany" ∧
  map (λ d, (original d, replacement d, strategy_used d))
    (replacements result)
  = [(py "France", py "Germany", py "country")].
Proof. by vm_compute. Qed.

End ReplacerWitnesses.

Section ChunkWitnesses.
Import chunker parallel_processor.

(** X25, an instance: two words and room for five. *)
Lemma chunk_text_single_witness :
  chunk_text (py "  ab cd ") 5
  = [(strip (py "  ab cd "),
      len (py "  ab cd ") - len (lstrip (py "  ab cd ")))].
Proof.
  apply (chunk_text_single (py "  ab cd ") 5); by vm_compute.
Defined.

Example chunk_text_two_words :
  chunk_text (py "  ab cd ") 5 = [(py "ab cd", 2)].
Proof. by vm_compute. Qed.

(** X26, an instance: three chunks and four workers, which finish out of
    order. *)
Lemma parallel_order_independent_witness :
  extract_entities_in_parallel first_character (py "ab  cd ef") 1 4 None
    [2; 0; 1]%nat
  = concat ((λ c : str * Z,
               sort_asc start
                 (extract_entities_for_chunk first_character c.1 c.2 None))
            <$> chunk_text (py "ab  cd ef") 1).
Proof.
  refine (proj1 (parallel_order_independent first_character (py "ab  cd ef")
                   1 4 None [2; 0; 1]%nat _ _) _); [| |lia].
  - intros [|c chunk] ents e [= <-] He; [by apply elem_of_nil in He|].
    apply list_elem_of_singleton in He as ->. unfold len. simpl. lia.
  - change ([2; 0; 1]%nat ≡ₚ [0; 1; 2]%nat). symmetry.
    apply (Permutation_cons_app [2%nat] [1%nat] 0%nat). apply perm_swap.
Defined.

Example chunk_info_four_words :
  let info := get_chunk_info (chunk_text (py "  ab cd   ef g ") 2) in
  (total_chunks info, total_characters info, min_chunk_size info,
   max_chunk_size info, total_words info) = (2, 9, 4, 5, 4).
Proof. by vm_compute. Qed.

End ChunkWitnesses.

Section CountryWitnesses.
Import CountryReplacementStrategy.

(** X28, an instance: the fourth country of the default list for
    [France]. *)
Lemma country_replacement_differs_witness :
  (get_replacement replay _get_default_countries (span "country" "France" 0 6)
     [3%N]).1 = Some (py "Germany") ∧
  py "Germany" ∈ _get_default_countries ∧
  lower (py "Germany") ≠ lower (strip (py "France")).
Proof.
  assert (Hr : (get_replacement replay _get_default_countries
                  (span "country" "France" 0 6) [3%N]).1
               = Some (py "Germany")) by by vm_compute.
  split; [exact Hr|].
  destruct (country_replacement_differs replay _get_default_countries
              (span "country" "France" 0 6) [3%N] (py "Germany") Hr)
    as [Hc|(Hl & _)].
  - exact Hc.
  - exfalso. revert Hl. by vm_compute.
Defined.

End CountryWitnesses.

End MoreExamples.
